(** * lnobserver: the event-driven core of the Lightning Network map

    A shallow embedding of the two source files of the repository,

    - [App.tsx]: the poller callback [fetchChannelsGeo], which rebuilds the
      node and channel lists from a poll result, diffs the set of channel
      ids against the previous one and admits the detected events into the
      pending collection [channelEvents];
    - [LightningGraph.tsx]: the redraw effect, which projects the nodes,
      draws the static layers, throttles the sound cue and starts the
      lightning animations; and the scroll-wheel zoom it configures, whose
      event handling belongs to the d3-zoom package and is modelled from
      the specification.

    JavaScript values are modelled as follows.  A [number] that holds a
    count, an index or a millisecond time stamp is a [Z] (or a [nat] where
    the code can only produce a natural number); a [number] that holds a
    coordinate or a random sample is a rational [Q], which abstracts the
    IEEE double of the runtime.  A [string] is a [string].  [undefined] is
    [None].  An array is a [list].  A [Set<string>] is the list of its
    elements in insertion order, which is the order in which [for ... of]
    visits it.  The ambient effects of the runtime (the wall clock, the
    random number generator, the locale) are the fields of the class
    [Host]; every read of the clock or of the generator consumes one entry
    of the corresponding oracle, in program order. *)

From Stdlib Require Import ZArith QArith Qround Qminmax Lqa Ascii.
From stdpp Require Import base list strings gmap pretty.

Open Scope Z_scope.

(** ** JavaScript runtime *)

Module JS.

(** [ToIntegerOrInfinity] followed by the clamping that
    [Array.prototype.slice] applies to each of its two arguments: a
    negative index counts from the end, and both ends saturate. *)
Definition relative_index (len i : Z) : Z :=
  if i <? 0 then Z.max (len + i) 0 else Z.min i len.

(** [arr.slice(start, end)]; [end = undefined] is [None]. *)
Definition slice {A} (start : Z) (end_ : option Z) (arr : list A) : list A :=
  let len := Z.of_nat (length arr) in
  let k := relative_index len start in
  let final := match end_ with
               | None => len
               | Some e => relative_index len e
               end in
  take (Z.to_nat (final - k)) (drop (Z.to_nat k) arr).

(** [arr.slice(-n)], the idiom the sources use to keep the last [n]
    entries.  The argument is the negation of [n], so that [n = 0] gives
    the index [-0 = 0] and the whole array is kept. *)
Definition slice_last {A} (n : Z) (arr : list A) : list A :=
  slice (- n) None arr.

(** [Set<string>]: the elements in insertion order. *)
Definition JsSet := list string.

Definition Set_has (s : JsSet) (x : string) : bool := bool_decide (x ∈ s).

Definition Set_add (s : JsSet) (x : string) : JsSet :=
  if Set_has s x then s else s ++ [x].

(** [new Set(iterable)] adds the elements one by one. *)
Definition Set_new (elements : list string) : JsSet :=
  foldl Set_add [] elements.

Definition Set_size (s : JsSet) : Z := Z.of_nat (length s).

(** [`${n}`] for an integer-valued number. *)
Definition string_of_number (n : Z) : string := pretty n.

(** [Math.floor(r * n)] for a sample [r] and a length [n]. *)
Definition floor_times (r : Q) (n : nat) : Z :=
  Qfloor (r * inject_Z (Z.of_nat n)).

(** [a % n] on non-negative integers; [NaN] (here [None]) when [n = 0]. *)
Definition rem (a : Z) (n : nat) : option Z :=
  if decide (n = 0%nat) then None else Some (a `rem` Z.of_nat n).

(** [arr[i]] for a number [i] that may be [NaN]. *)
Definition index {A} (arr : list A) (i : option Z) : option A :=
  match i with
  | Some z => if z <? 0 then None else arr !! Z.to_nat z
  | None => None
  end.

(** [a || b] for an operand [a] that is a string or [undefined]: [a]
    when it is truthy, that is defined and not empty, and [b] otherwise. *)
Definition or_string (a : option string) (b : string) : string :=
  match a with
  | Some s => if bool_decide (s = "") then b else s
  | None => b
  end.

(** [s.split(sep)] for a separator of one character: the pieces between
    the occurrences of the separator, one more than there are
    occurrences. *)
Fixpoint split (sep : Ascii.ascii) (s : string) : list string :=
  match s with
  | EmptyString => [EmptyString]
  | String c s' =>
      if decide (c = sep) then EmptyString :: split sep s'
      else match split sep s' with
           | piece :: pieces => String c piece :: pieces
           | [] => [String c EmptyString]
           end
  end.

(** Whether a character occurs in a string. *)
Fixpoint has_char (c : Ascii.ascii) (s : string) : bool :=
  match s with
  | EmptyString => false
  | String c' s' => bool_decide (c' = c) || has_char c s'
  end.

(** The property names that every object inherits from
    [Object.prototype].  For such a key [k], [obj[k]] is truthy on an
    object that never set it, and [obj["__proto__"] = v] sets no property
    of the object. *)
Definition Object_prototype_names : list string :=
  [ "constructor"; "__proto__"; "hasOwnProperty"; "isPrototypeOf";
    "propertyIsEnumerable"; "toLocaleString"; "toString"; "valueOf";
    "__defineGetter__"; "__defineSetter__"; "__lookupGetter__";
    "__lookupSetter__" ].

(** A key on which reading and writing a plain object are those of a
    map. *)
Definition own_key (k : string) : Prop := k ∉ Object_prototype_names.

Definition is_digit (c : Ascii.ascii) : bool :=
  let n := Ascii.nat_of_ascii c in (48 <=? n)%nat && (n <=? 57)%nat.

Fixpoint all_digits (s : string) : bool :=
  match s with
  | EmptyString => true
  | String c s' => is_digit c && all_digits s'
  end.

(** An array index is the decimal numeral of an integer below
    [2^32 - 1]: at most ten characters, all of them digits.
    [Object.values] lists the keys that are array indices first, in
    numeric order, and the other string keys after them in the order of
    their insertion. *)
Definition may_be_array_index (k : string) : bool :=
  (String.length k <=? 10)%nat && all_digits k.

(** A key on which a plain object is a map that [Object.values] lists
    in insertion order. *)
Definition map_key (k : string) : Prop :=
  own_key k ∧ may_be_array_index k = false.

Global Instance own_key_dec k : Decision (own_key k).
Proof. unfold own_key. apply _. Defined.

Global Instance map_key_dec k : Decision (map_key k).
Proof. unfold map_key. apply _. Defined.

End JS.

(** The ambient runtime.  [Date_now k] is the value of the [k]-th read of
    the wall clock ([Date.now()] or [new Date()]) and [Math_random k] the
    [k]-th sample of [Math.random()], a number in [[0, 1)].  Numbers are
    doubles: [binary64 q] is the double an arithmetic operation returns
    when its exact result is [q]. *)
Class Host := {
  Date_now : nat → Z;
  Math_random : nat → Q;
  Math_random_range : ∀ k, (0 <= Math_random k)%Q ∧ (Math_random k < 1)%Q;
  toLocaleTimeString : Z → string;
  binary64 : Q → Q;
}.

(** The arithmetic of numbers: each operation rounds its exact result. *)
Module Number.
Section WithHost.
Context `{Host}.

Definition add (a b : Q) : Q := binary64 (a + b)%Q.
Definition sub (a b : Q) : Q := binary64 (a - b)%Q.
Definition mul (a b : Q) : Q := binary64 (a * b)%Q.
Definition div (a b : Q) : Q := binary64 (a / b)%Q.

End WithHost.
End Number.

(** ** State and exceptions

    A computation reads and writes a state [S] and either returns or
    throws; the state written before a throw is kept, as in JavaScript. *)

Inductive completion (A : Type) : Type :=
  | Normal (a : A)
  | Throw (e : string).
Arguments Normal {A} a.
Arguments Throw {A} e.

Definition M (S A : Type) : Type := S → completion A * S.

Definition ret {S A} (a : A) : M S A := λ s, (Normal a, s).

Definition bind {S A B} (m : M S A) (f : A → M S B) : M S B :=
  λ s, match m s with
       | (Normal a, s') => f a s'
       | (Throw e, s') => (Throw e, s')
       end.

Definition throw {S A} (e : string) : M S A := λ s, (Throw e, s).

Definition try_catch {S A} (body : M S A) (handler : string → M S A) : M S A :=
  λ s, match body s with
       | (Normal a, s') => (Normal a, s')
       | (Throw e, s') => handler e s'
       end.

Definition gets {S A} (f : S → A) : M S A := λ s, (Normal (f s), s).

Definition modify {S} (f : S → S) : M S unit := λ s, (Normal tt, f s).

Global Instance M_ret {S} : MRet (M S) := λ A, ret.
Global Instance M_bind {S} : MBind (M S) := λ A B f m, bind m f.

(** [for (const x of xs) body], threading the local array that the body
    pushes to. *)
Fixpoint for_of {S A B} (xs : list A) (body : B → A → M S B) (acc : B) : M S B :=
  match xs with
  | [] => ret acc
  | x :: xs' => acc' ← body acc x; for_of xs' body acc'
  end.

(** A computation that returns normally from every state and relates the
    state before to the state after by [R]. *)
Definition returns {S A} (R : S → S → Prop) (m : M S A) : Prop :=
  ∀ s, ∃ a s', m s = (Normal a, s') ∧ R s s'.

(** A computation that, whatever its completion, relates the state
    before to the state after by [R]. *)
Definition preserves {S A} (R : S → S → Prop) (m : M S A) : Prop :=
  ∀ s, R s (m s).2.

(** The relation between two states of which the second satisfies an
    invariant if the first does. *)
Definition keeping {S} (I : S → Prop) (s s' : S) : Prop := I s → I s'.

(** ** Data model (the types both source files declare) *)

Record Geo := { lat : Q; lon : Q; country : option string }.

Record Node := { node_id : string; geo : option Geo }.

Inductive Status := open | closed.

Record Channel := {
  channel_id : string;
  source : string;
  target : string;
  status : Status;
}.

Record ChannelEvent := { event_id : string; ts : Z; event_status : Status }.

Global Instance Status_eq_dec : EqDecision Status.
Proof. solve_decision. Defined.

(** ** App.tsx *)

(** The configuration read from [import.meta.env], after [parseInt]; the
    defaults of the source are [default_env] below.  A setting that does
    not parse as an integer, for which [parseInt] gives [NaN], is outside
    the model. *)
Class ImportMetaEnv := {
  CHANNELS_GEO_API : string;
  MAX_CHANNEL_EVENTS : Z;
  ANIMATION_DURATION : Z;
}.

Definition default_env : ImportMetaEnv := {|
  CHANNELS_GEO_API := "https://mempool.space/api/v1/lightning/channels-geo";
  MAX_CHANNEL_EVENTS := 30;
  ANIMATION_DURATION := 60 * 1000;
|}.

Module App.
Import JS.

(** One row of the polled array:
    [[node1_pubkey, node1_alias, lon1, lat1,
      node2_pubkey, node2_alias, lon2, lat2]]. *)
Record Entry := {
  node1_pubkey : string; node1_alias : string; lon1 : Q; lat1 : Q;
  node2_pubkey : string; node2_alias : string; lon2 : Q; lat2 : Q;
}.

(** What [fetch] and [res.json()] deliver to one run of the poller: the
    request is rejected, or it resolves to a response with its [ok] flag
    and [status], whose body either fails to parse or is the array. *)
Inductive Response :=
  | Rejected (e : string)
  | Resolved (ok : bool) (status_code : Z) (json : string + list Entry).

(** The component state that [fetchChannelsGeo] reads and writes: the
    [useState] cells, the two [useRef] cells, the console, and the number
    of clock reads made so far. *)
Record State := {
  nodes : list Node;
  channels : list Channel;
  lastUpdate : option Z;
  logs : list string;
  channelEvents : list ChannelEvent;
  prevChannelsRef : JsSet;
  isFirstLoad : bool;
  console : list string;
  clock_reads : nat;
}.

Definition initial : State := {|
  nodes := []; channels := []; lastUpdate := None; logs := [];
  channelEvents := []; prevChannelsRef := Set_new []; isFirstLoad := true;
  console := []; clock_reads := 0;
|}.

Definition setNodes (v : list Node) : M State unit :=
  modify (λ s, {| nodes := v; channels := channels s; lastUpdate := lastUpdate s;
                  logs := logs s; channelEvents := channelEvents s;
                  prevChannelsRef := prevChannelsRef s; isFirstLoad := isFirstLoad s;
                  console := console s; clock_reads := clock_reads s |}).

Definition setChannels (v : list Channel) : M State unit :=
  modify (λ s, {| nodes := nodes s; channels := v; lastUpdate := lastUpdate s;
                  logs := logs s; channelEvents := channelEvents s;
                  prevChannelsRef := prevChannelsRef s; isFirstLoad := isFirstLoad s;
                  console := console s; clock_reads := clock_reads s |}).

Definition setLastUpdate (v : Z) : M State unit :=
  modify (λ s, {| nodes := nodes s; channels := channels s; lastUpdate := Some v;
                  logs := logs s; channelEvents := channelEvents s;
                  prevChannelsRef := prevChannelsRef s; isFirstLoad := isFirstLoad s;
                  console := console s; clock_reads := clock_reads s |}).

(** [setLogs(updater)] and [setChannelEvents(updater)]: the updater is
    applied to the current value of the cell. *)
Definition setLogs (f : list string → list string) : M State unit :=
  modify (λ s, {| nodes := nodes s; channels := channels s; lastUpdate := lastUpdate s;
                  logs := f (logs s); channelEvents := channelEvents s;
                  prevChannelsRef := prevChannelsRef s; isFirstLoad := isFirstLoad s;
                  console := console s; clock_reads := clock_reads s |}).

Definition setChannelEvents (f : list ChannelEvent → list ChannelEvent) : M State unit :=
  modify (λ s, {| nodes := nodes s; channels := channels s; lastUpdate := lastUpdate s;
                  logs := logs s; channelEvents := f (channelEvents s);
                  prevChannelsRef := prevChannelsRef s; isFirstLoad := isFirstLoad s;
                  console := console s; clock_reads := clock_reads s |}).

Definition set_prevChannelsRef (v : JsSet) : M State unit :=
  modify (λ s, {| nodes := nodes s; channels := channels s; lastUpdate := lastUpdate s;
                  logs := logs s; channelEvents := channelEvents s;
                  prevChannelsRef := v; isFirstLoad := isFirstLoad s;
                  console := console s; clock_reads := clock_reads s |}).

Definition set_isFirstLoad (v : bool) : M State unit :=
  modify (λ s, {| nodes := nodes s; channels := channels s; lastUpdate := lastUpdate s;
                  logs := logs s; channelEvents := channelEvents s;
                  prevChannelsRef := prevChannelsRef s; isFirstLoad := v;
                  console := console s; clock_reads := clock_reads s |}).

Definition console_log (msg : string) : M State unit :=
  modify (λ s, {| nodes := nodes s; channels := channels s; lastUpdate := lastUpdate s;
                  logs := logs s; channelEvents := channelEvents s;
                  prevChannelsRef := prevChannelsRef s; isFirstLoad := isFirstLoad s;
                  console := console s ++ [msg]; clock_reads := clock_reads s |}).

Section WithHost.
Context `{Host} `{ImportMetaEnv}.

(** [Date.now()], and the time value of [new Date()]. *)
Definition now : M State Z :=
  λ s, (Normal (Date_now (clock_reads s)),
        {| nodes := nodes s; channels := channels s; lastUpdate := lastUpdate s;
           logs := logs s; channelEvents := channelEvents s;
           prevChannelsRef := prevChannelsRef s; isFirstLoad := isFirstLoad s;
           console := console s; clock_reads := S (clock_reads s) |}).

(** [log]: the newest line first, at most 200 lines kept. *)
Definition log (msg : string) : M State unit :=
  t ← now;
  setLogs (λ prev,
    ("[" +:+ toLocaleTimeString t +:+ "] " +:+ msg) :: slice 0 (Some 199) prev);;
  console_log msg.

(** [nodeMap[k]] is set only when it is not set yet; the map is kept
    in the order of insertion, which is the order of [Object.values]
    for keys that are node public keys (hexadecimal strings that are
    neither array indices nor names found on [Object.prototype]). *)
Definition nodeMap_add (nodeMap : list (string * Node)) (k : string) (n : Node)
  : list (string * Node) :=
  if bool_decide (k ∈ nodeMap.*1) then nodeMap else nodeMap ++ [(k, n)].

Definition Object_values (nodeMap : list (string * Node)) : list Node :=
  nodeMap.*2.

(** One iteration of the loop over the polled rows. *)
Definition add_entry (acc : list (string * Node) * list Channel) (entry : Entry)
  : list (string * Node) * list Channel :=
  let '(nodeMap, channelArr) := acc in
  let nodeMap :=
    nodeMap_add nodeMap (node1_pubkey entry)
      {| node_id := node1_pubkey entry;
         geo := Some {| lat := lat1 entry; lon := lon1 entry; country := None |} |} in
  let nodeMap :=
    nodeMap_add nodeMap (node2_pubkey entry)
      {| node_id := node2_pubkey entry;
         geo := Some {| lat := lat2 entry; lon := lon2 entry; country := None |} |} in
  let channelId := node1_pubkey entry +:+ "-" +:+ node2_pubkey entry in
  (nodeMap,
   channelArr ++ [ {| channel_id := channelId; source := node1_pubkey entry;
                      target := node2_pubkey entry; status := open |} ]).

Definition read_entries (data : list Entry) : list (string * Node) * list Channel :=
  foldl add_entry ([], []) data.

Definition nodeArr_of (data : list Entry) : list Node :=
  Object_values (read_entries data).1.

Definition channelArr_of (data : list Entry) : list Channel :=
  (read_entries data).2.

Definition currentChannelIds_of (data : list Entry) : JsSet :=
  Set_new (channel_id <$> channelArr_of data).

(** The first detection loop: every current id the previous set lacks
    is logged and pushed as an [open] event. *)
Definition detect_opened (prevChannels currentChannelIds : JsSet)
    (newEvents : list ChannelEvent) : M State (list ChannelEvent) :=
  for_of currentChannelIds (λ newEvents id,
    if negb (Set_has prevChannels id) then
      log ("[EVENT] Channel opened: " +:+ id);;
      t ← now;
      mret (newEvents ++ [ {| event_id := id; ts := t; event_status := open |} ])
    else mret newEvents) newEvents.

(** The second detection loop: every previous id the current set lacks
    is logged and pushed as a [closed] event. *)
Definition detect_closed (prevChannels currentChannelIds : JsSet)
    (newEvents : list ChannelEvent) : M State (list ChannelEvent) :=
  for_of prevChannels (λ newEvents id,
    if negb (Set_has currentChannelIds id) then
      log ("[EVENT] Channel closed: " +:+ id);;
      t ← now;
      mret (newEvents ++ [ {| event_id := id; ts := t; event_status := closed |} ])
    else mret newEvents) newEvents.

(** The two loops in sequence, starting from the empty array: the
    events of one pass as detected, before the burst limit. *)
Definition detect (prevChannels currentChannelIds : JsSet)
  : M State (list ChannelEvent) :=
  newEvents ← detect_opened prevChannels currentChannelIds [];
  detect_closed prevChannels currentChannelIds newEvents.

Definition warning (detected : nat) : string :=
  "[WARNING] Too many channel events detected ("
    +:+ string_of_number (Z.of_nat detected)
    +:+ "), limiting to " +:+ string_of_number MAX_CHANNEL_EVENTS.

(** "Limit new events to prevent spam". *)
Definition limit (newEvents : list ChannelEvent) : M State (list ChannelEvent) :=
  if MAX_CHANNEL_EVENTS <? Z.of_nat (length newEvents) then
    log (warning (length newEvents));;
    mret (slice_last MAX_CHANNEL_EVENTS newEvents)
  else mret newEvents.

(** The guarded block "only detect events if we have a proper previous
    state". *)
Definition diff (prevChannels currentChannelIds : JsSet)
  : M State (list ChannelEvent) :=
  if 0 <? Set_size prevChannels then
    newEvents ← detect prevChannels currentChannelIds;
    limit newEvents
  else mret [].

(** The updater passed to [setChannelEvents] at the end of a pass, for
    a clock value [now_] read once. *)
Definition merge (now_ : Z) (newEvents prev : list ChannelEvent) : list ChannelEvent :=
  let filteredPrev := filter (λ e, now_ - ts e < 5000) prev in
  let allEvents := filteredPrev ++ newEvents in
  slice_last MAX_CHANNEL_EVENTS allEvents.

Definition admission (newEvents : list ChannelEvent) : M State unit :=
  now_ ← now;
  setChannelEvents (merge now_ newEvents).

(** The body of the [try] block once the array has been parsed. *)
Definition accept (data : list Entry) : M State unit :=
  log ("[API] Received " +:+ string_of_number (Z.of_nat (length data))
         +:+ " channel geodata entries.");;
  let nodeArr := nodeArr_of data in
  let channelArr := channelArr_of data in
  prevChannels ← gets prevChannelsRef;
  let currentChannelIds := currentChannelIds_of data in
  first ← gets isFirstLoad;
  if first || (Set_size prevChannels =? 0) then
    set_isFirstLoad false;;
    set_prevChannelsRef currentChannelIds;;
    setNodes nodeArr;;
    setChannels channelArr;;
    t ← now;
    setLastUpdate t;;
    setChannelEvents (λ _, []);;
    log ("[STATE] Initial load: "
           +:+ string_of_number (Z.of_nat (length nodeArr)) +:+ " nodes and "
           +:+ string_of_number (Z.of_nat (length channelArr))
           +:+ " channels. No channel event detection.")
  else
    newEvents ← diff prevChannels currentChannelIds;
    set_prevChannelsRef currentChannelIds;;
    setNodes nodeArr;;
    setChannels channelArr;;
    t ← now;
    setLastUpdate t;;
    admission newEvents;;
    log ("[STATE] Updated graph with "
           +:+ string_of_number (Z.of_nat (length nodeArr)) +:+ " nodes and "
           +:+ string_of_number (Z.of_nat (length channelArr)) +:+ " channels.").

(** [fetchChannelsGeo], for what the network delivers to this run. *)
Definition fetchChannelsGeo (response : Response) : M State unit :=
  try_catch
    (log ("[API] Fetching Lightning Network channels with geodata from: "
            +:+ CHANNELS_GEO_API);;
     match response with
     | Rejected e => throw e
     | Resolved ok status_code json =>
         if negb ok then
           log ("[API] Failed to fetch Lightning Network channels-geo: "
                  +:+ string_of_number status_code)
         else
           match json with
           | inl e => throw e
           | inr data => accept data
           end
     end)
    (λ e, log ("[API] Error fetching Lightning Network channels-geo: " +:+ e)).

(** The state after a run, whatever its completion. *)
Definition poll (response : Response) (s : State) : State :=
  (fetchChannelsGeo response s).2.

(** *** The element tree *)

(** An element of the array passed as the [channels] prop: a channel of
    the snapshot, or the object built from a pending event, whose
    [source] and [target] are the first two pieces of the event's id
    ([undefined] where the id has no such piece). *)
Record Shown := {
  shown_id : string;
  shown_source : option string;
  shown_target : option string;
  shown_status : Status;
}.

Definition shown_of_channel (c : Channel) : Shown :=
  {| shown_id := channel_id c; shown_source := Some (source c);
     shown_target := Some (target c); shown_status := status c |}.

(** [const [source, target] = e.id.split("-")]. *)
Definition shown_of_event (e : ChannelEvent) : Shown :=
  let pieces := split "-"%char (event_id e) in
  {| shown_id := event_id e; shown_source := pieces !! 0%nat;
     shown_target := pieces !! 1%nat; shown_status := closed |}.

(** The [channels] prop: every channel when "show all channels" is on;
    otherwise the channels with a pending event, followed by one closed
    channel for every pending [closed] event whose id is not among the
    channels. *)
Definition shownChannels (showAll : bool) (channels_ : list Channel)
    (channelEvents_ : list ChannelEvent) : list Shown :=
  if showAll then shown_of_channel <$> channels_
  else
    (shown_of_channel <$>
       filter (λ c, Exists (λ e, event_id e = channel_id c) channelEvents_) channels_)
    ++ (shown_of_event <$>
          filter (λ e, event_status e = closed
                       ∧ ¬ Exists (λ c, channel_id c = event_id e) channels_)
                 channelEvents_).

(** [DEBUG_LIGHTNING], computed from the setting [DEBUG_LIGHTNING_ANIM]
    of [import.meta.env]. *)
Definition DEBUG_LIGHTNING (DEBUG_LIGHTNING_ANIM : option string) : bool :=
  bool_decide (or_string DEBUG_LIGHTNING_ANIM "false" = "true").

(** The [useState] cells the buttons and the debug interval write. *)
Record Ui := {
  showLogs : bool;
  showAllChannels : bool;
  debugLightningTrigger : Z;
  debugRandomOn : bool;
}.

Definition ui_initial : Ui :=
  {| showLogs := false; showAllChannels := false;
     debugLightningTrigger := 0; debugRandomOn := false |}.

(** A click on one of the four buttons, or the interval of the "debug
    random lightning poller" firing. *)
Inductive UiEvent :=
  | ClickLogs
  | ClickAllChannels
  | ClickDebugRandom
  | ClickTrigger
  | DebugTick.

(** The interval exists while the effect that installs it has both
    [DEBUG_LIGHTNING] and [debugRandomOn] true. *)
Definition debug_interval (debug : bool) (u : Ui) : bool :=
  debug && debugRandomOn u.

(** The state after an event, [None] for an event that cannot occur:
    the two debug buttons are rendered only under [DEBUG_LIGHTNING], and
    the interval fires only while it exists. *)
Definition ui_step (debug : bool) (u : Ui) (ev : UiEvent) : option Ui :=
  match ev with
  | ClickLogs =>
      Some {| showLogs := negb (showLogs u); showAllChannels := showAllChannels u;
              debugLightningTrigger := debugLightningTrigger u;
              debugRandomOn := debugRandomOn u |}
  | ClickAllChannels =>
      Some {| showLogs := showLogs u; showAllChannels := negb (showAllChannels u);
              debugLightningTrigger := debugLightningTrigger u;
              debugRandomOn := debugRandomOn u |}
  | ClickDebugRandom =>
      if debug then
        Some {| showLogs := showLogs u; showAllChannels := showAllChannels u;
                debugLightningTrigger := debugLightningTrigger u;
                debugRandomOn := negb (debugRandomOn u) |}
      else None
  | ClickTrigger =>
      if debug then
        Some {| showLogs := showLogs u; showAllChannels := showAllChannels u;
                debugLightningTrigger := debugLightningTrigger u + 1;
                debugRandomOn := debugRandomOn u |}
      else None
  | DebugTick =>
      if debug_interval debug u then
        Some {| showLogs := showLogs u; showAllChannels := showAllChannels u;
                debugLightningTrigger := debugLightningTrigger u + 1;
                debugRandomOn := debugRandomOn u |}
      else None
  end.

Fixpoint ui_run (debug : bool) (evs : list UiEvent) (u : Ui) : option Ui :=
  match evs with
  | [] => Some u
  | ev :: evs' =>
      match ui_step debug u ev with
      | Some u' => ui_run debug evs' u'
      | None => None
      end
  end.

(** *** Vocabulary of the properties of the poller *)

Implicit Types (s : State) (data : list Entry).

(** A response that delivers a snapshot. *)
Definition accepted (response : Response) : Prop :=
  match response with
  | Resolved true _ (inr _) => True
  | _ => False
  end.

(** The state after a sequence of runs of the poller. *)
Definition polls (responses : list Response) (s : State) : State :=
  foldl (λ s response, poll response s) s responses.

(** The lines a run that takes the baseline branch writes to the console. *)
Definition baseline_lines data : list string :=
  [ "[API] Fetching Lightning Network channels with geodata from: " +:+ CHANNELS_GEO_API;
    "[API] Received " +:+ string_of_number (Z.of_nat (length data))
      +:+ " channel geodata entries.";
    "[STATE] Initial load: "
      +:+ string_of_number (Z.of_nat (length (nodeArr_of data))) +:+ " nodes and "
      +:+ string_of_number (Z.of_nat (length (channelArr_of data)))
      +:+ " channels. No channel event detection." ].

(** What the baseline branch leaves behind. *)
Definition baseline_of data s s' : Prop :=
  channelEvents s' = []
  ∧ prevChannelsRef s' = currentChannelIds_of data
  ∧ nodes s' = nodeArr_of data
  ∧ channels s' = channelArr_of data
  ∧ isFirstLoad s' = false
  ∧ console s' = console s ++ baseline_lines data.

(** What a run of the poller leaves alone while it only logs and reads
    the clock. *)
Definition frame s s' : Prop :=
  nodes s' = nodes s ∧ channels s' = channels s ∧ lastUpdate s' = lastUpdate s
  ∧ channelEvents s' = channelEvents s ∧ prevChannelsRef s' = prevChannelsRef s
  ∧ isFirstLoad s' = isFirstLoad s.

(** The identity and the status of an event, without its time stamp. *)
Definition key (e : ChannelEvent) : string * Status := (event_id e, event_status e).

(** The body the two loops share: an id the other set lacks is logged and
    pushed with the status of the loop. *)
Definition push_absent (st : Status) (msg : string → string) (other : JsSet)
    (newEvents : list ChannelEvent) (id : string) : M State (list ChannelEvent) :=
  if negb (Set_has other id) then
    log (msg id);;
    t ← now;
    mret (newEvents ++ [ {| event_id := id; ts := t; event_status := st |} ])
  else mret newEvents.

(** The keys of the [open] events and of the [closed] events of one
    pass, each in the order of detection. *)
Definition opened_keys (prevChannels currentChannelIds : JsSet)
  : list (string * Status) :=
  (λ id, (id, open)) <$> filter (λ id, id ∉ prevChannels) currentChannelIds.

Definition closed_keys (prevChannels currentChannelIds : JsSet)
  : list (string * Status) :=
  (λ id, (id, closed)) <$> filter (λ id, id ∉ currentChannelIds) prevChannels.

Definition received_line data : string :=
  "[API] Received " +:+ string_of_number (Z.of_nat (length data))
    +:+ " channel geodata entries.".

Definition warning_line s (detected : nat) : string :=
  "[" +:+ toLocaleTimeString (Date_now (clock_reads s)) +:+ "] " +:+ warning detected.

(** The number of events with a given id and status. *)
Definition occurrences (id : string) (st : Status) (evs : list ChannelEvent) : nat :=
  length (filter (λ e, key e = (id, st)) evs).

(** The line [log] stores for a message, for the time it reads. *)
Definition stamp (t : Z) (msg : string) : string :=
  "[" +:+ toLocaleTimeString t +:+ "] " +:+ msg.

(** The log mirrors the console: it holds the last 200 messages written
    to the console, the newest first, each behind a time stamp. *)
Definition mirrored s : Prop :=
  ∃ times, length times = length (console s)
           ∧ logs s = take 200 (reverse (zip_with stamp times (console s))).

Definition fetching_line : string :=
  "[API] Fetching Lightning Network channels with geodata from: " +:+ CHANNELS_GEO_API.

(** The channel and the two nodes that one polled row describes. *)
Definition row_channel (entry : Entry) : Channel :=
  {| channel_id := node1_pubkey entry +:+ "-" +:+ node2_pubkey entry;
     source := node1_pubkey entry; target := node2_pubkey entry; status := open |}.

Definition row_nodes (entry : Entry) : list Node :=
  [ {| node_id := node1_pubkey entry;
       geo := Some {| lat := lat1 entry; lon := lon1 entry; country := None |} |};
    {| node_id := node2_pubkey entry;
       geo := Some {| lat := lat2 entry; lon := lon2 entry; country := None |} |} ].

(** The nodes the rows mention, in the order in which the loop meets
    them, and their ids. *)
Definition endpoint_nodes data : list Node := data ≫= row_nodes.

Definition endpoints data : list string := node_id <$> endpoint_nodes data.

(** The line written to the console for a detected event, and the last
    line of a pass that takes the diff branch. *)
Definition event_line (e : ChannelEvent) : string :=
  match event_status e with
  | open => "[EVENT] Channel opened: " +:+ event_id e
  | closed => "[EVENT] Channel closed: " +:+ event_id e
  end.

Definition updated_line data : string :=
  "[STATE] Updated graph with "
    +:+ string_of_number (Z.of_nat (length (nodeArr_of data))) +:+ " nodes and "
    +:+ string_of_number (Z.of_nat (length (channelArr_of data))) +:+ " channels.".

(** The channel ids of the snapshot a response delivers satisfy [Q]. *)
Definition snapshot_ids (Q : string → Prop) (response : Response) : Prop :=
  match response with
  | Resolved true _ (inr data) => Forall Q (currentChannelIds_of data)
  | _ => True
  end.

(** The public keys of the snapshot a response delivers satisfy [Q]. *)
Definition snapshot_endpoints (Q : string → Prop) (response : Response) : Prop :=
  match response with
  | Resolved true _ (inr data) => Forall Q (endpoints data)
  | _ => True
  end.

(** The number of events of a session that increment the debug
    trigger. *)
Definition increments (evs : list UiEvent) : Z :=
  Z.of_nat (length (List.filter (λ ev, match ev with
                                       | ClickTrigger | DebugTick => true
                                       | _ => false
                                       end) evs)).

(** A node that is the first of a list to bear its id. *)
Definition first_with_id (l : list Node) (n : Node) : Prop :=
  ∃ i, l !! i = Some n
       ∧ ∀ j n', (j < i)%nat → l !! j = Some n' → node_id n' ≠ node_id n.

End WithHost.
End App.

(** ** LightningGraph.tsx *)

(** A feature of the world atlas, as far as the source inspects it. *)
Record Properties := { name : option string; NAME : option string }.

Record Feature := {
  feature_id : option string;
  properties : option Properties;
  geometry : list (list (Q * Q));
}.

(** The functions of the d3 library the redraw calls.  They are pure; the
    development is parametric in them.  [geoMercator_fitSize width height
    features] is [d3.geoMercator().fitSize([width, height], {type:
    "FeatureCollection", features})], a function from [[lon, lat]] to a
    point or [null]; [scaleSequential_interpolateCool n i] is
    [d3.scaleSequential(d3.interpolateCool).domain([0, n])(i)]. *)
Class D3 := {
  geoMercator_fitSize : Q → Q → list Feature → Q * Q → option (Q * Q);
  geoPath : (Q * Q → option (Q * Q)) → Feature → string;
  scaleSequential_interpolateCool : nat → nat → string;
  interpolateRainbow : Q → string;
}.

Module LightningGraph.
Import JS.

Record Props := {
  nodes : list Node;
  channels : list Channel;
  channelEventId : option string;
  triggerDebugLightning : option Z;
  channelEvents : option (list ChannelEvent);
  maxChannelEvents : option Z;
  animationDuration : option Z;
}.

(** The defaults of the destructured parameters. *)
Definition channelEvents_or_default (p : Props) : list ChannelEvent :=
  default [] (channelEvents p).
Definition maxChannelEvents_or_default (p : Props) : Z :=
  default 30 (maxChannelEvents p).
Definition animationDuration_or_default (p : Props) : Z :=
  default 60000 (animationDuration p).

(** A node with the coordinates the redraw gives it. *)
Record Positioned := { node : Node; node_x : Q; node_y : Q }.

(** The primitives appended to the group [g#zoom-group]. *)
Record Line := {
  x1 : option Q; y1 : option Q; x2 : option Q; y2 : option Q;
  line_stroke : string;
}.

Record Circle := { cx : Q; cy : Q; fill : string; title : string }.

Record Polyline := {
  points : list (Q * Q);
  stroke : string;
  duration : Z;
}.

Record Group := {
  paths : list string;
  lines : list Line;
  circles : list Circle;
  polylines : list Polyline;
}.

(** The component: its [useState] and [useRef] cells, the group the last
    redraw built (if any), the time stamps at which a playback was
    started, and the numbers of clock reads and of random samples
    consumed so far. *)
Record State := {
  world : option (list Feature);
  dimensions : Q * Q;
  lastSoundTimeRef : Z;
  svgRef : bool;
  zoom_group : option Group;
  played : list Z;
  clock_reads : nat;
  random_reads : nat;
}.

Definition mount (width height : Q) : State := {|
  world := None; dimensions := (width, height); lastSoundTimeRef := 0;
  svgRef := true; zoom_group := None; played := [];
  clock_reads := 0; random_reads := 0;
|}.

Definition setWorld (v : list Feature) : M State unit :=
  modify (λ s, {| world := Some v; dimensions := dimensions s;
                  lastSoundTimeRef := lastSoundTimeRef s; svgRef := svgRef s;
                  zoom_group := zoom_group s; played := played s;
                  clock_reads := clock_reads s; random_reads := random_reads s |}).

Definition setDimensions (v : Q * Q) : M State unit :=
  modify (λ s, {| world := world s; dimensions := v;
                  lastSoundTimeRef := lastSoundTimeRef s; svgRef := svgRef s;
                  zoom_group := zoom_group s; played := played s;
                  clock_reads := clock_reads s; random_reads := random_reads s |}).

Definition set_lastSoundTimeRef (v : Z) : M State unit :=
  modify (λ s, {| world := world s; dimensions := dimensions s;
                  lastSoundTimeRef := v; svgRef := svgRef s;
                  zoom_group := zoom_group s; played := played s;
                  clock_reads := clock_reads s; random_reads := random_reads s |}).

Definition set_zoom_group (v : Group) : M State unit :=
  modify (λ s, {| world := world s; dimensions := dimensions s;
                  lastSoundTimeRef := lastSoundTimeRef s; svgRef := svgRef s;
                  zoom_group := Some v; played := played s;
                  clock_reads := clock_reads s; random_reads := random_reads s |}).

(** [audio.play()]: the playback is started; a rejection of the returned
    promise is ignored by the empty [catch]. *)
Definition audio_play (t : Z) : M State unit :=
  modify (λ s, {| world := world s; dimensions := dimensions s;
                  lastSoundTimeRef := lastSoundTimeRef s; svgRef := svgRef s;
                  zoom_group := zoom_group s; played := played s ++ [t];
                  clock_reads := clock_reads s; random_reads := random_reads s |}).

(** The filter of the world features, written twice in the source (when
    the atlas is loaded and again before the projection is fitted). *)
Definition is_Antarctica (f : Feature) : bool :=
  match properties f with
  | Some p =>
      bool_decide (name p = Some "Antarctica")
      || bool_decide (NAME p = Some "Antarctica")
      || bool_decide (feature_id f = Some "010")
  | None => false
  end.

Definition without_Antarctica (features : list Feature) : list Feature :=
  List.filter (λ f, negb (is_Antarctica f)) features.

(** A string is truthy when it is not empty. *)
Definition truthy (s : string) : bool := negb (bool_decide (s = "")).

Section WithHost.
Context `{Host} `{D3}.

Definition now : M State Z :=
  λ s, (Normal (Date_now (clock_reads s)),
        {| world := world s; dimensions := dimensions s;
           lastSoundTimeRef := lastSoundTimeRef s; svgRef := svgRef s;
           zoom_group := zoom_group s; played := played s;
           clock_reads := S (clock_reads s); random_reads := random_reads s |}).

(** [Math.random()]. *)
Definition random : M State Q :=
  λ s, (Normal (Math_random (random_reads s)),
        {| world := world s; dimensions := dimensions s;
           lastSoundTimeRef := lastSoundTimeRef s; svgRef := svgRef s;
           zoom_group := zoom_group s; played := played s;
           clock_reads := clock_reads s; random_reads := S (random_reads s) |}).

(** The callback of the effect that loads the atlas. *)
Definition onWorldLoaded (countries : list Feature) : M State unit :=
  setWorld (without_Antarctica countries).

(** "Project node positions". *)
Definition position (projection : Q * Q → option (Q * Q)) (width height : Q)
    (n : Node) : Positioned :=
  let x := (width / 2)%Q in
  let y := (height / 2)%Q in
  match geo n with
  | Some g =>
      let '(px, py) := default (x, y) (projection (lon g, lat g)) in
      {| node := n; node_x := px; node_y := py |}
  | None => {| node := n; node_x := x; node_y := y |}
  end.

(** "Map id to position for links": a later node with the same id
    overwrites an earlier one. *)
Definition nodeMap_of (nodePositions : list Positioned) : gmap string (Q * Q) :=
  foldl (λ nodeMap n, <[node_id (node n) := (node_x n, node_y n)]> nodeMap)
        ∅ nodePositions.

Definition link (nodeMap : gmap string (Q * Q)) (count : nat) (i : nat) (d : Channel)
  : Line :=
  {| x1 := fst <$> nodeMap !! source d; y1 := snd <$> nodeMap !! source d;
     x2 := fst <$> nodeMap !! target d; y2 := snd <$> nodeMap !! target d;
     line_stroke := scaleSequential_interpolateCool count i |}.

Definition charCodeAt0 (s : string) : Z :=
  match s with
  | String c _ => Z.of_nat (Ascii.nat_of_ascii c)
  | EmptyString => 0
  end.

Definition marker (d : Positioned) : Circle :=
  let country_ := geo (node d) ≫= country in
  match country_ with
  | Some c =>
      if truthy c then
        {| cx := node_x d; cy := node_y d;
           fill := interpolateRainbow (inject_Z (charCodeAt0 c `rem` 24) / 24)%Q;
           title := node_id (node d) +:+ " (" +:+ c +:+ ")" |}
      else {| cx := node_x d; cy := node_y d; fill := "#888";
              title := node_id (node d) |}
  | None => {| cx := node_x d; cy := node_y d; fill := "#888";
               title := node_id (node d) |}
  end.

(** "Play sound helper with cooldown". *)
Definition playLightningSound : M State unit :=
  now_ ← now;
  last ← gets lastSoundTimeRef;
  if 1000 <? now_ - last then
    audio_play now_;;
    set_lastSoundTimeRef now_
  else mret tt.

(** The jagged polyline between two points: six jittered interior
    points between the two ends.  The two ends are pushed as they are;
    the coordinates of the interior points are computed in the
    arithmetic of doubles, in the order in which the source evaluates
    the two expressions. *)
Definition lightningPoints (s t : Q * Q) : M State (list (Q * Q)) :=
  let '(sx, sy) := s in
  let '(tx, ty) := t in
  let numSegments := 7 in
  points ← for_of (seqZ 1 (numSegments - 1)) (λ points i,
    let t := Number.div (inject_Z i) (inject_Z numSegments) in
    rx ← random;
    let x := Number.add (Number.add sx (Number.mul (Number.sub tx sx) t))
                        (Number.mul (Number.sub rx (1 # 2)) 18) in
    ry ← random;
    let y := Number.add (Number.add sy (Number.mul (Number.sub ty sy) t))
                        (Number.mul (Number.sub ry (1 # 2)) 18) in
    mret (points ++ [(x, y)])) [(sx, sy)];
  mret (points ++ [(tx, ty)]).

Definition stroke_of (st : Status) : string :=
  match st with closed => "#ff4d4d" | open => "#ffe066" end.

(** "Channel animation for channelEventId". *)
Definition animateChannelEventId (p : Props) (nodeMap : gmap string (Q * Q))
  : M State (list Polyline) :=
  match channelEventId p with
  | Some cid =>
      if truthy cid then
        match List.find (λ c, bool_decide (channel_id c = cid)) (channels p) with
        | Some event =>
            match nodeMap !! source event, nodeMap !! target event with
            | Some source_, Some target_ =>
                playLightningSound;;
                pts ← lightningPoints source_ target_;
                mret [ {| points := pts; stroke := stroke_of (status event);
                          duration := animationDuration_or_default p |} ]
            | _, _ => mret []
            end
        | None => mret []
        end
      else mret []
  | None => mret []
  end.

(** The two indices of the debug animation: two samples, the second
    advanced cyclically when it collides with the first. *)
Definition debugIndices (length_ : nat) : M State (Z * option Z) :=
  r1 ← random;
  let idx1 := floor_times r1 length_ in
  r2 ← random;
  let idx2 := floor_times r2 length_ in
  if bool_decide (idx1 = idx2)
  then mret (idx1, rem (idx2 + 1) length_)
  else mret (idx1, Some idx2).

(** "Debug mode: draw a yellow lightning between two random nodes". *)
Definition debugLightning (p : Props) (nodePositions : list Positioned)
  : M State (list Polyline) :=
  match triggerDebugLightning p with
  | Some trigger =>
      if 0 <? trigger then
        '(idx1, idx2) ← debugIndices (length nodePositions);
        match index nodePositions (Some idx1), index nodePositions idx2 with
        | Some source_, Some target_ =>
            playLightningSound;;
            pts ← lightningPoints (node_x source_, node_y source_)
                                  (node_x target_, node_y target_);
            mret [ {| points := pts; stroke := "#ffe066";
                      duration := animationDuration_or_default p |} ]
        | _, _ => mret []
        end
      else mret []
  | None => mret []
  end.

(** "Channel animation for all channelEvents": one sound for the
    batch, one polyline for every event whose channel and end points
    resolve. *)
Definition animateChannelEvents (p : Props) (nodeMap : gmap string (Q * Q))
  : M State (list Polyline) :=
  let MAX_CHANNEL_EVENTS := maxChannelEvents_or_default p in
  let ANIMATION_DURATION := animationDuration_or_default p in
  if 0 <? Z.of_nat (length (channelEvents_or_default p)) then
    let limitedEvents := slice_last MAX_CHANNEL_EVENTS (channelEvents_or_default p) in
    (if 0 <? Z.of_nat (length limitedEvents) then playLightningSound else mret tt);;
    for_of limitedEvents (λ drawn event,
      match List.find (λ c, bool_decide (channel_id c = event_id event)) (channels p) with
      | Some channel =>
          match nodeMap !! source channel, nodeMap !! target channel with
          | Some source_, Some target_ =>
              pts ← lightningPoints source_ target_;
              mret (drawn ++ [ {| points := pts;
                                  stroke := stroke_of (event_status event);
                                  duration := ANIMATION_DURATION |} ])
          | _, _ => mret drawn
          end
      | None => mret drawn
      end) []
  else mret [].

(** The node positions of a redraw: the projection is fitted to the
    canvas and to the features without Antarctica. *)
Definition nodePositions_of (s : State) (p : Props) : list Positioned :=
  let '(width, height) := dimensions s in
  let mapFeatures := without_Antarctica <$> world s in
  let projection := geoMercator_fitSize width height (default [] mapFeatures) in
  position projection width height <$> nodes p.

(** The redraw effect. *)
Definition redraw (p : Props) : M State unit :=
  attached ← gets svgRef;
  if negb attached then mret tt else
  '(width, height) ← gets dimensions;
  world_ ← gets world;
  let mapFeatures := without_Antarctica <$> world_ in
  let projection := geoMercator_fitSize width height (default [] mapFeatures) in
  let paths_ := geoPath projection <$> default [] mapFeatures in
  let nodePositions := position projection width height <$> nodes p in
  let nodeMap := nodeMap_of nodePositions in
  let lines_ := imap (link nodeMap (length (channels p))) (channels p) in
  let circles_ := marker <$> nodePositions in
  byId ← animateChannelEventId p nodeMap;
  debug ← debugLightning p nodePositions;
  batch ← animateChannelEvents p nodeMap;
  set_zoom_group {| paths := paths_; lines := lines_; circles := circles_;
                    polylines := byId ++ debug ++ batch |}.

(** The redraw effect under its dependency array: after a render the
    effect runs when one of its dependencies differs from its value at
    the previous render, and always after the first render.  The debug
    trigger is a number, compared by value with [previous], the trigger
    of the previous render ([None] at the first render); [others] tells
    whether another dependency (an array, a string or a state value)
    differs. *)
Definition render (previous : option (option Z)) (others : bool) (p : Props)
  : M State unit :=
  if bool_decide (previous ≠ Some (triggerDebugLightning p)) || others
  then redraw p
  else mret tt.

(** What happens to the mounted component: the props or the state
    change and the effect redraws, the atlas arrives, or the window is
    resized. *)
Inductive Action :=
  | Redraw (p : Props)
  | WorldLoaded (countries : list Feature)
  | Resized (width height : Q).

Definition step (s : State) (a : Action) : State :=
  match a with
  | Redraw p => (redraw p s).2
  | WorldLoaded countries => (onWorldLoaded countries s).2
  | Resized width height => (setDimensions (width, height) s).2
  end.

Definition run (actions : list Action) (s : State) : State :=
  foldl step s actions.

(** *** Vocabulary of the properties of the redraw *)

Implicit Types (s : State) (p : Props).

(** What the animations leave alone: the atlas, the canvas, the
    reference to the [svg] and the group of the previous redraw. *)
Definition surface s s' : Prop :=
  world s' = world s ∧ dimensions s' = dimensions s ∧ svgRef s' = svgRef s
  ∧ zoom_group s' = zoom_group s.

(** A step that only draws random samples. *)
Definition sampling s s' : Prop :=
  surface s s' ∧ lastSoundTimeRef s' = lastSoundTimeRef s ∧ played s' = played s
  ∧ clock_reads s' = clock_reads s.

(** The time stamps of the cues played, oldest first, are spaced when
    each is more than 1000 ms after all the earlier ones. *)
Fixpoint spaced (l : list Z) : Prop :=
  match l with
  | [] => True
  | t :: l' => Forall (λ t', 1000 < t' - t) l' ∧ spaced l'
  end.

(** The invariant of the sound cue: the cues played are spaced, and the
    reference holds the time of the last one (0 before the first). *)
Definition throttled s : Prop :=
  spaced (played s) ∧ lastSoundTimeRef s = default 0 (last (played s)).

(** A step that may play the cue, at most once. *)
Definition sounding s s' : Prop :=
  surface s s' ∧ (throttled s → throttled s')
  ∧ (played s' = played s ∨ ∃ t, played s' = played s ++ [t]).

(** A sequence of steps that may play the cue. *)
Definition animating s s' : Prop :=
  surface s s' ∧ (throttled s → throttled s').

(** The position of a node: the centre of the canvas without geo data
    or when the projection gives no point, the projected point
    otherwise. *)
Definition expected_position (s : State) (n : Node) : Q * Q :=
  let '(width, height) := dimensions s in
  let centre := ((width / 2)%Q, (height / 2)%Q) in
  match geo n with
  | None => centre
  | Some g =>
      default centre
        (geoMercator_fitSize width height
           (default [] (without_Antarctica <$> world s)) (lon g, lat g))
  end.

(** The projection of a redraw: fitted to the canvas and to the atlas
    without Antarctica. *)
Definition fitted (s : State) : Q * Q → option (Q * Q) :=
  geoMercator_fitSize (dimensions s).1 (dimensions s).2
    (default [] (without_Antarctica <$> world s)).

(** The [i]-th interior point of the polyline from [a] to [b], for the
    two random samples [rx] and [ry]. *)
Definition jittered (a b : Q * Q) (i : Z) (rx ry : Q) : Q * Q :=
  let t := Number.div (inject_Z i) (inject_Z 7) in
  (Number.add (Number.add a.1 (Number.mul (Number.sub b.1 a.1) t))
              (Number.mul (Number.sub rx (1 # 2)) 18),
   Number.add (Number.add a.2 (Number.mul (Number.sub b.2 a.2) t))
              (Number.mul (Number.sub ry (1 # 2)) 18)).

(** The interior points for the indices [xs], from the [k]-th random
    sample on. *)
Fixpoint jitters (a b : Q * Q) (k : nat) (xs : list Z) : list (Q * Q) :=
  match xs with
  | [] => []
  | i :: xs' =>
      jittered a b i (Math_random k) (Math_random (S k)) :: jitters a b (S (S k)) xs'
  end.

(** The two ends of the effect of an event: the positions of the ends
    of the first channel of the prop that has the id of the event, when
    both are nodes of the map. *)
Definition resolved (p : Props) (nodeMap : gmap string (Q * Q)) (event : ChannelEvent)
  : option ((Q * Q) * (Q * Q)) :=
  match List.find (λ c, bool_decide (channel_id c = event_id event)) (channels p) with
  | Some channel =>
      match nodeMap !! source channel, nodeMap !! target channel with
      | Some a, Some b => Some (a, b)
      | _, _ => None
      end
  | None => None
  end.

(** A polyline drawn for an event between two points. *)
Definition effect_of (p : Props) (pl : Polyline)
    (drawn : ChannelEvent * ((Q * Q) * (Q * Q))) : Prop :=
  head (points pl) = Some drawn.2.1
  ∧ last (points pl) = Some drawn.2.2
  ∧ length (points pl) = 8%nat
  ∧ stroke pl = stroke_of (event_status drawn.1)
  ∧ duration pl = animationDuration_or_default p.

(** Props that ask for no animation: no channel-event id, no positive
    debug trigger, no pending event. *)
Definition idle (p : Props) : Prop :=
  (channelEventId p = None ∨ channelEventId p = Some EmptyString)
  ∧ (∀ trigger, triggerDebugLightning p = Some trigger → trigger ≤ 0)
  ∧ channelEvents_or_default p = [].

(** The coordinates of an end of a line: those of the last node of the
    prop that has the id, [undefined] when no node has it. *)
Definition line_end (s : State) (p : Props) (k : string) : option Q * option Q :=
  match last (filter (λ n, node_id n = k) (nodes p)) with
  | Some n => (Some (expected_position s n).1, Some (expected_position s n).2)
  | None => (None, None)
  end.

End WithHost.
End LightningGraph.

(** ** The scroll-wheel zoom (the first effect of LightningGraph.tsx) *)

Module Viewport.

(** [d3.ZoomTransform]: scale [k] and translation [(x, y)]. *)
Record Transform := { k : Q; x : Q; y : Q }.

Definition zoomIdentity : Transform := {| k := 1; x := 0; y := 0 |}.

(** An input event on the [svg]: its [type], and what the gesture asks
    for, a factor on the scale and a translation. *)
Record InputEvent := {
  event_type : string;
  scale_by : Q;
  translate_to : Q * Q;
}.

(** The behaviour object built by [d3.zoom()] and its setters. *)
Record ZoomBehavior := {
  scaleExtent : Q * Q;
  filter : InputEvent → bool;
}.

(** The behaviour the effect installs:
    [d3.zoom().scaleExtent([0.5, 10]).filter(event => event.type === "wheel")]. *)
Definition zoom : ZoomBehavior := {|
  scaleExtent := (1 # 2, 10)%Q;
  filter := λ event, bool_decide (event_type event = "wheel");
|}.

(** The [svg] as the zoom sees it: whether the behaviour is installed,
    the transform it keeps on the element, and the transform the ["zoom"]
    listener last wrote to the group it captured. *)
Record State := {
  installed : bool;
  transform : Transform;
  group_transform : option Transform;
}.

Definition initial : State :=
  {| installed := false; transform := zoomIdentity; group_transform := None |}.

(** The effect: the behaviour is installed when the [svg] is attached
    and the group exists. *)
Definition install (svgRef group_exists : bool) (s : State) : State :=
  if svgRef && group_exists
  then {| installed := true; transform := transform s;
          group_transform := group_transform s |}
  else s.

(** Modelled from the spec: the clamping of the scale by the behaviour
    that [d3.zoom()] returns, which is code of the d3-zoom package and not
    of [src/].  The spec says that the scale is clamped to
    [[minScale, maxScale]]. *)
Definition clamp (extent : Q * Q) (k : Q) : Q :=
  Qmax (fst extent) (Qmin (snd extent) k).

(** Modelled from the spec: the handling of an input event by the
    behaviour that [d3.zoom()] returns, which is code of the d3-zoom
    package and not of [src/].  The spec says that input is restricted to
    the one modality the filter admits, that the transform is
    [{translate-x, translate-y, scale}] and that the scale is clamped. *)
Definition gesture (b : ZoomBehavior) (t : Transform) (event : InputEvent) : Transform :=
  if filter b event then
    {| k := clamp (scaleExtent b) (k t * scale_by event)%Q;
       x := fst (translate_to event);
       y := snd (translate_to event) |}
  else t.

(** An input event reaching the [svg]: the installed behaviour updates
    its transform and the listener writes it to the group. *)
Definition onInput (event : InputEvent) (s : State) : State :=
  if installed s && filter zoom event then
    let t := gesture zoom (transform s) event in
    {| installed := true; transform := t; group_transform := Some t |}
  else s.

(** What can happen to the viewport: the effect runs, or an input event
    arrives. *)
Inductive Action :=
  | Effect (svgRef group_exists : bool)
  | Input (event : InputEvent).

Definition step (s : State) (a : Action) : State :=
  match a with
  | Effect svgRef group_exists => install svgRef group_exists s
  | Input event => onInput event s
  end.

Definition run (actions : list Action) : State := foldl step initial actions.

Definition is_wheel (a : Action) : bool :=
  match a with
  | Effect _ _ => true
  | Input event => bool_decide (event_type event = "wheel")
  end.

(** The scale of a transform is within the extent the effect sets. *)
Definition within_extent (t : Transform) : Prop :=
  (fst (scaleExtent zoom) <= k t <= snd (scaleExtent zoom))%Q.

End Viewport.

(** ** The glow filter (the fourth effect of LightningGraph.tsx) *)

Module Glow.

(** The [svg] as the effect sees it: whether the reference holds the
    element, and how many elements with the id [glow] it contains. *)
Record Svg := { attached : bool; glow_filters : nat }.

Definition empty_svg : Svg := {| attached := true; glow_filters := 0 |}.

(** The effect, which runs after the mount and after every change of
    the dimensions: [defs] and the filter are appended when
    [svg.select("#glow")] is empty. *)
Definition effect (svg : Svg) : Svg :=
  if negb (attached svg) then svg
  else if (glow_filters svg =? 0)%nat
       then {| attached := attached svg; glow_filters := S (glow_filters svg) |}
       else svg.

(** The [svg] after the effect has run [n] times. *)
Definition effects (n : nat) (svg : Svg) : Svg := Nat.iter n effect svg.

End Glow.

(** ** The props App.tsx passes to LightningGraph *)

Module View.

(** A [source] or [target] of the [channels] prop as [LightningGraph]
    uses it, which is only as a property key ([nodeMap[d.source]]):
    [undefined] is the key ["undefined"]. *)
Definition property_key (v : option string) : string := default "undefined" v.

Definition channel_prop (c : App.Shown) : Channel :=
  {| channel_id := App.shown_id c;
     source := property_key (App.shown_source c);
     target := property_key (App.shown_target c);
     status := App.shown_status c |}.

(** The element [<LightningGraph ... />] for the cells of the
    component. *)
Definition props `{ImportMetaEnv} (u : App.Ui) (s : App.State) : LightningGraph.Props := {|
  LightningGraph.nodes := App.nodes s;
  LightningGraph.channels :=
    channel_prop <$> App.shownChannels (App.showAllChannels u) (App.channels s)
                                       (App.channelEvents s);
  LightningGraph.channelEventId := None;
  LightningGraph.triggerDebugLightning := Some (App.debugLightningTrigger u);
  LightningGraph.channelEvents := Some (App.channelEvents s);
  LightningGraph.maxChannelEvents := Some MAX_CHANNEL_EVENTS;
  LightningGraph.animationDuration := Some ANIMATION_DURATION;
|}.

End View.

(** ** Examples

    A host whose clock advances by 400 ms at every read and whose random
    samples are all one half, a stand-in for the d3 functions, and the
    snapshots of a small network. *)

Module Examples.

(** The integer nearest to [n / d], the even one of two equally near. *)
Definition nearest_even (n d : Z) : Z :=
  let q := n / d in
  let r := n `mod` d in
  if 2 * r <? d then q
  else if d <? 2 * r then q + 1
  else if Z.even q then q else q + 1.

(** The rational with a significand of 53 bits nearest to [q]. *)
Definition round53 (q : Q) : Q :=
  let n := Z.abs (Qnum q) in
  let d := Zpos (Qden q) in
  if n =? 0 then 0%Q else
  let e0 := Z.log2 n - Z.log2 d in
  let above := if 0 <=? e0 then d * 2 ^ e0 <=? n else d <=? n * 2 ^ (- e0) in
  let e := if above then e0 else e0 - 1 in
  let k := 52 - e in
  if 0 <=? k
  then Qred (Qmake (Z.sgn (Qnum q) * nearest_even (n * 2 ^ k) d) (Z.to_pos (2 ^ k)))
  else inject_Z (Z.sgn (Qnum q) * nearest_even n (d * 2 ^ (- k)) * 2 ^ (- k)).

Definition host : Host.
Proof.
  refine {| Date_now := λ k, 1700000000000 + 400 * Z.of_nat k;
            Math_random := λ _, (1 # 2)%Q;
            toLocaleTimeString := λ t, pretty t;
            binary64 := round53 |}.
  intros _. split; [discriminate | reflexivity].
Defined.

Definition d3 : D3 := {|
  geoMercator_fitSize := λ width height _ '(lon_, lat_),
    Some (((lon_ + 180) * width / 360)%Q, ((90 - lat_) * height / 180)%Q);
  geoPath := λ _ _, "M0,0";
  scaleSequential_interpolateCool := λ _ _, "rgb(110, 64, 170)";
  interpolateRainbow := λ _, "rgb(110, 64, 170)";
|}.

(** A configuration with a cap of two events. *)
Definition small_env : ImportMetaEnv := {|
  CHANNELS_GEO_API := "https://mempool.space/api/v1/lightning/channels-geo";
  MAX_CHANNEL_EVENTS := 2;
  ANIMATION_DURATION := 60 * 1000;
|}.

(** The configuration of an [.env] file that sets [MAX_CHANNEL_EVENTS=0]. *)
Definition zero_env : ImportMetaEnv := {|
  CHANNELS_GEO_API := "https://mempool.space/api/v1/lightning/channels-geo";
  MAX_CHANNEL_EVENTS := 0;
  ANIMATION_DURATION := 60 * 1000;
|}.

Definition entry (a b : string) : App.Entry := {|
  App.node1_pubkey := a; App.node1_alias := ""; App.lon1 := 2; App.lat1 := 48;
  App.node2_pubkey := b; App.node2_alias := ""; App.lon2 := 13; App.lat2 := 52;
|}.

(** The ids and statuses of a list of events. *)
Definition key_of_events (evs : list ChannelEvent) : list (string * Status) :=
  App.key <$> evs.

Definition snapshot (data : list App.Entry) : App.Response :=
  App.Resolved true 200 (inr data).

Definition outage : list App.Response :=
  [ App.Rejected "TypeError: Failed to fetch"; App.Resolved false 503 (inl "") ].

Definition node_at (id : string) (lon_ lat_ : Q) : Node :=
  {| node_id := id; geo := Some {| lat := lat_; lon := lon_; country := None |} |}.

Definition three_nodes : list Node :=
  [ node_at "n1" 2 48; node_at "n2" 13 52; {| node_id := "n3"; geo := None |} ].

(** Props that only press the debug trigger. *)
Definition debug_props (nodes_ : list Node) (trigger : Z) : LightningGraph.Props := {|
  LightningGraph.nodes := nodes_;
  LightningGraph.channels := [];
  LightningGraph.channelEventId := None;
  LightningGraph.triggerDebugLightning := Some trigger;
  LightningGraph.channelEvents := None;
  LightningGraph.maxChannelEvents := None;
  LightningGraph.animationDuration := None;
|}.

(** Props with a batch of pending events. *)
Definition batch_props (nodes_ : list Node) (events : list ChannelEvent)
  : LightningGraph.Props := {|
  LightningGraph.nodes := nodes_;
  LightningGraph.channels :=
    [ {| channel_id := "n1-n2"; source := "n1"; target := "n2"; status := open |} ];
  LightningGraph.channelEventId := Some "n1-n2";
  LightningGraph.triggerDebugLightning := Some 1;
  LightningGraph.channelEvents := Some events;
  LightningGraph.maxChannelEvents := Some 30;
  LightningGraph.animationDuration := Some 60000;
|}.

Definition burst : list ChannelEvent :=
  [ {| event_id := "n1-n2"; ts := 1700000000000; event_status := open |};
    {| event_id := "n1-n2"; ts := 1700000000001; event_status := closed |};
    {| event_id := "n1-n2"; ts := 1700000000002; event_status := open |} ].

Definition positions (nodes_ : list Node) : list LightningGraph.Positioned :=
  @LightningGraph.nodePositions_of d3 (LightningGraph.mount 800 600) (debug_props nodes_ 1).

(** An atlas of three features: Antarctica, a country, and a feature
    that has the id of Antarctica but no properties. *)
Definition country_feature (id_ name_ : string) : Feature :=
  {| feature_id := Some id_;
     properties := Some {| name := Some name_; NAME := None |};
     geometry := [] |}.

Definition bare_feature (id_ : string) : Feature :=
  {| feature_id := Some id_; properties := None; geometry := [] |}.

Definition atlas : list Feature :=
  [ country_feature "010" "Antarctica"; country_feature "250" "France";
    bare_feature "010" ].

(** Two snapshots of which the second is the first in another order,
    and a snapshot that gives the node n1 two positions. *)
Definition two_channels : list App.Entry := [ entry "n1" "n2"; entry "n2" "n3" ].

Definition two_channels_reordered : list App.Entry := [ entry "n2" "n3"; entry "n1" "n2" ].

Definition moved_node : list App.Entry := [ entry "n1" "n2"; entry "n2" "n1" ].

(** A session in a debug build: one click on the trigger, the debug
    interval switched on, and one firing of the interval. *)
Definition debug_session : list App.UiEvent :=
  [ App.ClickTrigger; App.ClickDebugRandom; App.DebugTick ].

End Examples.

(** * Properties *)

(** ** Facts about the JavaScript runtime *)

Section JSFacts.
Import JS.
Context {A : Type}.
Implicit Types (l : list A) (n : Z).

Lemma relative_index_range len i :
  0 ≤ len → 0 ≤ relative_index len i ≤ len.
Proof. unfold relative_index. case_match; lia. Qed.

(** [arr.slice(-n)] is the array without its first [k] entries, for a [k]
    that depends on the sign of [n]. *)
Lemma slice_last_drop n l :
  slice_last n l = drop (Z.to_nat (relative_index (Z.of_nat (length l)) (- n))) l.
Proof.
  unfold slice_last, slice.
  pose proof (relative_index_range (Z.of_nat (length l)) (- n)).
  apply take_ge. rewrite length_drop. lia.
Qed.

Lemma slice_last_suffix n l : slice_last n l `suffix_of` l.
Proof. rewrite slice_last_drop. apply suffix_drop. Qed.

(** For a positive [n], [arr.slice(-n)] keeps exactly the last [n]
    entries, or all of them when there are fewer. *)
Lemma slice_last_positive n l :
  0 < n → slice_last n l = drop (length l - Z.to_nat n) l.
Proof.
  intros Hn. rewrite slice_last_drop. f_equal.
  unfold relative_index. rewrite (proj2 (Z.ltb_lt _ _)) by lia. lia.
Qed.

Lemma slice_last_length n l :
  0 < n → Z.of_nat (length (slice_last n l)) = Z.min n (Z.of_nat (length l)).
Proof. intros Hn. rewrite slice_last_positive, length_drop by done. lia. Qed.

(** [arr.slice(-0)] is [arr.slice(0)]: nothing is dropped. *)
Lemma slice_last_zero l : slice_last 0 l = l.
Proof. rewrite slice_last_drop. unfold relative_index. simpl. destruct l; done. Qed.

Lemma slice_last_fits n l :
  Z.of_nat (length l) ≤ n → slice_last n l = l.
Proof.
  intros Hn. destruct (decide (n = 0)) as [->|]; [apply slice_last_zero|].
  rewrite slice_last_positive by lia.
  replace (length l - Z.to_nat n)%nat with 0%nat by lia. done.
Qed.

(** [arr.slice(0, n)] for a natural [n] keeps the first [n] entries. *)
Lemma slice_first (n : nat) l : slice 0 (Some (Z.of_nat n)) l = take n l.
Proof.
  unfold slice, relative_index. simpl.
  rewrite (proj2 (Z.ltb_ge _ _)) by lia.
  replace (Z.min 0 (Z.of_nat (length l))) with 0 by lia. simpl.
  rewrite Z.sub_0_r.
  destruct (decide (n ≤ length l)%nat).
  - f_equal. lia.
  - rewrite (take_ge l n) by lia. apply take_ge. lia.
Qed.

End JSFacts.

(** [Math.floor(r * n)] for a sample [r] of [Math.random()], which lies
    in [[0, 1)], and a positive length [n] is an index below [n]. *)
Lemma floor_times_range (r : Q) (n : nat) :
  (0 <= r)%Q → (r < 1)%Q → (0 < n)%nat → 0 ≤ JS.floor_times r n < Z.of_nat n.
Proof.
  intros Hr0 Hr1 Hn. unfold JS.floor_times.
  assert (0 < inject_Z (Z.of_nat n))%Q as Hpos.
  { rewrite <- (Zlt_Qlt 0). lia. }
  split.
  - change 0 with (Qfloor 0). apply Qfloor_resp_le.
    apply Qmult_le_0_compat; [done | by apply Qlt_le_weak].
  - rewrite Zlt_Qlt. eapply Qle_lt_trans; [apply Qfloor_le|].
    rewrite <- (Qmult_1_l (inject_Z (Z.of_nat n))) at 2.
    by apply Qmult_lt_compat_r.
Qed.

Lemma floor_times_zero (r : Q) : JS.floor_times r 0 = 0.
Proof.
  unfold JS.floor_times. change (inject_Z (Z.of_nat 0)) with 0%Q.
  rewrite <- (Qfloor_Z 0). apply Qfloor_comp. apply Qmult_0_r.
Qed.

Section SetFacts.
Import JS.
Implicit Types (s : JsSet) (x : string).

Lemma Set_has_true s x : Set_has s x = true ↔ x ∈ s.
Proof. unfold Set_has. apply bool_decide_eq_true. Qed.

Lemma Set_has_false s x : Set_has s x = false ↔ x ∉ s.
Proof. unfold Set_has. apply bool_decide_eq_false. Qed.

Lemma Set_add_elem s x y : y ∈ Set_add s x ↔ y ∈ s ∨ y = x.
Proof.
  unfold Set_add. destruct (Set_has s x) eqn:E.
  - apply Set_has_true in E. split; [by left | by intros [?| ->]].
  - rewrite elem_of_app, list_elem_of_singleton. done.
Qed.

Lemma Set_add_NoDup s x : NoDup s → NoDup (Set_add s x).
Proof.
  intros Hs. unfold Set_add. destruct (Set_has s x) eqn:E; [done|].
  apply Set_has_false in E. apply NoDup_app. split_and!; [done| |apply NoDup_singleton].
  intros y Hy ->%list_elem_of_singleton. done.
Qed.

Lemma Set_fold_elem elements s y :
  y ∈ foldl Set_add s elements ↔ y ∈ s ∨ y ∈ elements.
Proof.
  revert s. induction elements as [|x elements IH]; intros s; simpl.
  - rewrite elem_of_nil. tauto.
  - rewrite IH, Set_add_elem, elem_of_cons. tauto.
Qed.

Lemma Set_fold_NoDup elements s : NoDup s → NoDup (foldl Set_add s elements).
Proof.
  revert s. induction elements as [|x elements IH]; intros s Hs; simpl; [done|].
  apply IH, Set_add_NoDup, Hs.
Qed.

(** [new Set(elements)] holds exactly the elements, each once. *)
Lemma Set_new_elem elements y : y ∈ Set_new elements ↔ y ∈ elements.
Proof. unfold Set_new. rewrite Set_fold_elem, elem_of_nil. tauto. Qed.

Lemma Set_new_NoDup elements : NoDup (Set_new elements).
Proof. apply Set_fold_NoDup, NoDup_nil_2. Qed.

Lemma Set_size_zero s : Set_size s = 0 ↔ s = [].
Proof. unfold Set_size. destruct s; simpl; split; intros; try done; lia. Qed.

End SetFacts.

(** ** Sequencing *)

Lemma bind_run {S A B} (m : M S A) (f : A → M S B) (s : S) a s' :
  m s = (Normal a, s') → (m ≫= f) s = f a s'.
Proof. intros Hm. unfold mbind, M_bind, bind. by rewrite Hm. Qed.

Section Returns.
Context {S : Type} (R : S → S → Prop) `{!Reflexive R} `{!Transitive R}.

Lemma returns_ret {A} (a : A) : returns R (mret a).
Proof. intros s. exists a, s. done. Qed.

Lemma returns_bind {A B} (m : M S A) (f : A → M S B) :
  returns R m → (∀ a, returns R (f a)) → returns R (m ≫= f).
Proof.
  intros Hm Hf s. destruct (Hm s) as (a & s1 & Hrun & HR1).
  destruct (Hf a s1) as (b & s2 & Hrun2 & HR2).
  exists b, s2. rewrite (bind_run _ _ _ _ _ Hrun). split; [done|]. by trans s1.
Qed.

(** A loop whose body keeps an invariant of the accumulator keeps it. *)
Lemma returns_for_of {A B} (I : B → Prop) (xs : list A) (body : B → A → M S B) acc s :
  I acc →
  (∀ acc x s, I acc → ∃ acc' s', body acc x s = (Normal acc', s') ∧ R s s' ∧ I acc') →
  ∃ acc' s', for_of xs body acc s = (Normal acc', s') ∧ R s s' ∧ I acc'.
Proof.
  intros Hacc Hbody. revert acc s Hacc.
  induction xs as [|x xs IH]; intros acc s Hacc.
  - exists acc, s. done.
  - destruct (Hbody acc x s Hacc) as (acc1 & s1 & Hrun & HR1 & Hacc1).
    destruct (IH acc1 s1 Hacc1) as (acc2 & s2 & Hrun2 & HR2 & Hacc2).
    exists acc2, s2. cbn [for_of]. rewrite (bind_run _ _ _ _ _ Hrun).
    split_and!; [done | by trans s1 | done].
Qed.

End Returns.

(** ** The poller *)

Section AppFacts.
Import JS App.
Context `{Host} `{ImportMetaEnv}.
Implicit Types (s : State) (data : list Entry).

(** Symbolic execution of the straight-line code of the poller, on a
    state given by its fields. *)
Ltac js_run :=
  cbv beta iota zeta delta
    [mbind M_bind bind mret M_ret ret modify gets throw try_catch
     fetchChannelsGeo accept log now console_log setLogs setNodes setChannels
     setLastUpdate setChannelEvents set_prevChannelsRef set_isFirstLoad admission
     poll nodes channels lastUpdate logs channelEvents prevChannelsRef
     isFirstLoad console clock_reads fst snd negb].

Lemma baseline_branch s data code :
  isFirstLoad s = true ∨ prevChannelsRef s = [] →
  ∃ s', fetchChannelsGeo (Resolved true code (inr data)) s = (Normal tt, s')
        ∧ baseline_of data s s'.
Proof.
  intros Hbase.
  assert ((isFirstLoad s || (Set_size (prevChannelsRef s) =? 0)) = true) as Hcond.
  { destruct Hbase as [-> | ->]; [done|]. apply orb_true_r. }
  destruct s as [ns cs lu lg ce pc fl co ck]. cbn in Hcond.
  eexists. split.
  - js_run. rewrite Hcond. js_run. reflexivity.
  - unfold baseline_of, baseline_lines. js_run.
    rewrite <- !(assoc_L (++)). done.
Qed.

(** A run that delivers no snapshot leaves the baseline cells alone. *)
Lemma rejected_poll s response :
  ¬ accepted response →
  isFirstLoad (poll response s) = isFirstLoad s
  ∧ prevChannelsRef (poll response s) = prevChannelsRef s
  ∧ channelEvents (poll response s) = channelEvents s.
Proof.
  intros Hrej. destruct s as [ns cs lu lg ce pc fl co ck].
  destruct response as [e | [] code [e | data]];
    try (exfalso; apply Hrej; exact I); js_run; done.
Qed.

Lemma rejected_polls s responses :
  Forall (λ r, ¬ accepted r) responses →
  isFirstLoad (polls responses s) = isFirstLoad s
  ∧ prevChannelsRef (polls responses s) = prevChannelsRef s
  ∧ channelEvents (polls responses s) = channelEvents s.
Proof.
  intros Hall. revert s. induction Hall as [|r rs Hr _ IH]; intros s; [done|].
  change (polls (r :: rs) s) with (polls rs (poll r s)).
  destruct (IH (poll r s)) as (-> & -> & ->). by apply rejected_poll.
Qed.

(** *** The detection loops *)

Lemma frame_refl s : frame s s.
Proof. by repeat split. Qed.

Lemma frame_trans s1 s2 s3 : frame s1 s2 → frame s2 s3 → frame s1 s3.
Proof. unfold frame. intros (?&?&?&?&?&?) (?&?&?&?&?&?). split_and!; congruence. Qed.

Lemma log_run msg s :
  ∃ s', log msg s = (Normal tt, s') ∧ frame s s'
        ∧ console s' = console s ++ [msg]
        ∧ logs s' = ("[" +:+ toLocaleTimeString (Date_now (clock_reads s)) +:+ "] " +:+ msg)
                      :: take 199 (logs s).
Proof.
  destruct s as [ns cs lu lg ce pc fl co ck].
  eexists. split; [js_run; reflexivity|]. split; [by repeat split|].
  split; [done|]. cbn [logs clock_reads].
  by rewrite (slice_first 199).
Qed.

Lemma now_run s :
  ∃ s', now s = (Normal (Date_now (clock_reads s)), s') ∧ frame s s'
        ∧ console s' = console s ∧ logs s' = logs s.
Proof. eexists. split; [reflexivity|]. by repeat split. Qed.

Lemma push_absent_loop st msg other ids acc s :
  ∃ evs s',
    for_of ids (push_absent st msg other) acc s = (Normal (acc ++ evs), s')
    ∧ frame s s'
    ∧ key <$> evs = (λ id, (id, st)) <$> filter (λ id, id ∉ other) ids.
Proof.
  revert acc s. induction ids as [|id ids IH]; intros acc s.
  - exists [], s. rewrite app_nil_r. by repeat split.
  - cbn [for_of]. unfold mbind at 1, M_bind at 1, bind at 1.
    unfold push_absent at 1. rewrite filter_cons.
    destruct (Set_has other id) eqn:Hhas; cbn [negb].
    + apply Set_has_true in Hhas.
      rewrite decide_False by (intros Hn; by apply Hn).
      cbv [mret M_ret ret]. apply IH.
    + apply Set_has_false in Hhas. rewrite decide_True by done.
      destruct (log_run (msg id) s) as (s1 & Hlog & Hf1 & _).
      destruct (now_run s1) as (s2 & Hnow & Hf2 & _).
      cbv [mbind M_bind bind mret M_ret ret]. rewrite Hlog, Hnow.
      destruct (IH (acc ++ [ {| event_id := id; ts := Date_now (clock_reads s1);
                                event_status := st |} ]) s2)
        as (evs & s' & Hrun & Hf3 & Hkeys).
      eexists (_ :: evs), s'. split_and!.
      * rewrite Hrun. by rewrite <- (assoc_L (++)).
      * eauto using frame_trans.
      * cbn. by rewrite Hkeys.
Qed.

Lemma detect_run prevChannels currentChannelIds s :
  ∃ opened closed_ s',
    detect prevChannels currentChannelIds s = (Normal (opened ++ closed_), s')
    ∧ frame s s'
    ∧ key <$> opened = opened_keys prevChannels currentChannelIds
    ∧ key <$> closed_ = closed_keys prevChannels currentChannelIds.
Proof.
  unfold detect.
  destruct (push_absent_loop open (λ id, "[EVENT] Channel opened: " +:+ id)
              prevChannels currentChannelIds [] s) as (evs1 & s1 & H1 & Hf1 & Hk1).
  destruct (push_absent_loop closed (λ id, "[EVENT] Channel closed: " +:+ id)
              currentChannelIds prevChannels evs1 s1) as (evs2 & s2 & H2 & Hf2 & Hk2).
  exists evs1, evs2, s2. split_and!.
  - unfold mbind, M_bind, bind, detect_opened, detect_closed.
    change (for_of currentChannelIds _ [] s) with
      (for_of currentChannelIds
         (push_absent open (λ id, "[EVENT] Channel opened: " +:+ id) prevChannels) [] s).
    rewrite H1. cbn [app]. exact H2.
  - eauto using frame_trans.
  - done.
  - done.
Qed.

(** *** The burst limit *)

Lemma limit_over newEvents s :
  MAX_CHANNEL_EVENTS < Z.of_nat (length newEvents) →
  ∃ s', limit newEvents s = (Normal (slice_last MAX_CHANNEL_EVENTS newEvents), s')
        ∧ frame s s'
        ∧ console s' = console s ++ [warning (length newEvents)]
        ∧ logs s' = warning_line s (length newEvents) :: take 199 (logs s).
Proof.
  intros Hover. unfold limit. rewrite (proj2 (Z.ltb_lt _ _)) by done.
  destruct (log_run (warning (length newEvents)) s) as (s' & Hlog & Hf & Hc & Hl).
  exists s'. rewrite (bind_run _ _ _ _ _ Hlog). done.
Qed.

Lemma limit_within newEvents s :
  Z.of_nat (length newEvents) ≤ MAX_CHANNEL_EVENTS →
  limit newEvents s = (Normal newEvents, s).
Proof. intros Hle. unfold limit. by rewrite (proj2 (Z.ltb_ge _ _)) by done. Qed.

Lemma limit_run newEvents s :
  ∃ kept s', limit newEvents s = (Normal kept, s') ∧ frame s s'
             ∧ kept `suffix_of` newEvents.
Proof.
  destruct (decide (MAX_CHANNEL_EVENTS < Z.of_nat (length newEvents))) as [Hover|Hle].
  - destruct (limit_over _ s Hover) as (s' & Hrun & Hf & _).
    eauto using slice_last_suffix.
  - exists newEvents, s. rewrite limit_within by lia.
    split_and!; [done | apply frame_refl | done].
Qed.

(** The guarded block, for a previous set that is not empty. *)
Lemma diff_run prevChannels currentChannelIds s :
  prevChannels ≠ [] →
  ∃ evs s1 kept s2,
    detect prevChannels currentChannelIds s = (Normal evs, s1)
    ∧ limit evs s1 = (Normal kept, s2)
    ∧ diff prevChannels currentChannelIds s = (Normal kept, s2)
    ∧ frame s s2.
Proof.
  intros Hne.
  destruct (detect_run prevChannels currentChannelIds s)
    as (opened & closed_ & s1 & Hd & Hf1 & _).
  destruct (limit_run (opened ++ closed_) s1) as (kept & s2 & Hl & Hf2 & _).
  exists (opened ++ closed_), s1, kept, s2.
  split_and!; [done | done | | eauto using frame_trans].
  unfold diff. assert ((0 <? Set_size prevChannels) = true) as ->.
  { apply Z.ltb_lt. unfold Set_size. destruct prevChannels; [done | cbn; lia]. }
  by rewrite (bind_run _ _ _ _ _ Hd).
Qed.

(** *** A pass that takes the diff branch *)

Lemma accept_diff data s :
  isFirstLoad s = false →
  prevChannelsRef s ≠ [] →
  ∃ s1 newEvents s2 s',
    log (received_line data) s = (Normal tt, s1)
    ∧ diff (prevChannelsRef s) (currentChannelIds_of data) s1 = (Normal newEvents, s2)
    ∧ accept data s = (Normal tt, s')
    ∧ prevChannelsRef s' = currentChannelIds_of data
    ∧ nodes s' = nodeArr_of data
    ∧ channels s' = channelArr_of data
    ∧ isFirstLoad s' = false
    ∧ channelEvents s' =
        merge (Date_now (S (clock_reads s2))) newEvents (channelEvents s).
Proof.
  intros Hfirst Hne.
  destruct (log_run (received_line data) s) as (s1 & Hlog & Hf1 & _).
  destruct (diff_run (prevChannelsRef s) (currentChannelIds_of data) s1 Hne)
    as (evs & s1' & newEvents & s2 & _ & _ & Hdiff & Hf2).
  destruct s2 as [ns cs lu lg ce pc fl co ck].
  eexists s1, newEvents, _, _. split_and!; [done | done | | ..].
  - unfold accept. fold (received_line data).
    rewrite (bind_run _ _ _ _ _ Hlog).
    destruct Hf1 as (_ & _ & _ & _ & Hp1 & Hfl1).
    unfold gets at 1. unfold mbind at 1, M_bind at 1, bind at 1.
    unfold gets at 1. unfold mbind at 1, M_bind at 1, bind at 1.
    rewrite Hfl1, Hfirst, Hp1.
    assert ((Set_size (prevChannelsRef s) =? 0) = false) as ->.
    { apply Z.eqb_neq. rewrite Set_size_zero. done. }
    cbn [orb]. rewrite (bind_run _ _ _ _ _ Hdiff).
    js_run. reflexivity.
  - done.
  - done.
  - done.
  - destruct Hf1 as (_ & _ & _ & _ & _ & Hfl1). destruct Hf2 as (_ & _ & _ & _ & _ & Hfl2).
    cbn in Hfl2. cbn. congruence.
  - destruct Hf1 as (_ & _ & _ & Hce1 & _). destruct Hf2 as (_ & _ & _ & Hce2 & _).
    cbn in Hce2. cbn. congruence.
Qed.

(** *** Counting the events of a pass *)

Lemma occurrences_keys id st evs :
  occurrences id st evs = length (filter (λ k, k = (id, st)) (key <$> evs)).
Proof.
  unfold occurrences. induction evs as [|e evs IH]; [done|].
  rewrite fmap_cons, !filter_cons. repeat case_decide; cbn; congruence.
Qed.

Lemma occurrences_app id st evs1 evs2 :
  occurrences id st (evs1 ++ evs2) = (occurrences id st evs1 + occurrences id st evs2)%nat.
Proof. unfold occurrences. by rewrite filter_app, length_app. Qed.

(** In the image of a list of ids under a filter and a tag, a key whose
    id fails the filter, or is not in the list, or whose tag differs,
    does not occur. *)
Lemma count_tagged_none (Q : string → Prop) `{!∀ x, Decision (Q x)}
    (st st' : Status) (l : list string) id :
  st ≠ st' ∨ id ∉ l ∨ ¬ Q id →
  length (filter (λ k, k = (id, st)) ((λ x, (x, st')) <$> filter Q l)) = 0%nat.
Proof.
  intros Hno. induction l as [|x l IH]; [done|].
  rewrite filter_cons. destruct (decide (Q x)) as [HQ|HQ].
  - rewrite fmap_cons, filter_cons.
    destruct (decide ((x, st') = (id, st))) as [[= -> ->]|Hne].
    + exfalso. destruct Hno as [?|[Hn|?]]; [done| |done].
      apply Hn, list_elem_of_here.
    + apply IH. destruct Hno as [?|[Hn|?]]; [by left | right; left | by right; right].
      intros Hin. apply Hn. by apply list_elem_of_further.
  - apply IH. destruct Hno as [?|[Hn|?]]; [by left | right; left | by right; right].
    intros Hin. apply Hn. by apply list_elem_of_further.
Qed.

(** If the list is duplicate-free, a key whose id is in the list and
    passes the filter occurs exactly once. *)
Lemma count_tagged_one (Q : string → Prop) `{!∀ x, Decision (Q x)}
    (st : Status) (l : list string) id :
  NoDup l → id ∈ l → Q id →
  length (filter (λ k, k = (id, st)) ((λ x, (x, st)) <$> filter Q l)) = 1%nat.
Proof.
  intros Hnd Hin HQ. induction Hnd as [|x l Hx Hl IH]; [by apply elem_of_nil in Hin|].
  rewrite filter_cons. apply elem_of_cons in Hin as [->|Hin].
  - rewrite decide_True by done. rewrite fmap_cons, filter_cons, decide_True by done.
    cbn. f_equal. apply count_tagged_none. by right; left.
  - destruct (decide (Q x)) as [HQx|HQx]; [|by apply IH].
    rewrite fmap_cons, filter_cons.
    rewrite decide_False; [by apply IH|]. intros [= -> ]. done.
Qed.

(** *** The diff of two snapshots *)

Lemma detect_occurrences prevChannels currentChannelIds s :
  NoDup prevChannels → NoDup currentChannelIds →
  ∃ evs s1,
    detect prevChannels currentChannelIds s = (Normal evs, s1)
    ∧ ∀ id,
        occurrences id open evs
        = (if decide (id ∈ currentChannelIds ∧ id ∉ prevChannels) then 1 else 0)%nat
        ∧ occurrences id closed evs
          = (if decide (id ∈ prevChannels ∧ id ∉ currentChannelIds) then 1 else 0)%nat.
Proof.
  intros HP HC.
  destruct (detect_run prevChannels currentChannelIds s)
    as (opened & closed_ & s1 & Hd & _ & Hko & Hkc).
  exists (opened ++ closed_), s1. split; [done|]. intros id.
  rewrite !occurrences_app, !occurrences_keys, Hko, Hkc.
  unfold opened_keys, closed_keys. split.
  - rewrite (count_tagged_none _ open closed) by (by left). rewrite Nat.add_0_r.
    case_decide as Hin.
    + destruct Hin. by apply count_tagged_one.
    + apply count_tagged_none. right.
      destruct (decide (id ∈ currentChannelIds)); [right | by left].
      intros ?. by apply Hin.
  - rewrite (count_tagged_none _ closed open) by (by left). cbn [Nat.add].
    case_decide as Hin.
    + destruct Hin. by apply count_tagged_one.
    + apply count_tagged_none. right.
      destruct (decide (id ∈ prevChannels)); [right | by left].
      intros ?. by apply Hin.
Qed.

(** C1.  For a previous set [P] that is not empty and a current set [C],
    the guarded block of the poller runs the two detection loops and then
    the burst limit; the events the loops produce, before the limit, hold
    exactly one [open] event (and no [closed] one) for every id in [C] but
    not in [P], exactly one [closed] event (and no [open] one) for every
    id in [P] but not in [C], and no event at all for an id in both. *)
Theorem diff_emits_membership_changes (P C : JsSet) s :
  NoDup P → NoDup C → P ≠ [] →
  ∃ evs s1,
    detect P C s = (Normal evs, s1)
    ∧ diff P C s = limit evs s1
    ∧ ∀ id,
        (id ∈ C → id ∉ P →
           occurrences id open evs = 1%nat ∧ occurrences id closed evs = 0%nat)
        ∧ (id ∈ P → id ∉ C →
             occurrences id closed evs = 1%nat ∧ occurrences id open evs = 0%nat)
        ∧ (id ∈ P → id ∈ C → ∀ e, e ∈ evs → event_id e ≠ id).
Proof.
  intros HP HC Hne.
  destruct (detect_occurrences P C s HP HC) as (evs & s1 & Hd & Hocc).
  exists evs, s1. split; [done|]. split.
  { unfold diff. assert ((0 <? Set_size P) = true) as ->.
    { apply Z.ltb_lt. unfold Set_size. destruct P; [done | cbn; lia]. }
    by rewrite (bind_run _ _ _ _ _ Hd). }
  intros id. destruct (Hocc id) as [Ho Hc]. split_and!.
  - intros HinC HnotP. rewrite Ho, Hc.
    rewrite decide_True by done. rewrite decide_False; [done|]. by intros [? ?].
  - intros HinP HnotC. rewrite Ho, Hc.
    rewrite decide_True by done. rewrite decide_False; [done|]. by intros [? ?].
  - intros HinP HinC e He Hid.
    rewrite decide_False in Ho by (by intros [? ?]).
    rewrite decide_False in Hc by (by intros [? ?]).
    unfold occurrences in Ho, Hc.
    apply length_zero_iff_nil in Ho, Hc.
    destruct (event_status e) eqn:Hst.
    + assert (e ∈ filter (λ e, key e = (id, open)) evs) as Hin.
      { apply list_elem_of_filter. split; [|done]. unfold key. by rewrite Hid, Hst. }
      rewrite Ho in Hin. by apply elem_of_nil in Hin.
    + assert (e ∈ filter (λ e, key e = (id, closed)) evs) as Hin.
      { apply list_elem_of_filter. split; [|done]. unfold key. by rewrite Hid, Hst. }
      rewrite Hc in Hin. by apply elem_of_nil in Hin.
Qed.

(** *** The baseline *)

(** An accepted snapshot replaces the baseline set and clears the
    first-load flag, whichever branch it takes. *)
Lemma accepted_poll data code s :
  prevChannelsRef (poll (Resolved true code (inr data)) s) = currentChannelIds_of data
  ∧ isFirstLoad (poll (Resolved true code (inr data)) s) = false.
Proof.
  destruct (log_run ("[API] Fetching Lightning Network channels with geodata from: "
                       +:+ CHANNELS_GEO_API) s) as (s0 & Hlog & Hf0 & _).
  assert (fetchChannelsGeo (Resolved true code (inr data)) s = accept data s0
          ∨ ∃ e s', accept data s0 = (Throw e, s')) as Hfetch.
  { unfold fetchChannelsGeo, try_catch. rewrite (bind_run _ _ _ _ _ Hlog). cbn [negb].
    destruct (accept data s0) as [[a|e] s'] eqn:Hacc; [destruct a; by left|].
    right. eauto. }
  destruct (decide (isFirstLoad s0 = true ∨ prevChannelsRef s0 = [])) as [Hbase|Hdiff].
  - destruct (baseline_branch s data code) as (s' & Hrun & Hb).
    { destruct Hf0 as (_ & _ & _ & _ & <- & <-). done. }
    unfold poll. rewrite Hrun. destruct Hb as (_ & ? & _ & _ & ? & _). done.
  - destruct (accept_diff data s0) as (s1 & evs & s2 & s' & _ & _ & Hacc & Hp & _ & _ & Hfl & _).
    { destruct (isFirstLoad s0); [|done]. exfalso. apply Hdiff. by left. }
    { intros ?. apply Hdiff. by right. }
    destruct Hfetch as [Hfetch | (e & s'' & Hthrow)]; [|congruence].
    unfold poll. rewrite Hfetch, Hacc. done.
Qed.

Lemma currentChannelIds_of_nil : currentChannelIds_of [] = [].
Proof. reflexivity. Qed.

(** The baseline set never holds an id twice. *)
Lemma prevChannelsRef_NoDup responses :
  NoDup (prevChannelsRef (polls responses initial)).
Proof.
  unfold polls. induction responses as [|r rs IH] using rev_ind.
  - apply NoDup_nil_2.
  - rewrite foldl_snoc.
    destruct r as [e | [] code [e | data]].
    + by rewrite (proj1 (proj2 (rejected_poll _ (Rejected e) (λ H, H)))).
    + by rewrite (proj1 (proj2 (rejected_poll _ (Resolved true code (inl e)) (λ H, H)))).
    + rewrite (proj1 (accepted_poll data code _)). apply Set_new_NoDup.
    + by rewrite (proj1 (proj2 (rejected_poll _ (Resolved false code (inl e)) (λ H, H)))).
    + by rewrite (proj1 (proj2 (rejected_poll _ (Resolved false code (inr data)) (λ H, H)))).
Qed.

(** C2.  The first accepted snapshot, whatever it holds and however
    many polls failed before it, takes the baseline branch: the run
    returns normally, the pending collection is empty afterwards, the
    baseline set is the set of the snapshot's channel ids, the node and
    channel lists are those of the snapshot, and the only lines written
    are the three of the initial load. *)
Theorem first_snapshot_is_baseline (failures : list Response) data code :
  Forall (λ r, ¬ accepted r) failures →
  ∃ s', fetchChannelsGeo (Resolved true code (inr data)) (polls failures initial)
        = (Normal tt, s')
        ∧ baseline_of data (polls failures initial) s'.
Proof.
  intros Hfail. apply baseline_branch. left.
  destruct (rejected_polls initial failures Hfail) as (-> & _). done.
Qed.

(** C9.  After an accepted snapshot without channels, and whatever
    failed polls follow it, the next accepted snapshot takes the baseline
    branch although the first-load flag is already cleared: the pending
    collection is emptied and the baseline set replaced. *)
Theorem empty_snapshot_resets_baseline s code0 (failures : list Response) data code :
  Forall (λ r, ¬ accepted r) failures →
  let s0 := polls failures (poll (Resolved true code0 (inr [])) s) in
  isFirstLoad s0 = false
  ∧ ∃ s', fetchChannelsGeo (Resolved true code (inr data)) s0 = (Normal tt, s')
          ∧ baseline_of data s0 s'.
Proof.
  intros Hfail s0.
  destruct (rejected_polls (poll (Resolved true code0 (inr [])) s) failures Hfail)
    as (Hfl & Hp & _).
  destruct (accepted_poll [] code0 s) as (Hp0 & Hfl0).
  split; [subst s0; congruence|].
  apply baseline_branch. right. subst s0. rewrite Hp, Hp0. done.
Qed.

(** *** Totality *)

(** A run of the poller returns normally for every response and from
    every state: what the body throws is caught and logged. *)
Lemma fetchChannelsGeo_returns response s :
  ∃ s', fetchChannelsGeo response s = (Normal tt, s').
Proof.
  destruct (log_run ("[API] Fetching Lightning Network channels with geodata from: "
                       +:+ CHANNELS_GEO_API) s) as (s0 & Hlog & Hf0 & _).
  unfold fetchChannelsGeo, try_catch. rewrite (bind_run _ _ _ _ _ Hlog).
  destruct response as [e | [] code [e | data]]; cbn [negb].
  - cbv [throw].
    destruct (log_run ("[API] Error fetching Lightning Network channels-geo: " +:+ e) s0)
      as (s' & -> & _). eauto.
  - cbv [throw].
    destruct (log_run ("[API] Error fetching Lightning Network channels-geo: " +:+ e) s0)
      as (s' & -> & _). eauto.
  - destruct (decide (isFirstLoad s0 = true ∨ prevChannelsRef s0 = [])) as [Hbase|Hdiff].
    + destruct (baseline_branch s data code) as (s' & Hrun & _).
      { destruct Hf0 as (_ & _ & _ & _ & <- & <-). done. }
      unfold fetchChannelsGeo, try_catch in Hrun.
      rewrite (bind_run _ _ _ _ _ Hlog) in Hrun. cbn [negb] in Hrun. eauto.
    + destruct (accept_diff data s0) as (s1 & evs & s2 & s' & _ & _ & -> & _).
      { destruct (isFirstLoad s0); [|done]. exfalso. apply Hdiff. by left. }
      { intros ?. apply Hdiff. by right. }
      eauto.
  - destruct (log_run ("[API] Failed to fetch Lightning Network channels-geo: "
                         +:+ string_of_number code) s0) as (s' & -> & _). eauto.
  - destruct (log_run ("[API] Failed to fetch Lightning Network channels-geo: "
                         +:+ string_of_number code) s0) as (s' & -> & _). eauto.
Qed.

(** *** Admission *)

Lemma admission_run newEvents s :
  ∃ s', admission newEvents s = (Normal tt, s')
        ∧ channelEvents s' = merge (Date_now (clock_reads s)) newEvents (channelEvents s)
        ∧ clock_reads s' = S (clock_reads s).
Proof. destruct s as [ns cs lu lg ce pc fl co ck]. eexists. by split; [js_run|]. Qed.

Lemma merge_length now_ newEvents prev :
  0 < MAX_CHANNEL_EVENTS →
  Z.of_nat (length (merge now_ newEvents prev)) ≤ MAX_CHANNEL_EVENTS.
Proof. intros Hcap. unfold merge. rewrite slice_last_length by done. lia. Qed.

(** After a run of the poller the pending collection is within a
    positive cap if it was before. *)
Lemma poll_within_cap response s :
  0 < MAX_CHANNEL_EVENTS →
  Z.of_nat (length (channelEvents s)) ≤ MAX_CHANNEL_EVENTS →
  Z.of_nat (length (channelEvents (poll response s))) ≤ MAX_CHANNEL_EVENTS.
Proof.
  intros Hcap Hs.
  assert (accepted response ∨ ¬ accepted response) as [Hacc|Hrej].
  { destruct response as [e | [] code [e | data]]; cbn; tauto. }
  - destruct response as [e | [] code [e | data]]; try done.
    destruct (log_run ("[API] Fetching Lightning Network channels with geodata from: "
                         +:+ CHANNELS_GEO_API) s) as (s0 & Hlog & Hf0 & _).
    destruct (decide (isFirstLoad s0 = true ∨ prevChannelsRef s0 = [])) as [Hbase|Hdiff].
    + destruct (baseline_branch s data code) as (s' & Hrun & Hb & _).
      { destruct Hf0 as (_ & _ & _ & _ & <- & <-). done. }
      unfold poll. rewrite Hrun. cbn [snd]. rewrite Hb. cbn. lia.
    + destruct (accept_diff data s0)
        as (s1 & evs & s2 & s' & _ & _ & Hrun & _ & _ & _ & _ & Hce).
      { destruct (isFirstLoad s0); [|done]. exfalso. apply Hdiff. by left. }
      { intros ?. apply Hdiff. by right. }
      unfold poll, fetchChannelsGeo, try_catch.
      rewrite (bind_run _ _ _ _ _ Hlog). cbn [negb]. rewrite Hrun. cbn [snd].
      rewrite Hce. by apply merge_length.
  - destruct (rejected_poll s response Hrej) as (_ & _ & ->). done.
Qed.

Lemma polls_within_cap responses :
  0 < MAX_CHANNEL_EVENTS →
  Z.of_nat (length (channelEvents (polls responses initial))) ≤ MAX_CHANNEL_EVENTS.
Proof.
  intros Hcap. unfold polls.
  induction responses as [|r rs IH] using rev_ind; [cbn; lia|].
  rewrite foldl_snoc. apply poll_within_cap; done.
Qed.

(** X27.  For a positive cap, admission reads the clock once and replaces
    the pending collection by the last [cap] entries of the prior events
    less than 5000 ms old at that reading, in their order, followed by
    the new events: the result is a suffix of that list, as long as the
    cap allows, and no prior event 5000 ms old or older is among the
    survivors.  Hence the pending collection is never longer than the
    cap, after an admission and after any sequence of polls. *)
Theorem admission_window_and_cap :
  0 < MAX_CHANNEL_EVENTS →
  (∀ s newEvents,
     let now_ := Date_now (clock_reads s) in
     let survivors := filter (λ e, now_ - ts e < 5000) (channelEvents s) in
     ∃ s', admission newEvents s = (Normal tt, s')
           ∧ clock_reads s' = S (clock_reads s)
           ∧ (∀ e, e ∈ survivors ↔ e ∈ channelEvents s ∧ ¬ (5000 ≤ now_ - ts e))
           ∧ channelEvents s' `suffix_of` (survivors ++ newEvents)
           ∧ Z.of_nat (length (channelEvents s'))
             = Z.min MAX_CHANNEL_EVENTS (Z.of_nat (length (survivors ++ newEvents)))
           ∧ Z.of_nat (length (channelEvents s')) ≤ MAX_CHANNEL_EVENTS)
  ∧ (∀ responses,
       Z.of_nat (length (channelEvents (polls responses initial))) ≤ MAX_CHANNEL_EVENTS).
Proof.
  intros Hcap. split; [|intros; by apply polls_within_cap].
  intros s newEvents now_ survivors.
  destruct (admission_run newEvents s) as (s' & Hrun & Hce & Hck).
  exists s'. split_and!; [done | done | | | | ].
  - intros e. subst survivors. rewrite list_elem_of_filter. split.
    + intros [? ?]. split; [done | lia].
    + intros [? ?]. split; [lia | done].
  - rewrite Hce. apply slice_last_suffix.
  - rewrite Hce. unfold merge. by apply slice_last_length.
  - rewrite Hce. by apply merge_length.
Qed.

(** X28.  For a positive cap and a previous set that is not empty: when
    the detection loops produce more events than the cap, the guarded
    block returns normally with the last [cap] of them, in their order,
    and the warning is the newest line of the log and the last line of
    the console; and a run of the poller returns normally whatever the
    response. *)
Theorem burst_is_truncated_with_warning (P C : JsSet) s evs s1 :
  0 < MAX_CHANNEL_EVENTS →
  P ≠ [] →
  detect P C s = (Normal evs, s1) →
  MAX_CHANNEL_EVENTS < Z.of_nat (length evs) →
  (∃ kept s2,
     diff P C s = (Normal kept, s2)
     ∧ kept = drop (length evs - Z.to_nat MAX_CHANNEL_EVENTS) evs
     ∧ kept `suffix_of` evs
     ∧ Z.of_nat (length kept) = MAX_CHANNEL_EVENTS
     ∧ head (logs s2) = Some (warning_line s1 (length evs))
     ∧ last (console s2) = Some (warning (length evs)))
  ∧ (∀ response s0, ∃ s', fetchChannelsGeo response s0 = (Normal tt, s')).
Proof.
  intros Hcap Hne Hd Hover. split; [|apply fetchChannelsGeo_returns].
  destruct (limit_over evs s1 Hover) as (s2 & Hl & _ & Hco & Hlg).
  exists (slice_last MAX_CHANNEL_EVENTS evs), s2. split_and!.
  - unfold diff. assert ((0 <? Set_size P) = true) as ->.
    { apply Z.ltb_lt. unfold Set_size. destruct P; [done | cbn; lia]. }
    by rewrite (bind_run _ _ _ _ _ Hd).
  - by apply slice_last_positive.
  - apply slice_last_suffix.
  - rewrite slice_last_length by done. lia.
  - by rewrite Hlg.
  - rewrite Hco. apply last_snoc.
Qed.

(** With a cap of 0 neither [slice(-MAX_CHANNEL_EVENTS)] drops anything:
    the burst limit logs its warning and returns every event, and
    admission keeps every survivor and every new event. *)
Lemma limit_at_zero_cap newEvents s :
  MAX_CHANNEL_EVENTS = 0 → newEvents ≠ [] →
  ∃ s', limit newEvents s = (Normal newEvents, s')
        ∧ console s' = console s ++ [warning (length newEvents)].
Proof.
  intros Hcap Hne.
  destruct (limit_over newEvents s) as (s' & Hrun & _ & Hco & _).
  { rewrite Hcap. destruct newEvents; [done | cbn; lia]. }
  exists s'. split; [|done]. rewrite Hrun, Hcap, slice_last_zero. done.
Qed.

Lemma merge_at_zero_cap now_ newEvents prev :
  MAX_CHANNEL_EVENTS = 0 →
  merge now_ newEvents prev = filter (λ e, now_ - ts e < 5000) prev ++ newEvents.
Proof. intros Hcap. unfold merge. rewrite Hcap. apply slice_last_zero. Qed.

(** C10.  In the list the detection loops produce, every [open] event
    comes before every [closed] event.  The burst limit returns a suffix
    of that list, so it drops [open] events first: if a [closed] event is
    among the dropped ones, every event kept is [closed]. *)
Theorem opens_precede_closed (P C : JsSet) s :
  ∃ evs s1,
    detect P C s = (Normal evs, s1)
    ∧ (∀ i j ei ej,
         evs !! i = Some ei → evs !! j = Some ej →
         event_status ei = open → event_status ej = closed → (i < j)%nat)
    ∧ ∃ dropped kept s2,
        limit evs s1 = (Normal kept, s2)
        ∧ evs = dropped ++ kept
        ∧ ((∃ e, e ∈ dropped ∧ event_status e = closed) →
           ∀ e, e ∈ kept → event_status e = closed).
Proof.
  destruct (detect_run P C s) as (opened & closed_ & s1 & Hd & _ & Hko & Hkc).
  assert (∀ e, e ∈ opened → event_status e = open) as Hopen.
  { intros e He. apply (list_elem_of_fmap_2 key) in He. rewrite Hko in He.
    unfold opened_keys in He. apply list_elem_of_fmap in He as (id & Heq & _).
    unfold key in Heq. congruence. }
  assert (∀ e, e ∈ closed_ → event_status e = closed) as Hclosed.
  { intros e He. apply (list_elem_of_fmap_2 key) in He. rewrite Hkc in He.
    unfold closed_keys in He. apply list_elem_of_fmap in He as (id & Heq & _).
    unfold key in Heq. congruence. }
  exists (opened ++ closed_), s1. split; [done|]. split.
  - intros i j ei ej Hi Hj Hsi Hsj.
    apply lookup_app_Some in Hi as [Hi | [Hge Hi]].
    + apply lookup_app_Some in Hj as [Hj | [Hge Hj]].
      * apply list_elem_of_lookup_2, Hopen in Hj. congruence.
      * apply lookup_lt_Some in Hi. lia.
    + apply list_elem_of_lookup_2, Hclosed in Hi. congruence.
  - destruct (limit_run (opened ++ closed_) s1) as (kept & s2 & Hl & _ & [dropped Hsuf]).
    exists dropped, kept, s2. split_and!; [done | done |].
    intros (e & He & Hst) e' He'.
    symmetry in Hsuf. apply app_eq_inv in Hsuf as [(m & -> & ->) | (m & -> & ->)].
    + apply Hclosed. apply elem_of_app. by right.
    + exfalso. assert (event_status e = open) as Ho; [|congruence].
      apply Hopen. apply elem_of_app. by left.
Qed.

End AppFacts.

(** ** The redraw *)

Section GraphFacts.
Import JS LightningGraph.
Context `{Host} `{D3}.
Implicit Types (s : State) (p : Props).

Global Instance surface_refl : Reflexive surface.
Proof. by repeat split. Qed.

Global Instance surface_trans : Transitive surface.
Proof. unfold surface. intros s1 s2 s3 (?&?&?&?) (?&?&?&?). split_and!; congruence. Qed.

Global Instance sampling_refl : Reflexive sampling.
Proof. by repeat split. Qed.

Global Instance sampling_trans : Transitive sampling.
Proof.
  unfold sampling. intros s1 s2 s3 (?&?&?&?) (?&?&?&?).
  split_and!; [by trans s2 | congruence..].
Qed.

Lemma random_run s :
  ∃ s', random s = (Normal (Math_random (random_reads s)), s') ∧ sampling s s'
        ∧ random_reads s' = S (random_reads s).
Proof. eexists. split; [reflexivity|]. by repeat split. Qed.

(** *** The sound cue *)

(** The cue is played exactly when more than 1000 ms separate the clock
    reading from the time of the last cue played. *)
Lemma playLightningSound_run s :
  let now_ := Date_now (clock_reads s) in
  ∃ s', playLightningSound s = (Normal tt, s') ∧ surface s s'
        ∧ random_reads s' = random_reads s
        ∧ clock_reads s' = S (clock_reads s)
        ∧ if 1000 <? now_ - lastSoundTimeRef s
          then played s' = played s ++ [now_] ∧ lastSoundTimeRef s' = now_
          else played s' = played s ∧ lastSoundTimeRef s' = lastSoundTimeRef s.
Proof.
  intros now_. destruct s as [w d l r g pl ck rd]. subst now_. cbn [clock_reads lastSoundTimeRef].
  unfold playLightningSound, now.
  cbv beta iota zeta delta [mbind M_bind bind mret M_ret ret gets modify
    audio_play set_lastSoundTimeRef clock_reads lastSoundTimeRef].
  destruct (1000 <? Date_now ck - l); eexists; (split; [reflexivity|]); by repeat split.
Qed.

Lemma spaced_snoc l t :
  spaced l → Forall (λ t', 1000 < t - t') l → spaced (l ++ [t]).
Proof.
  induction l as [|t0 l IH]; intros Hl Ht; cbn; [done|].
  destruct Hl as [Hall Hl]. apply Forall_cons in Ht as [Ht0 Ht]. split.
  - apply Forall_app. split; [done|]. by apply Forall_singleton.
  - by apply IH.
Qed.

Lemma spaced_lookup l i j ti tj :
  spaced l → (i < j)%nat → l !! i = Some ti → l !! j = Some tj → 1000 < tj - ti.
Proof.
  revert i j. induction l as [|t l IH]; intros i j Hl Hij Hi Hj; [done|].
  destruct Hl as [Hall Hl]. destruct j as [|j]; [lia|]. cbn in Hj.
  destruct i as [|i].
  - cbn in Hi. injection Hi as ->.
    by apply (proj1 (Forall_lookup _ _) Hall j tj).
  - cbn in Hi. apply (IH i j); [done | lia | done | done].
Qed.

Lemma spaced_last l t :
  spaced l → t ∈ l → t ≤ default 0 (last l).
Proof.
  revert t. induction l as [|t0 l IH]; intros t Hl Hin; [by apply elem_of_nil in Hin|].
  destruct Hl as [Hall Hl]. destruct l as [|t1 l]; cbn.
  - apply list_elem_of_singleton in Hin as ->. lia.
  - change (last (t0 :: t1 :: l)) with (last (t1 :: l)).
    apply elem_of_cons in Hin as [->|Hin]; [|by apply IH].
    assert (t1 ≤ default 0 (last (t1 :: l))) by (apply IH; [done | apply list_elem_of_here]).
    apply Forall_cons in Hall as [? _]. lia.
Qed.

(** In a spaced list, no window of 1000 ms holds two time stamps. *)
Lemma spaced_window l (w : Z) :
  spaced l → (length (filter (λ t, (w ≤ t ≤ w + 1000)%Z) l) ≤ 1)%nat.
Proof.
  induction l as [|t l IH]; intros Hl; [cbn; lia|].
  destruct Hl as [Hall Hl]. rewrite filter_cons. case_decide as Ht; [|by apply IH].
  assert (filter (λ t, w ≤ t ≤ w + 1000) l = []) as ->; [|cbn; lia].
  clear IH Hl. induction Hall as [|t' l Ht' _ IH]; [done|].
  rewrite filter_cons, decide_False by lia. exact IH.
Qed.

Lemma playLightningSound_throttled s s' :
  playLightningSound s = (Normal tt, s') → throttled s → throttled s'.
Proof.
  intros Hrun [Hsp Hlast].
  destruct (playLightningSound_run s) as (s'' & Hrun' & _ & _ & _ & Hplay).
  rewrite Hrun in Hrun'. injection Hrun' as <-.
  destruct (1000 <? Date_now (clock_reads s) - lastSoundTimeRef s) eqn:Hcool.
  - destruct Hplay as [Hpl Hl]. apply Z.ltb_lt in Hcool. split.
    + rewrite Hpl. apply spaced_snoc; [done|]. apply Forall_forall. intros t Ht.
      pose proof (spaced_last _ _ Hsp Ht). lia.
    + rewrite Hpl, last_snoc. done.
  - destruct Hplay as [Hpl Hl]. split; congruence.
Qed.

Global Instance animating_refl : Reflexive animating.
Proof. intros s. split; [reflexivity | done]. Qed.

Global Instance animating_trans : Transitive animating.
Proof.
  unfold animating. intros s1 s2 s3 (?&?) (?&?). split; [by trans s2 | auto].
Qed.

Lemma sampling_sounding s s' : sampling s s' → sounding s s'.
Proof.
  intros (? & Hl & Hp & _). split; [done|]. split; [|by left].
  unfold throttled. by rewrite Hl, Hp.
Qed.

Lemma sounding_animating s s' : sounding s s' → animating s s'.
Proof. intros (? & ? & _). by split. Qed.

Lemma playLightningSound_sounding : returns sounding playLightningSound.
Proof.
  intros s. destruct (playLightningSound_run s) as (s' & Hrun & Hsurf & _ & _ & Hplay).
  exists tt, s'. split; [done|]. split; [done|].
  split; [by apply playLightningSound_throttled|].
  destruct (1000 <? _); destruct Hplay as [-> _]; eauto.
Qed.

(** *** The polyline *)

(** The loop of the polyline, for the samples it consumes. *)
Lemma lightningPoints_loop (sx sy tx ty : Q) (xs : list Z) acc s :
  ∃ s',
    for_of xs (λ (points : list (Q * Q)) (i : Z),
      let t := Number.div (inject_Z i) (inject_Z 7) in
      rx ← random;
      let x := Number.add (Number.add sx (Number.mul (Number.sub tx sx) t))
                          (Number.mul (Number.sub rx (1 # 2)) 18) in
      ry ← random;
      let y := Number.add (Number.add sy (Number.mul (Number.sub ty sy) t))
                          (Number.mul (Number.sub ry (1 # 2)) 18) in
      mret (points ++ [(x, y)])) acc s
    = (Normal (acc ++ jitters (sx, sy) (tx, ty) (random_reads s) xs), s')
    ∧ sampling s s'
    ∧ random_reads s' = (random_reads s + 2 * length xs)%nat.
Proof.
  set (body := λ (points : list (Q * Q)) (i : Z), _).
  revert acc s. induction xs as [|i xs IH]; intros acc s.
  - exists s. rewrite app_nil_r. split_and!; [done | done | cbn; lia].
  - destruct (random_run s) as (s1 & Hr1 & Hs1 & Hk1).
    destruct (random_run s1) as (s2 & Hr2 & Hs2 & Hk2).
    destruct (IH (acc ++ [jittered (sx, sy) (tx, ty) i (Math_random (random_reads s))
                            (Math_random (S (random_reads s)))]) s2)
      as (s' & Hrun & Hs' & Hk').
    assert (body acc i s
            = (Normal (acc ++ [jittered (sx, sy) (tx, ty) i (Math_random (random_reads s))
                                 (Math_random (S (random_reads s)))]), s2)) as Hbody.
    { unfold body. rewrite (bind_run _ _ _ _ _ Hr1), (bind_run _ _ _ _ _ Hr2), Hk1.
      reflexivity. }
    exists s'. split_and!.
    + change (for_of (i :: xs) body acc s)
        with ((body acc i ≫= λ acc1, for_of xs body acc1) s).
      rewrite (bind_run _ _ _ _ _ Hbody), Hrun, Hk2, Hk1, <- (assoc_L (++)). done.
    + trans s1; [done|]. by trans s2.
    + rewrite Hk', Hk2, Hk1. cbn [length]. lia.
Qed.

Lemma lightningPoints_exact (a b : Q * Q) s :
  ∃ s',
    lightningPoints a b s
    = (Normal (a :: jitters a b (random_reads s) [1; 2; 3; 4; 5; 6] ++ [b]), s')
    ∧ random_reads s' = (random_reads s + 12)%nat
    ∧ sampling s s'.
Proof.
  destruct a as [sx sy], b as [tx ty]. unfold lightningPoints.
  change (seqZ 1 (7 - 1)) with [1; 2; 3; 4; 5; 6].
  destruct (lightningPoints_loop sx sy tx ty [1; 2; 3; 4; 5; 6] [(sx, sy)] s)
    as (s' & Hrun & Hs & Hk).
  exists s'. split_and!; [| by rewrite Hk | done].
  rewrite (bind_run _ _ _ _ _ Hrun). done.
Qed.

(** The polyline starts at the first point and ends at the second, with
    six points in between; drawing it only consumes random samples. *)
Lemma lightningPoints_run (a b : Q * Q) s :
  ∃ pts s', lightningPoints a b s = (Normal pts, s') ∧ sampling s s'
            ∧ head pts = Some a ∧ last pts = Some b ∧ length pts = 8%nat.
Proof.
  destruct (lightningPoints_exact a b s) as (s' & Hrun & _ & Hs).
  eexists _, s'. split_and!; [exact Hrun | exact Hs | reflexivity | | reflexivity].
  rewrite app_comm_cons. apply last_snoc.
Qed.

Lemma returns_weaken {A} (R R' : State → State → Prop) (m : M State A) :
  (∀ s s', R s s' → R' s s') → returns R m → returns R' m.
Proof.
  intros HR Hm s. destruct (Hm s) as (a & s' & Hrun & Hs). eauto.
Qed.

Lemma sampling_animating s s' : sampling s s' → animating s s'.
Proof. intros Hs. by apply sounding_animating, sampling_sounding. Qed.

Lemma lightningPoints_sampling a b : returns sampling (lightningPoints a b).
Proof.
  intros s. destruct (lightningPoints_run a b s) as (pts & s' & Hrun & Hs & _). eauto.
Qed.

(** *** The three animations *)

Lemma animateChannelEventId_animating p nodeMap :
  returns animating (animateChannelEventId p nodeMap).
Proof.
  unfold animateChannelEventId.
  repeat case_match; try apply (returns_ret animating).
  apply (returns_bind animating).
  - apply (returns_weaken sounding); [apply sounding_animating|].
    apply playLightningSound_sounding.
  - intros []. apply (returns_bind animating).
    + apply (returns_weaken sampling); [apply sampling_animating|].
      apply lightningPoints_sampling.
    + intros pts. apply (returns_ret animating).
Qed.

(** A batch of pending effects, however long, plays the cue at most
    once. *)
Lemma animateChannelEvents_sounding p nodeMap :
  returns sounding (animateChannelEvents p nodeMap).
Proof.
  intros s. unfold animateChannelEvents.
  destruct (0 <? Z.of_nat (length (channelEvents_or_default p)));
    [|exists [], s; split; [done|]; by apply sampling_sounding].
  set (limitedEvents := slice_last _ _).
  assert (∃ s1, (if 0 <? Z.of_nat (length limitedEvents)
                 then playLightningSound else mret tt) s = (Normal tt, s1)
                ∧ sounding s s1) as (s1 & Hplay & Hs1).
  { destruct (0 <? Z.of_nat (length limitedEvents)).
    - destruct (playLightningSound_sounding s) as ([] & s1 & ? & ?). eauto.
    - exists s. split; [done|]. by apply sampling_sounding. }
  rewrite (bind_run _ _ _ _ _ Hplay).
  match goal with
  | |- context [for_of limitedEvents ?body []] =>
      destruct (returns_for_of sampling (λ _ : list Polyline, True)
                  limitedEvents body [] s1 I) as (drawn & s2 & Hloop & Hs2 & _)
  end.
  { clear Hplay. intros acc event s0 _. cbn beta.
    repeat case_match; try (exists acc, s0; done).
    match goal with
    | |- context [lightningPoints ?a ?b] =>
        destruct (lightningPoints_run a b s0) as (pts & s' & Hrun & Hs & _)
    end.
    eexists _, s'. rewrite (bind_run _ _ _ _ _ Hrun). done. }
  exists drawn, s2. split; [exact Hloop|].
  destruct Hs1 as (Hsurf & Hthr & Hpl). destruct Hs2 as (Hsurf2 & Hl2 & Hp2 & _).
  split; [by trans s1|]. split.
  - intros Ht. specialize (Hthr Ht). unfold throttled. by rewrite Hl2, Hp2.
  - rewrite Hp2. done.
Qed.

(** The two indices of the debug animation. *)
Lemma debugIndices_run (n : nat) s :
  let idx1 := floor_times (Math_random (random_reads s)) n in
  let idx2 := floor_times (Math_random (S (random_reads s))) n in
  ∃ s', debugIndices n s
        = (Normal (idx1, if bool_decide (idx1 = idx2)
                         then rem (idx2 + 1) n else Some idx2), s')
        ∧ sampling s s'.
Proof.
  intros idx1 idx2. unfold debugIndices.
  destruct (random_run s) as (s1 & Hr1 & Hs1 & Hk1).
  destruct (random_run s1) as (s2 & Hr2 & Hs2 & _).
  exists s2. rewrite (bind_run _ _ _ _ _ Hr1), (bind_run _ _ _ _ _ Hr2), Hk1.
  fold idx1 idx2. split; [by destruct (bool_decide (idx1 = idx2))|]. by trans s1.
Qed.

Lemma debugLightning_animating p nodePositions :
  returns animating (debugLightning p nodePositions).
Proof.
  unfold debugLightning.
  repeat case_match; try apply (returns_ret animating).
  apply (returns_bind animating).
  - intros s. destruct (debugIndices_run (length nodePositions) s) as (s' & Hrun & Hs).
    eexists _, s'. split; [exact Hrun|]. by apply sampling_animating.
  - intros [idx1 idx2]. repeat case_match; try apply (returns_ret animating).
    apply (returns_bind animating).
    + apply (returns_weaken sounding); [apply sounding_animating|].
      apply playLightningSound_sounding.
    + intros []. apply (returns_bind animating).
      * apply (returns_weaken sampling); [apply sampling_animating|].
        apply lightningPoints_sampling.
      * intros pts. apply (returns_ret animating).
Qed.

(** *** A redraw *)

Lemma redraw_detached p s : svgRef s = false → redraw p s = (Normal tt, s).
Proof.
  intros Hsvg. unfold redraw.
  rewrite (bind_run (gets svgRef) _ s (svgRef s) s eq_refl), Hsvg. done.
Qed.

(** With the [svg] attached, a redraw returns normally and replaces the
    group: one circle for every node, at its position, and the polylines
    of the three animations; it leaves the atlas and the canvas alone and
    keeps the invariant of the sound cue. *)
Lemma redraw_run p s :
  svgRef s = true →
  ∃ g s', redraw p s = (Normal tt, s')
          ∧ zoom_group s' = Some g
          ∧ circles g = marker <$> nodePositions_of s p
          ∧ world s' = world s ∧ dimensions s' = dimensions s ∧ svgRef s' = svgRef s
          ∧ (throttled s → throttled s').
Proof.
  intros Hsvg. unfold redraw, nodePositions_of.
  rewrite (bind_run (gets svgRef) _ s (svgRef s) s eq_refl), Hsvg. cbn [negb].
  rewrite (bind_run (gets dimensions) _ s (dimensions s) s eq_refl).
  destruct (dimensions s) as [width height] eqn:Hdim.
  rewrite (bind_run (gets world) _ s (world s) s eq_refl).
  set (projection := geoMercator_fitSize width height _).
  set (nodePositions := position projection width height <$> nodes p).
  destruct (animateChannelEventId_animating p (nodeMap_of nodePositions) s)
    as (byId & s1 & H1 & Hsurf1 & Hthr1).
  rewrite (bind_run _ _ _ _ _ H1).
  destruct (debugLightning_animating p nodePositions s1)
    as (debug & s2 & H2 & Hsurf2 & Hthr2).
  rewrite (bind_run _ _ _ _ _ H2).
  destruct (animateChannelEvents_sounding p (nodeMap_of nodePositions) s2)
    as (batch & s3 & H3 & Hsurf3 & Hthr3 & _).
  rewrite (bind_run _ _ _ _ _ H3).
  assert (surface s s3) as (Hw & Hd & Hr & _) by (trans s1; [done|]; by trans s2).
  destruct s3 as [w3 d3 l3 r3 g3 pl3 ck3 rd3]. cbn in Hw, Hd, Hr.
  eexists _, _. split; [reflexivity|]. cbn.
  split_and!; [reflexivity | reflexivity | done | congruence | congruence |].
  intros Ht. exact (Hthr3 (Hthr2 (Hthr1 Ht))).
Qed.

(** *** A session *)


Lemma step_throttled s a : throttled s → throttled (step s a).
Proof.
  intros Ht. destruct a as [p | countries | width height]; cbn [step].
  - destruct (svgRef s) eqn:Hsvg.
    + destruct (redraw_run p s Hsvg) as (g & s' & -> & _ & _ & _ & _ & _ & Hthr).
      by apply Hthr.
    + by rewrite redraw_detached.
  - destruct s. exact Ht.
  - destruct s. exact Ht.
Qed.

Lemma run_throttled actions s : throttled s → throttled (run actions s).
Proof.
  revert s. induction actions as [|a actions IH]; intros s Ht; [done|].
  apply IH, step_throttled, Ht.
Qed.

Lemma mount_throttled width height : throttled (mount width height).
Proof. by split. Qed.

(** C4.  From the mounted component and through every sequence of
    redraws (with any props, hence any batches of pending events, any
    channel-event id and any debug trigger), atlas loads and resizes, and
    for every clock: any two cues played are more than 1000 ms apart, so a
    window of 1000 ms holds at most one, and the reference holds the time
    of the last cue played.  A batch of pending effects, however long,
    plays at most one cue.  An attempt, which all three animations make
    through the one helper, plays the cue exactly when more than 1000 ms
    separate the clock reading from the last cue played, and is
    suppressed otherwise. *)
Theorem at_most_one_cue_per_window :
  (∀ width height actions,
     let s := run actions (mount width height) in
     (∀ i j ti tj, (i < j)%nat → played s !! i = Some ti → played s !! j = Some tj →
                   1000 < tj - ti)
     ∧ (∀ w : Z, (length (filter (λ t, (w ≤ t ≤ w + 1000)%Z) (played s)) ≤ 1)%nat)
     ∧ lastSoundTimeRef s = default 0 (last (played s)))
  ∧ (∀ p nodeMap s,
       ∃ drawn s', animateChannelEvents p nodeMap s = (Normal drawn, s')
                   ∧ (played s' = played s ∨ ∃ t, played s' = played s ++ [t]))
  ∧ (∀ s, let now_ := Date_now (clock_reads s) in
       ∃ s', playLightningSound s = (Normal tt, s')
             ∧ played s' = (if 1000 <? now_ - lastSoundTimeRef s
                            then played s ++ [now_] else played s)).
Proof.
  split_and!.
  - intros width height actions s.
    destruct (run_throttled actions _ (mount_throttled width height)) as [Hsp Hlast].
    fold s in Hsp, Hlast. split_and!; [|intros w; by apply spaced_window|done].
    intros i j ti tj. by apply spaced_lookup.
  - intros p nodeMap s.
    destruct (animateChannelEvents_sounding p nodeMap s) as (drawn & s' & Hrun & _ & _ & Hpl).
    eauto.
  - intros s now_. destruct (playLightningSound_run s) as (s' & Hrun & _ & _ & _ & Hplay).
    exists s'. split; [done|]. fold now_ in Hplay.
    destruct (1000 <? now_ - lastSoundTimeRef s); by destruct Hplay.
Qed.

(** *** The debug trigger *)


(** Without nodes, both look-ups fail and nothing is drawn. *)
Lemma debugLightning_no_nodes p s :
  ∃ s', debugLightning p [] s = (Normal [], s').
Proof.
  unfold debugLightning. destruct (triggerDebugLightning p) as [trigger|]; [|by eexists].
  destruct (0 <? trigger); [|by eexists].
  destruct (debugIndices_run 0 s) as (s' & Hidx & _).
  exists s'. cbn [length]. rewrite (bind_run _ _ _ _ _ Hidx).
  rewrite floor_times_zero. done.
Qed.

(** With a single node, the two indices coincide: the cyclic advance
    of index 0 in a list of length 1 is 0 again. *)
Lemma debugIndices_single_node s :
  ∃ s', debugIndices 1 s = (Normal (0, Some 0), s').
Proof.
  destruct (debugIndices_run 1 s) as (s' & Hidx & _). exists s'. rewrite Hidx.
  destruct (Math_random_range (random_reads s)) as [Ha Ha'].
  destruct (Math_random_range (S (random_reads s))) as [Hb Hb'].
  assert (floor_times (Math_random (random_reads s)) 1 = 0) as ->.
  { pose proof (floor_times_range _ 1 Ha Ha'). lia. }
  assert (floor_times (Math_random (S (random_reads s))) 1 = 0) as ->.
  { pose proof (floor_times_range _ 1 Hb Hb'). lia. }
  done.
Qed.


End GraphFacts.

(** ** The projection *)

Section ProjectionFacts.
Import JS LightningGraph.
Context `{D3}.

Lemma marker_position (d : Positioned) : cx (marker d) = node_x d ∧ cy (marker d) = node_y d.
Proof. unfold marker. by repeat case_match. Qed.

(** Filtering the atlas a second time changes nothing: the redraw
    filters the features the loader has already filtered. *)
Lemma without_Antarctica_idempotent features :
  without_Antarctica (without_Antarctica features) = without_Antarctica features.
Proof.
  unfold without_Antarctica. induction features as [|f features IH]; [done|].
  cbn. destruct (is_Antarctica f) eqn:Hf; cbn; [done|]. by rewrite Hf, IH.
Qed.

Lemma without_Antarctica_excludes features f :
  f ∈ without_Antarctica features → is_Antarctica f = false.
Proof.
  unfold without_Antarctica. rewrite list_elem_of_In, List.filter_In.
  intros [_ Hf]. by apply negb_true_iff.
Qed.

Lemma nodePositions_of_lookup s p i n :
  nodes p !! i = Some n →
  ∃ d, nodePositions_of s p !! i = Some d ∧ (node_x d, node_y d) = expected_position s n.
Proof.
  intros Hn. unfold nodePositions_of, expected_position.
  destruct (dimensions s) as [width height].
  rewrite list_lookup_fmap, Hn. eexists. split; [reflexivity|].
  unfold position. destruct (geo n) as [g|]; [|done].
  by destruct (default _ _).
Qed.

(** C8.  Two redraws, under any two clocks and random sources and from
    any two states of the component with the [svg] attached, that agree
    on the canvas size, on the atlas once Antarctica is removed and on the
    node list, return normally and draw the same circles: the position
    of a node is a function of the canvas size, the filtered atlas and the
    node alone.  It is the centre of the canvas for a node without geo
    data, and the projection of its [(lon, lat)], fitted to the canvas and
    to the filtered atlas, for a node with geo data. *)
Theorem projection_is_deterministic (h1 h2 : Host) (p1 p2 : Props) (s1 s2 : State) :
  svgRef s1 = true → svgRef s2 = true →
  dimensions s1 = dimensions s2 →
  without_Antarctica <$> world s1 = without_Antarctica <$> world s2 →
  nodes p1 = nodes p2 →
  ∃ g1 g2 s1' s2',
    @redraw h1 _ p1 s1 = (Normal tt, s1') ∧ zoom_group s1' = Some g1
    ∧ @redraw h2 _ p2 s2 = (Normal tt, s2') ∧ zoom_group s2' = Some g2
    ∧ circles g1 = circles g2
    ∧ ∀ i n, nodes p1 !! i = Some n →
        ∃ c, circles g1 !! i = Some c
             ∧ (cx c, cy c) = expected_position s1 n
             ∧ (geo n = None →
                cx c = (fst (dimensions s1) / 2)%Q ∧ cy c = (snd (dimensions s1) / 2)%Q).
Proof.
  intros Hsvg1 Hsvg2 Hdim Hworld Hnodes.
  destruct (@redraw_run h1 _ p1 s1 Hsvg1) as (g1 & s1' & Hrun1 & Hg1 & Hc1 & _).
  destruct (@redraw_run h2 _ p2 s2 Hsvg2) as (g2 & s2' & Hrun2 & Hg2 & Hc2 & _).
  exists g1, g2, s1', s2'. split_and!; [done..| |].
  - rewrite Hc1, Hc2. unfold nodePositions_of. by rewrite Hdim, Hworld, Hnodes.
  - intros i n Hn. destruct (nodePositions_of_lookup s1 p1 i n Hn) as (d & Hd & Hpos).
    exists (marker d). rewrite Hc1, list_lookup_fmap, Hd.
    destruct (marker_position d) as [-> ->]. split_and!; [done | done |].
    intros Hgeo. unfold expected_position in Hpos. rewrite Hgeo in Hpos.
    destruct (dimensions s1) as [width height]. by injection Hpos as -> ->.
Qed.

End ProjectionFacts.

(** ** The viewport *)

Section ViewportFacts.
Import Viewport.

Lemma clamp_range (lo hi q : Q) : (lo <= hi)%Q → (lo <= clamp (lo, hi) q <= hi)%Q.
Proof.
  intros Hle. unfold clamp. cbn. split.
  - apply Q.le_max_l.
  - apply Q.max_lub; [done | apply Q.le_min_l].
Qed.

Lemma gesture_within t event : within_extent t → within_extent (gesture zoom t event).
Proof.
  intros Ht. unfold gesture. destruct (filter zoom event); [|done].
  unfold within_extent. cbn [k]. apply (clamp_range (1 # 2) 10). done.
Qed.

Lemma step_within s a : within_extent (transform s) → within_extent (transform (step s a)).
Proof.
  intros Hs. destruct a as [svgRef group_exists | event]; cbn [step].
  - unfold install. by destruct (svgRef && group_exists).
  - unfold onInput. destruct (installed s && filter zoom event); [|done].
    cbn [transform]. by apply gesture_within.
Qed.

Lemma foldl_step_within actions s :
  within_extent (transform s) → within_extent (transform (foldl step s actions)).
Proof.
  revert s. induction actions as [|a actions IH]; intros s Hs; [done|].
  cbn [foldl]. by apply IH, step_within.
Qed.

Lemma step_not_wheel s a : is_wheel a = false → step s a = s.
Proof.
  destruct a as [svgRef group_exists | event]; [done|]. cbn [is_wheel step].
  intros Hw. unfold onInput. cbn [filter zoom]. rewrite Hw.
  by rewrite andb_false_r.
Qed.

Lemma foldl_step_wheel_only actions s :
  foldl step s actions = foldl step s (List.filter is_wheel actions).
Proof.
  revert s. induction actions as [|a actions IH]; intros s; [done|].
  cbn [foldl List.filter]. destruct (is_wheel a) eqn:Hw.
  - cbn [foldl]. apply IH.
  - rewrite step_not_wheel by done. apply IH.
Qed.

(** C5.  Through every sequence of runs of the effect and of input
    events, whatever their types and however large the factors they ask
    for, the scale of the zoom transform stays within [[0.5, 10]]; and
    the viewport is the one the sequence gives once every input event that
    is not a wheel event is removed from it, so only wheel input changes
    the transform. *)
Theorem zoom_scale_stays_in_range (actions : list Action) :
  ((1 # 2) <= k (transform (run actions)) <= 10)%Q
  ∧ run actions = run (List.filter is_wheel actions)
  ∧ ∀ s event,
      onInput event s
      = if bool_decide (event_type event = "wheel") then onInput event s else s.
Proof.
  split; [|split].
  - apply (foldl_step_within actions initial). unfold within_extent. cbn.
    split; discriminate.
  - apply foldl_step_wheel_only.
  - intros s event. case_bool_decide as Hw; [reflexivity|].
    apply (step_not_wheel s (Input event)). cbn. by apply bool_decide_eq_false.
Qed.

End ViewportFacts.


(** ** Invariants of a computation *)

Section Preserves.
Context {S : Type} (R : S → S → Prop) `{!Reflexive R, !Transitive R}.

Lemma preserves_ret {A} (a : A) : preserves R (mret a).
Proof. intros s. reflexivity. Qed.

Lemma preserves_throw {A} (e : string) : preserves R (throw (A:=A) e).
Proof. intros s. reflexivity. Qed.

Lemma preserves_gets {A} (f : S → A) : preserves R (gets f).
Proof. intros s. reflexivity. Qed.

Lemma preserves_bind {A B} (m : M S A) (f : A → M S B) :
  preserves R m → (∀ a, preserves R (f a)) → preserves R (m ≫= f).
Proof.
  intros Hm Hf s. specialize (Hm s).
  unfold mbind, M_bind, bind. destruct (m s) as [[a|e] s1]; cbn in *.
  - trans s1; [done | apply Hf].
  - done.
Qed.

Lemma preserves_try_catch {A} (body : M S A) (handler : string → M S A) :
  preserves R body → (∀ e, preserves R (handler e)) →
  preserves R (try_catch body handler).
Proof.
  intros Hb Hh s. specialize (Hb s).
  unfold try_catch. destruct (body s) as [[a|e] s1]; cbn in *.
  - done.
  - trans s1; [done | apply Hh].
Qed.

Lemma preserves_for_of {A B} (xs : list A) (body : B → A → M S B) acc :
  (∀ acc x, preserves R (body acc x)) → preserves R (for_of xs body acc).
Proof.
  intros Hbody. revert acc. induction xs as [|x xs IH]; intros acc.
  - apply preserves_ret.
  - cbn [for_of]. apply preserves_bind; [apply Hbody | apply IH].
Qed.

End Preserves.

Global Instance keeping_refl {S} (I : S → Prop) : Reflexive (keeping I).
Proof. intros s Hs. exact Hs. Qed.

Global Instance keeping_trans {S} (I : S → Prop) : Transitive (keeping I).
Proof. unfold keeping. intros s1 s2 s3. auto. Qed.

(** ** More on the poller *)

Section PollerFacts.
Import JS App.
Context `{Host} `{ImportMetaEnv}.
Implicit Types (s : State) (data : list Entry).

(** Symbolic execution of the straight-line code of the poller, on a
    state given by its fields. *)
Ltac poller_run :=
  cbv beta iota zeta delta
    [mbind M_bind bind mret M_ret ret modify gets throw try_catch
     fetchChannelsGeo accept log now console_log setLogs setNodes setChannels
     setLastUpdate setChannelEvents set_prevChannelsRef set_isFirstLoad admission
     poll nodes channels lastUpdate logs channelEvents prevChannelsRef
     isFirstLoad console clock_reads fst snd negb].

(** A relation that every write of the poller respects is respected by a
    run of the poller, whatever the response. *)
Lemma fetchChannelsGeo_preserves (R : State → State → Prop)
    `{!Reflexive R, !Transitive R} response :
  (∀ msg, preserves R (log msg)) →
  preserves R now →
  (∀ v, preserves R (setNodes v)) →
  (∀ v, preserves R (setChannels v)) →
  (∀ v, preserves R (setLastUpdate v)) →
  (∀ f, preserves R (setChannelEvents f)) →
  (∀ v, preserves R (set_prevChannelsRef v)) →
  (∀ v, preserves R (set_isFirstLoad v)) →
  preserves R (fetchChannelsGeo response).
Proof.
  intros Hlog Hnow Hn Hc Hu He Hp Hf.
  assert (∀ P C acc, preserves R (detect_opened P C acc)) as Hopened.
  { intros P C acc. apply preserves_for_of; [done..|]. intros acc' id.
    destruct (negb _); [|by apply preserves_ret].
    apply preserves_bind; [done.. | apply Hlog |]. intros _.
    apply preserves_bind; [done.. | apply Hnow |]. intros t. by apply preserves_ret. }
  assert (∀ P C acc, preserves R (detect_closed P C acc)) as Hclosed.
  { intros P C acc. apply preserves_for_of; [done..|]. intros acc' id.
    destruct (negb _); [|by apply preserves_ret].
    apply preserves_bind; [done.. | apply Hlog |]. intros _.
    apply preserves_bind; [done.. | apply Hnow |]. intros t. by apply preserves_ret. }
  assert (∀ P C, preserves R (diff P C)) as Hdiff.
  { intros P C. unfold diff. destruct (0 <? _); [|by apply preserves_ret].
    apply preserves_bind; [done.. | |].
    - unfold detect. apply preserves_bind; [done.. | apply Hopened |]. intros evs. apply Hclosed.
    - intros evs. unfold limit. destruct (_ <? _); [|by apply preserves_ret].
      apply preserves_bind; [done.. | apply Hlog |]. intros _. by apply preserves_ret. }
  assert (∀ data, preserves R (accept data)) as Haccept.
  { intros data. unfold accept.
    apply preserves_bind; [done.. | apply Hlog |]. intros _.
    apply preserves_bind; [done.. | by apply preserves_gets |]. intros P.
    apply preserves_bind; [done.. | by apply preserves_gets |]. intros first.
    destruct (first || _).
    - repeat lazymatch goal with
             | |- preserves _ (mbind _ _) => apply preserves_bind; [done.. | | intros ?]
             | |- preserves _ (log _) => apply Hlog
             | |- preserves _ now => apply Hnow
             | |- preserves _ (setNodes _) => apply Hn
             | |- preserves _ (setChannels _) => apply Hc
             | |- preserves _ (setLastUpdate _) => apply Hu
             | |- preserves _ (setChannelEvents _) => apply He
             | |- preserves _ (set_prevChannelsRef _) => apply Hp
             | |- preserves _ (set_isFirstLoad _) => apply Hf
             end.
    - apply preserves_bind; [done.. | apply Hdiff |]. intros evs.
      unfold admission.
      repeat lazymatch goal with
             | |- preserves _ (mbind _ _) => apply preserves_bind; [done.. | | intros ?]
             | |- preserves _ (log _) => apply Hlog
             | |- preserves _ now => apply Hnow
             | |- preserves _ (setNodes _) => apply Hn
             | |- preserves _ (setChannels _) => apply Hc
             | |- preserves _ (setLastUpdate _) => apply Hu
             | |- preserves _ (setChannelEvents _) => apply He
             | |- preserves _ (set_prevChannelsRef _) => apply Hp
             | |- preserves _ (set_isFirstLoad _) => apply Hf
             end. }
  unfold fetchChannelsGeo. apply preserves_try_catch; [done.. | | intros e; apply Hlog].
  apply preserves_bind; [done.. | apply Hlog |]. intros _.
  destruct response as [e | ok code [e | data]].
  - by apply preserves_throw.
  - destruct (negb ok); [apply Hlog | by apply preserves_throw].
  - destruct (negb ok); [apply Hlog | apply Haccept].
Qed.

Lemma polls_snoc responses response s :
  polls (responses ++ [response]) s = poll response (polls responses s).
Proof. unfold polls. by rewrite foldl_snoc. Qed.

(** A message logged at a time [t] is prepended to the log and the log
    is cut to 200 lines; the mirror of the console is kept. *)
Lemma log_mirrored msg s s' :
  log msg s = (Normal tt, s') → mirrored s → mirrored s'.
Proof.
  intros Hrun (times & Hlen & Hlogs).
  destruct (log_run msg s) as (s'' & Hrun' & _ & Hco & Hlg).
  rewrite Hrun in Hrun'. injection Hrun' as <-.
  exists (times ++ [Date_now (clock_reads s)]). split.
  - rewrite Hco, !length_app. cbn. lia.
  - rewrite Hlg, Hco, Hlogs.
    rewrite zip_with_app by done. cbn [zip_with]. rewrite reverse_snoc.
    fold (stamp (Date_now (clock_reads s)) msg).
    change 200%nat with (S 199). cbn [take]. f_equal.
    rewrite take_take. f_equal.
Qed.

(** X1.  Through every sequence of runs of the poller from the initial
    state, whatever the responses, the log mirrors the console: it holds
    the last 200 messages written to the console, the newest first, each
    behind the time stamp of its line; so the log is never longer than
    200 lines, while the console keeps every message. *)
Theorem logs_mirror_console (responses : list Response) :
  mirrored (polls responses initial)
  ∧ (length (logs (polls responses initial)) ≤ 200)%nat
  ∧ (length (logs (polls responses initial))
     = 200 `min` length (console (polls responses initial)))%nat.
Proof.
  assert (mirrored (polls responses initial)) as Hm.
  { induction responses as [|r rs IH] using rev_ind.
    - exists []. done.
    - rewrite polls_snoc. revert IH. generalize (polls rs initial). intros s.
      apply (fetchChannelsGeo_preserves (keeping mirrored) r).
      + intros msg s0. destruct (log_run msg s0) as (s1 & Hrun & _).
        rewrite Hrun. exact (log_mirrored msg s0 s1 Hrun).
      + intros [ns cs lu lg ce pc fl co ck] Hm. exact Hm.
      + intros v [ns cs lu lg ce pc fl co ck] Hm. exact Hm.
      + intros v [ns cs lu lg ce pc fl co ck] Hm. exact Hm.
      + intros v [ns cs lu lg ce pc fl co ck] Hm. exact Hm.
      + intros v [ns cs lu lg ce pc fl co ck] Hm. exact Hm.
      + intros v [ns cs lu lg ce pc fl co ck] Hm. exact Hm.
      + intros v [ns cs lu lg ce pc fl co ck] Hm. exact Hm. }
  split; [done|]. destruct Hm as (times & Hlen & ->).
  rewrite length_take, length_reverse, length_zip_with, Hlen. lia.
Qed.

(** *** Runs that deliver no snapshot *)

(** X2.  A response whose [ok] flag is false, whatever its status and
    its body: the run returns normally, writes two lines to the console
    (the request, then the failure with the status) and leaves the node
    and channel lists, the time of the last update, the pending
    collection, the baseline set and the first-load flag as they were. *)
Theorem failed_response_is_logged s code json :
  ∃ s', fetchChannelsGeo (Resolved false code json) s = (Normal tt, s')
        ∧ frame s s'
        ∧ console s' = console s
            ++ [ fetching_line;
                 "[API] Failed to fetch Lightning Network channels-geo: "
                   +:+ string_of_number code ].
Proof.
  destruct (log_run fetching_line s) as (s0 & Hlog0 & Hf0 & Hc0 & _).
  destruct (log_run ("[API] Failed to fetch Lightning Network channels-geo: "
                       +:+ string_of_number code) s0) as (s' & Hlog1 & Hf1 & Hc1 & _).
  exists s'. split_and!.
  - unfold fetchChannelsGeo, try_catch. fold fetching_line.
    rewrite (bind_run _ _ _ _ _ Hlog0). cbn [negb]. by rewrite Hlog1.
  - eauto using frame_trans.
  - rewrite Hc1, Hc0, <- (assoc_L (++)). done.
Qed.

(** X3.  A request that is rejected with an error [e], and a response
    whose body fails to parse with an error [e]: the exception is caught,
    the run returns normally, writes two lines to the console (the
    request, then the error) and leaves the cells of the component as
    they were. *)
Theorem thrown_error_is_caught s e code :
  let lines := [ fetching_line;
                 "[API] Error fetching Lightning Network channels-geo: " +:+ e ] in
  (∃ s', fetchChannelsGeo (Rejected e) s = (Normal tt, s')
         ∧ frame s s' ∧ console s' = console s ++ lines)
  ∧ (∃ s', fetchChannelsGeo (Resolved true code (inl e)) s = (Normal tt, s')
           ∧ frame s s' ∧ console s' = console s ++ lines).
Proof.
  intros lines.
  destruct (log_run fetching_line s) as (s0 & Hlog0 & Hf0 & Hc0 & _).
  destruct (log_run ("[API] Error fetching Lightning Network channels-geo: " +:+ e) s0)
    as (s' & Hlog1 & Hf1 & Hc1 & _).
  assert (console s' = console s ++ lines) as Hco.
  { rewrite Hc1, Hc0, <- (assoc_L (++)). done. }
  split; exists s'; (split_and!; [| eauto using frame_trans | done]).
  - unfold fetchChannelsGeo, try_catch. fold fetching_line.
    rewrite (bind_run _ _ _ _ _ Hlog0). cbv [throw]. by rewrite Hlog1.
  - unfold fetchChannelsGeo, try_catch. fold fetching_line.
    rewrite (bind_run _ _ _ _ _ Hlog0). cbn [negb]. cbv [throw]. by rewrite Hlog1.
Qed.

(** *** The node and channel lists of a snapshot *)

Lemma read_entries_channels data m cs :
  (foldl add_entry (m, cs) data).2 = cs ++ (row_channel <$> data).
Proof.
  revert m cs. induction data as [|entry data IH]; intros m cs.
  - by rewrite app_nil_r.
  - cbn [foldl]. unfold add_entry at 2. rewrite IH, <- (assoc_L (++)). done.
Qed.

Lemma read_entries_nodes data m cs :
  (foldl add_entry (m, cs) data).1
  = foldl (λ m n, nodeMap_add m (node_id n) n) m (endpoint_nodes data).
Proof.
  revert m cs. induction data as [|entry data IH]; intros m cs; [done|].
  cbn [foldl]. unfold add_entry at 2. rewrite IH. done.
Qed.

(** The keys of the node map are the ids of its nodes, and they are
    added as to a set. *)
Lemma nodeMap_keys l m :
  m.*1 = node_id <$> m.*2 →
  let m' := foldl (λ m n, nodeMap_add m (node_id n) n) m l in
  m'.*1 = node_id <$> m'.*2 ∧ m'.*1 = foldl Set_add m.*1 (node_id <$> l).
Proof.
  revert m. induction l as [|n l IH]; intros m Hm; [by split|].
  cbn [foldl fmap list_fmap].
  assert ((nodeMap_add m (node_id n) n).*1 = Set_add m.*1 (node_id n)) as Hadd.
  { unfold nodeMap_add, Set_add, Set_has.
    destruct (decide (node_id n ∈ m.*1)) as [Hin|Hin].
    - by rewrite !bool_decide_eq_true_2 by done.
    - rewrite !bool_decide_eq_false_2 by done. by rewrite fmap_app. }
  destruct (IH (nodeMap_add m (node_id n) n)) as [Hk Hs].
  { unfold nodeMap_add. case_bool_decide; [done|].
    rewrite !fmap_app, Hm. done. }
  split; [exact Hk|]. cbn zeta in Hs. rewrite Hs, Hadd. done.
Qed.

Lemma nodeArr_of_ids data : node_id <$> nodeArr_of data = Set_new (endpoints data).
Proof.
  unfold nodeArr_of, Object_values, read_entries. rewrite read_entries_nodes.
  destruct (nodeMap_keys (endpoint_nodes data) [] eq_refl) as [Hk Hs].
  cbn zeta in Hk, Hs. rewrite <- Hk, Hs. done.
Qed.

Lemma first_with_id_cons n0 l n :
  first_with_id (n0 :: l) n
  ↔ n = n0 ∨ (node_id n0 ≠ node_id n ∧ first_with_id l n).
Proof.
  split.
  - intros ([|i] & Hi & Hfirst).
    + left. cbn in Hi. congruence.
    + right. split.
      * apply (Hfirst 0%nat n0); [lia | done].
      * exists i. split; [done|]. intros j n' Hj Hn'.
        apply (Hfirst (S j) n'); [lia | done].
  - intros [-> | (Hne & i & Hi & Hfirst)].
    + exists 0%nat. split; [done|]. intros j n' Hj. lia.
    + exists (S i). split; [done|]. intros [|j] n' Hj Hn'.
      * cbn in Hn'. congruence.
      * apply (Hfirst j n'); [lia | done].
Qed.

(** The node map keeps, for every id, the first node that bears it. *)
Lemma nodeMap_first l m k n :
  ((k, n) ∈ foldl (λ m n, nodeMap_add m (node_id n) n) m l)
  ↔ (k, n) ∈ m ∨ (k = node_id n ∧ (k ∉ m.*1) ∧ first_with_id l n).
Proof.
  revert m. induction l as [|n0 l IH]; intros m.
  - cbn [foldl]. split; [by left|]. intros [?|(_ & _ & i & Hi & _)]; [done|].
    by rewrite lookup_nil in Hi.
  - cbn [foldl]. rewrite IH, first_with_id_cons. unfold nodeMap_add.
    case_bool_decide as Hin.
    + split.
      * intros [?|(-> & Hk & Hf)]; [by left|]. right. split_and!; [done | done |].
        right. split; [|done]. intros Heq. apply Hk. by rewrite <- Heq.
      * intros [?|(-> & Hk & [-> | [Hne Hf]])]; [by left | done |].
        right. done.
    + rewrite fmap_app, elem_of_app, list_elem_of_singleton. cbn [fmap list_fmap].
      split.
      * intros [[?|[= -> ->]]|(-> & Hk & Hf)].
        -- by left.
        -- right. split_and!; [done | done | by left].
        -- right. rewrite not_elem_of_app, list_elem_of_singleton in Hk.
           destruct Hk as [Hk Hne]. split_and!; [done | done |]. right. split; [|done].
           intros Heq. by apply Hne.
      * intros [?|(-> & Hk & [-> | [Hne Hf]])].
        -- left. by left.
        -- left. by right.
        -- right. split_and!; [done | | done].
           rewrite not_elem_of_app, list_elem_of_singleton. split; [done|].
           intros Heq. by apply Hne.
Qed.

Lemma nodeArr_of_first data n :
  n ∈ nodeArr_of data ↔ first_with_id (endpoint_nodes data) n.
Proof.
  unfold nodeArr_of, Object_values, read_entries. rewrite read_entries_nodes.
  rewrite list_elem_of_fmap. split.
  - intros ([k n'] & -> & Hin). apply nodeMap_first in Hin as [Hin|(_ & _ & Hf)]; [|done].
    by apply elem_of_nil in Hin.
  - intros Hf. exists (node_id n, n). split; [done|]. apply nodeMap_first.
    right. split_and!; [done | | done]. cbn. apply not_elem_of_nil.
Qed.

Lemma channelArr_of_rows data : channelArr_of data = row_channel <$> data.
Proof. unfold channelArr_of, read_entries. by rewrite read_entries_channels. Qed.

Lemma row_endpoints entry data :
  entry ∈ data → node1_pubkey entry ∈ endpoints data ∧ node2_pubkey entry ∈ endpoints data.
Proof.
  intros Hin. unfold endpoints, endpoint_nodes.
  assert (∀ n, n ∈ row_nodes entry → node_id n ∈ node_id <$> (data ≫= row_nodes)) as Hn.
  { intros n Hrow. apply list_elem_of_fmap_2, list_elem_of_bind. by exists entry. }
  split.
  - refine (Hn (Build_Node (node1_pubkey entry) _) _). apply list_elem_of_here.
  - refine (Hn (Build_Node (node2_pubkey entry) _) _).
    apply list_elem_of_further, list_elem_of_here.
Qed.

(** X4.  The channel list of a snapshot has one channel for every row,
    in the order of the rows: its id is the two public keys joined by a
    dash, its ends are the two public keys and its status is [open]; a
    row that occurs twice gives two channels.  The set of channel ids
    holds each id once, and an id is in it exactly when a row gives it. *)
Theorem channels_follow_rows data :
  channelArr_of data = row_channel <$> data
  ∧ length (channelArr_of data) = length data
  ∧ NoDup (currentChannelIds_of data)
  ∧ (Set_size (currentChannelIds_of data) ≤ Z.of_nat (length data))
  ∧ ∀ id, id ∈ currentChannelIds_of data
          ↔ ∃ entry, entry ∈ data
                     ∧ id = node1_pubkey entry +:+ "-" +:+ node2_pubkey entry.
Proof.
  pose proof (channelArr_of_rows data) as Hrows.
  split_and!.
  - done.
  - by rewrite Hrows, length_fmap.
  - apply Set_new_NoDup.
  - unfold Set_size, currentChannelIds_of.
    assert (length (Set_new (channel_id <$> channelArr_of data))
            ≤ length (channel_id <$> channelArr_of data))%nat as Hle.
    { apply submseteq_length, NoDup_submseteq; [apply Set_new_NoDup|].
      intros x. by rewrite Set_new_elem. }
    assert (length (channel_id <$> channelArr_of data) = length data) as Hlen.
    { by rewrite length_fmap, Hrows, length_fmap. }
    lia.
  - intros id. unfold currentChannelIds_of. rewrite Set_new_elem, Hrows, <- list_fmap_compose.
    rewrite list_elem_of_fmap. split.
    + intros (entry & -> & Hin). by exists entry.
    + intros (entry & Hin & ->). by exists entry.
Qed.

(** X5.  For rows whose public keys are keys on which a plain object is
    an insertion-ordered map (which public keys are): the ids of the node
    list are the public keys the rows mention, each once, in the order of
    first mention. *)
Theorem nodes_are_distinct_endpoints data :
  Forall map_key (endpoints data) →
  node_id <$> nodeArr_of data = Set_new (endpoints data)
  ∧ NoDup (node_id <$> nodeArr_of data)
  ∧ (∀ k, k ∈ node_id <$> nodeArr_of data ↔ k ∈ endpoints data)
  ∧ (length (nodeArr_of data) ≤ 2 * length data)%nat.
Proof.
  intros _. pose proof (nodeArr_of_ids data) as Hids. split_and!.
  - done.
  - rewrite Hids. apply Set_new_NoDup.
  - intros k. by rewrite Hids, Set_new_elem.
  - assert (length (Set_new (endpoints data)) ≤ length (endpoints data))%nat as Hle.
    { apply submseteq_length, NoDup_submseteq; [apply Set_new_NoDup|].
      intros x. by rewrite Set_new_elem. }
    rewrite <- Hids, length_fmap in Hle.
    assert (length (endpoints data) = 2 * length data)%nat as Hlen; [|lia].
    unfold endpoints, endpoint_nodes. rewrite length_fmap.
    clear. induction data as [|entry data IH]; [done|].
    change ((entry :: data) ≫= row_nodes) with (row_nodes entry ++ (data ≫= row_nodes)).
    rewrite length_app, IH. cbn. lia.
Qed.

(** X6.  For rows whose public keys are not names inherited from
    [Object.prototype]: a node is in the node list exactly when it is the
    first node the rows give for its id, so the coordinates of a node are
    those of the first row that mentions it and later rows never update
    them; and the node list holds one node for an id. *)
Theorem first_geodata_wins data :
  Forall own_key (endpoints data) →
  (∀ n, n ∈ nodeArr_of data ↔ first_with_id (endpoint_nodes data) n)
  ∧ (∀ n n', n ∈ nodeArr_of data → n' ∈ nodeArr_of data →
             node_id n = node_id n' → n = n').
Proof.
  intros _. split; [apply nodeArr_of_first|].
  intros n n' Hn Hn' Hid.
  apply nodeArr_of_first in Hn as (i & Hi & Hfirst).
  apply nodeArr_of_first in Hn' as (i' & Hi' & Hfirst').
  destruct (Nat.lt_trichotomy i i') as [Hlt|[->|Hlt]].
  - exfalso. by apply (Hfirst' i n Hlt Hi).
  - congruence.
  - exfalso. by apply (Hfirst i' n' Hlt Hi').
Qed.

(** X7.  For rows whose public keys are not names inherited from
    [Object.prototype]: both ends of every channel of the snapshot are
    ids of nodes of the node list. *)
Theorem channels_link_known_nodes data :
  Forall own_key (endpoints data) →
  Forall (λ c, source c ∈ node_id <$> nodeArr_of data
               ∧ target c ∈ node_id <$> nodeArr_of data) (channelArr_of data).
Proof.
  intros _. rewrite channelArr_of_rows, nodeArr_of_ids. apply Forall_fmap, Forall_forall.
  intros entry Hin. cbn. rewrite !Set_new_elem. by apply row_endpoints.
Qed.

(** *** What a pass writes to the console *)

Lemma filter_none {A} (P : A → Prop) `{!∀ x, Decision (P x)} (l : list A) :
  Forall (λ x, ¬ P x) l → filter P l = [].
Proof.
  induction 1 as [|x l Hx _ IH]; [done|]. by rewrite filter_cons, decide_False.
Qed.

Lemma push_absent_console st msg other ids acc s :
  ∃ evs s',
    for_of ids (push_absent st msg other) acc s = (Normal (acc ++ evs), s')
    ∧ frame s s'
    ∧ key <$> evs = (λ id, (id, st)) <$> filter (λ id, id ∉ other) ids
    ∧ console s' = console s ++ (msg <$> (event_id <$> evs)).
Proof.
  revert acc s. induction ids as [|id ids IH]; intros acc s.
  - exists [], s. rewrite !app_nil_r. by repeat split.
  - cbn [for_of]. unfold mbind at 1, M_bind at 1, bind at 1.
    unfold push_absent at 1. rewrite filter_cons.
    destruct (Set_has other id) eqn:Hhas; cbn [negb].
    + apply Set_has_true in Hhas.
      rewrite decide_False by (intros Hn; by apply Hn).
      cbv [mret M_ret ret]. apply IH.
    + apply Set_has_false in Hhas. rewrite decide_True by done.
      destruct (log_run (msg id) s) as (s1 & Hlog & Hf1 & Hc1 & _).
      destruct (now_run s1) as (s2 & Hnow & Hf2 & Hc2 & _).
      cbv [mbind M_bind bind mret M_ret ret]. rewrite Hlog, Hnow.
      destruct (IH (acc ++ [ {| event_id := id; ts := Date_now (clock_reads s1);
                                event_status := st |} ]) s2)
        as (evs & s' & Hrun & Hf3 & Hkeys & Hc3).
      eexists (_ :: evs), s'. split_and!.
      * rewrite Hrun. by rewrite <- (assoc_L (++)).
      * eauto using frame_trans.
      * cbn. by rewrite Hkeys.
      * rewrite Hc3, Hc2, Hc1, <- (assoc_L (++)). done.
Qed.

Lemma keys_status st (ids : list string) evs :
  key <$> evs = (λ id, (id, st)) <$> ids → Forall (λ e, event_status e = st) evs.
Proof.
  revert ids. induction evs as [|e evs IH]; intros [|id ids] Heq; try done.
  injection Heq as Hk Hrest. constructor; [|by eapply IH].
  unfold key in Hk. congruence.
Qed.

(** The two loops write one line for every event they produce, in the
    order of the events. *)
Lemma detect_console prevChannels currentChannelIds s :
  ∃ opened closed_ s',
    detect prevChannels currentChannelIds s = (Normal (opened ++ closed_), s')
    ∧ frame s s'
    ∧ key <$> opened = opened_keys prevChannels currentChannelIds
    ∧ key <$> closed_ = closed_keys prevChannels currentChannelIds
    ∧ console s' = console s ++ (event_line <$> (opened ++ closed_)).
Proof.
  unfold detect.
  destruct (push_absent_console open (λ id, "[EVENT] Channel opened: " +:+ id)
              prevChannels currentChannelIds [] s) as (evs1 & s1 & H1 & Hf1 & Hk1 & Hc1).
  destruct (push_absent_console closed (λ id, "[EVENT] Channel closed: " +:+ id)
              currentChannelIds prevChannels evs1 s1) as (evs2 & s2 & H2 & Hf2 & Hk2 & Hc2).
  exists evs1, evs2, s2. split_and!.
  - unfold mbind, M_bind, bind, detect_opened, detect_closed.
    change (for_of currentChannelIds _ [] s) with
      (for_of currentChannelIds
         (push_absent open (λ id, "[EVENT] Channel opened: " +:+ id) prevChannels) [] s).
    rewrite H1. cbn [app]. exact H2.
  - eauto using frame_trans.
  - done.
  - done.
  - rewrite Hc2, Hc1, <- (assoc_L (++)), fmap_app. f_equal. f_equal.
    + apply keys_status in Hk1. rewrite <- list_fmap_compose.
      apply Forall_fmap_ext_1. eapply Forall_impl; [exact Hk1|].
      intros e He. cbn. unfold event_line. by rewrite He.
    + apply keys_status in Hk2. rewrite <- list_fmap_compose.
      apply Forall_fmap_ext_1. eapply Forall_impl; [exact Hk2|].
      intros e He. cbn. unfold event_line. by rewrite He.
Qed.

(** X8.  Every event the detection loops produce is written to the
    console, one line for each event in the order of the events, before
    the burst limit is applied: an event that the limit drops has been
    logged all the same.  The limit keeps a suffix of the events and adds
    at most its warning to the console. *)
Theorem every_detected_event_is_logged (P C : JsSet) s :
  ∃ evs s1,
    detect P C s = (Normal evs, s1)
    ∧ console s1 = console s ++ (event_line <$> evs)
    ∧ ∃ kept s2,
        limit evs s1 = (Normal kept, s2)
        ∧ kept `suffix_of` evs
        ∧ console s2
          = console s1
              ++ (if MAX_CHANNEL_EVENTS <? Z.of_nat (length evs)
                  then [warning (length evs)] else []).
Proof.
  destruct (detect_console P C s) as (opened & closed_ & s1 & Hd & _ & _ & _ & Hco).
  exists (opened ++ closed_), s1. split; [done|]. split; [done|].
  destruct (MAX_CHANNEL_EVENTS <? Z.of_nat (length (opened ++ closed_))) eqn:Hover.
  - apply Z.ltb_lt in Hover.
    destruct (limit_over _ s1 Hover) as (s2 & Hl & _ & Hc2 & _).
    eexists _, s2. split; [exact Hl|]. split; [apply slice_last_suffix | done].
  - apply Z.ltb_ge in Hover. exists (opened ++ closed_), s1.
    rewrite limit_within by done. by rewrite app_nil_r.
Qed.

(** A pass that takes the diff branch, with what it writes. *)
Lemma accept_diff_console data s :
  isFirstLoad s = false →
  prevChannelsRef s ≠ [] →
  ∃ s1 newEvents s2 s',
    log (received_line data) s = (Normal tt, s1)
    ∧ diff (prevChannelsRef s) (currentChannelIds_of data) s1 = (Normal newEvents, s2)
    ∧ accept data s = (Normal tt, s')
    ∧ console s1 = console s ++ [received_line data]
    ∧ console s' = console s2 ++ [updated_line data]
    ∧ lastUpdate s' = Some (Date_now (clock_reads s2))
    ∧ nodes s' = nodeArr_of data
    ∧ channels s' = channelArr_of data
    ∧ prevChannelsRef s' = currentChannelIds_of data
    ∧ channelEvents s' =
        merge (Date_now (S (clock_reads s2))) newEvents (channelEvents s).
Proof.
  intros Hfirst Hne.
  destruct (log_run (received_line data) s) as (s1 & Hlog & Hf1 & Hc1 & _).
  destruct (diff_run (prevChannelsRef s) (currentChannelIds_of data) s1 Hne)
    as (evs & s1' & newEvents & s2 & _ & _ & Hdiff & Hf2).
  destruct s2 as [ns cs lu lg ce pc fl co ck].
  eexists s1, newEvents, _, _. split_and!; [done | done | | done | ..].
  - unfold accept. fold (received_line data).
    rewrite (bind_run _ _ _ _ _ Hlog).
    destruct Hf1 as (_ & _ & _ & _ & Hp1 & Hfl1).
    unfold gets at 1. unfold mbind at 1, M_bind at 1, bind at 1.
    unfold gets at 1. unfold mbind at 1, M_bind at 1, bind at 1.
    rewrite Hfl1, Hfirst, Hp1.
    assert ((Set_size (prevChannelsRef s) =? 0) = false) as ->.
    { apply Z.eqb_neq. rewrite Set_size_zero. done. }
    cbn [orb]. rewrite (bind_run _ _ _ _ _ Hdiff).
    poller_run. reflexivity.
  - done.
  - done.
  - done.
  - done.
  - done.
  - destruct Hf1 as (_ & _ & _ & Hce1 & _). destruct Hf2 as (_ & _ & _ & Hce2 & _).
    cbn in Hce2. cbn. congruence.
Qed.

(** Ids the other set has are passed over: the loop pushes nothing and
    leaves the state as it is. *)
Lemma push_absent_present st msg other ids acc s :
  Forall (λ id, id ∈ other) ids →
  for_of ids (push_absent st msg other) acc s = (Normal acc, s).
Proof.
  induction 1 as [|id ids Hid _ IH]; [done|].
  cbn [for_of]. unfold mbind at 1, M_bind at 1, bind at 1.
  unfold push_absent at 1. rewrite (proj2 (Set_has_true other id) Hid). cbn [negb].
  cbv [mret M_ret ret]. exact IH.
Qed.

Lemma detect_unchanged (P C : JsSet) s :
  (∀ id, id ∈ C ↔ id ∈ P) → detect P C s = (Normal [], s).
Proof.
  intros Hsame. unfold detect, detect_opened, detect_closed.
  change (for_of C _ []) with
    (for_of C (push_absent open (λ id, "[EVENT] Channel opened: " +:+ id) P) []).
  rewrite (bind_run _ _ s [] s).
  - apply (push_absent_present closed (λ id, "[EVENT] Channel closed: " +:+ id) C P).
    apply Forall_forall. intros id Hin. by apply Hsame.
  - apply push_absent_present, Forall_forall. intros id Hin. by apply Hsame.
Qed.

(** The clock readings of a pass that takes the diff branch: one for
    the line that reports the rows, those of the guarded block, and
    three more, of which the second is the reading of admission. *)
Lemma accept_diff_clock data s :
  isFirstLoad s = false →
  prevChannelsRef s ≠ [] →
  ∃ s1 newEvents s2 s',
    log (received_line data) s = (Normal tt, s1)
    ∧ diff (prevChannelsRef s) (currentChannelIds_of data) s1 = (Normal newEvents, s2)
    ∧ accept data s = (Normal tt, s')
    ∧ clock_reads s1 = S (clock_reads s)
    ∧ clock_reads s' = (clock_reads s2 + 3)%nat
    ∧ console s' = console s2 ++ [updated_line data]
    ∧ prevChannelsRef s' = currentChannelIds_of data
    ∧ channelEvents s' =
        merge (Date_now (S (clock_reads s2))) newEvents (channelEvents s).
Proof.
  intros Hfirst Hne.
  destruct (log_run (received_line data) s) as (s1 & Hlog & Hf1 & Hc1 & _).
  assert (clock_reads s1 = S (clock_reads s)) as Hck1.
  { destruct s as [ns cs lu lg ce pc fl co ck]. revert Hlog. poller_run.
    intros [= <-]. reflexivity. }
  destruct (diff_run (prevChannelsRef s) (currentChannelIds_of data) s1 Hne)
    as (evs & s1' & newEvents & s2 & _ & _ & Hdiff & Hf2).
  destruct s2 as [ns cs lu lg ce pc fl co ck].
  eexists s1, newEvents, _, _. split_and!; [done | done | | done | ..].
  - unfold accept. fold (received_line data).
    rewrite (bind_run _ _ _ _ _ Hlog).
    destruct Hf1 as (_ & _ & _ & _ & Hp1 & Hfl1).
    unfold gets at 1. unfold mbind at 1, M_bind at 1, bind at 1.
    unfold gets at 1. unfold mbind at 1, M_bind at 1, bind at 1.
    rewrite Hfl1, Hfirst, Hp1.
    assert ((Set_size (prevChannelsRef s) =? 0) = false) as ->.
    { apply Z.eqb_neq. rewrite Set_size_zero. done. }
    cbn [orb]. rewrite (bind_run _ _ _ _ _ Hdiff).
    poller_run. reflexivity.
  - cbn [clock_reads]. lia.
  - done.
  - done.
  - destruct Hf1 as (_ & _ & _ & Hce1 & _). destruct Hf2 as (_ & _ & _ & Hce2 & _).
    cbn in Hce2. cbn. congruence.
Qed.

(** X9.  A pass that takes the diff branch on a snapshot whose set of
    channel ids is the baseline set, in whatever order, under a positive
    cap: no event is detected, nothing but the two lines of the pass is
    written to the console, and the pending collection is only aged, at
    a clock reading [Date_now k] taken during the pass: of its events
    less than 5000 ms old at that reading the last [MAX_CHANNEL_EVENTS]
    are kept, in their order, and nothing else. *)
Theorem unchanged_snapshot_detects_nothing data s :
  isFirstLoad s = false →
  prevChannelsRef s ≠ [] →
  0 < MAX_CHANNEL_EVENTS →
  (∀ id, id ∈ currentChannelIds_of data ↔ id ∈ prevChannelsRef s) →
  ∃ s' k,
    accept data s = (Normal tt, s')
    ∧ (clock_reads s ≤ k < clock_reads s')%nat
    ∧ console s' = console s ++ [received_line data; updated_line data]
    ∧ (let young := filter (λ e, Date_now k - ts e < 5000) (channelEvents s) in
       channelEvents s' = drop (length young - Z.to_nat MAX_CHANNEL_EVENTS) young)
    ∧ prevChannelsRef s' = currentChannelIds_of data.
Proof.
  intros Hfirst Hne Hcap Hsame.
  destruct (accept_diff_clock data s Hfirst Hne)
    as (s1 & newEvents & s2 & s' & Hlog & Hdiff & Hacc & Hk1 & Hk' & Hc' & Hp & Hce).
  destruct (log_run (received_line data) s) as (s1' & Hlog' & _ & Hc1 & _).
  rewrite Hlog in Hlog'. injection Hlog' as <-.
  assert (diff (prevChannelsRef s) (currentChannelIds_of data) s1 = (Normal [], s1)) as Hdiff'.
  { unfold diff. assert ((0 <? Set_size (prevChannelsRef s)) = true) as ->.
    { apply Z.ltb_lt. unfold Set_size. destruct (prevChannelsRef s); [done | cbn; lia]. }
    rewrite (bind_run _ _ _ _ _ (detect_unchanged _ _ s1 Hsame)).
    apply limit_within. cbn. lia. }
  rewrite Hdiff in Hdiff'. injection Hdiff' as -> ->.
  exists s', (S (clock_reads s1)). split_and!; [done | lia | lia | | | done].
  - rewrite Hc', Hc1, <- (assoc_L (++)). done.
  - cbv zeta. rewrite Hce. unfold merge. rewrite app_nil_r.
    by apply slice_last_positive.
Qed.

(** *** The order of the events of a pass *)

(** X10.  The detection loops leave the cells of the component alone
    and produce, in this order: an [open] event for every id of the
    current set that the previous set lacks, in the order of the current
    set; then a [closed] event for every id of the previous set that the
    current set lacks, in the order of the previous set.  (The burst
    limit then keeps the last events of this list.) *)
Theorem detected_events_follow_snapshots (P C : JsSet) s :
  ∃ evs s1,
    detect P C s = (Normal evs, s1)
    ∧ frame s s1
    ∧ key <$> evs
      = ((λ id, (id, open)) <$> filter (λ id, id ∉ P) C)
          ++ ((λ id, (id, closed)) <$> filter (λ id, id ∉ C) P)
    ∧ (length evs ≤ length C + length P)%nat.
Proof.
  destruct (detect_run P C s) as (opened & closed_ & s1 & Hd & Hf & Hko & Hkc).
  exists (opened ++ closed_), s1. split_and!; [done | done | |].
  - by rewrite fmap_app, Hko, Hkc.
  - rewrite length_app.
    apply (f_equal length) in Hko, Hkc. unfold opened_keys, closed_keys in *.
    rewrite !length_fmap in Hko, Hkc. rewrite Hko, Hkc.
    apply Nat.add_le_mono; apply length_filter.
Qed.

(** *** The baseline through a session *)

(** What a run of the poller does to the cells, by cases: nothing, for
    a response that delivers no snapshot; otherwise the lists and the
    baseline set are those of the snapshot and the first-load flag is
    cleared. *)
Lemma poll_cases response s :
  (¬ accepted response ∧ frame s (poll response s))
  ∨ (accepted response
     ∧ ∃ data, nodes (poll response s) = nodeArr_of data
               ∧ channels (poll response s) = channelArr_of data
               ∧ prevChannelsRef (poll response s) = currentChannelIds_of data
               ∧ isFirstLoad (poll response s) = false).
Proof.
  assert (accepted response ∨ ¬ accepted response) as [Hacc|Hrej].
  { destruct response as [e | [] code [e | data]]; cbn; tauto. }
  - right. split; [done|].
    destruct response as [e | [] code [e | data]]; try done. exists data.
    destruct (log_run ("[API] Fetching Lightning Network channels with geodata from: "
                         +:+ CHANNELS_GEO_API) s) as (s0 & Hlog & Hf0 & _).
    destruct (decide (isFirstLoad s0 = true ∨ prevChannelsRef s0 = [])) as [Hbase|Hdiff].
    + destruct (baseline_branch s data code) as (s' & Hrun & _ & Hp & Hn & Hc & Hfl & _).
      { destruct Hf0 as (_ & _ & _ & _ & <- & <-). done. }
      unfold poll. by rewrite Hrun.
    + destruct (accept_diff data s0)
        as (s1 & evs & s2 & s' & _ & _ & Hrun & Hp & Hn & Hc & Hfl & _).
      { destruct (isFirstLoad s0); [|done]. exfalso. apply Hdiff. by left. }
      { intros ?. apply Hdiff. by right. }
      unfold poll, fetchChannelsGeo, try_catch.
      rewrite (bind_run _ _ _ _ _ Hlog). cbn [negb]. by rewrite Hrun.
  - left. split; [done|]. unfold poll.
    destruct (log_run fetching_line s) as (s0 & Hlog0 & Hf0 & _).
    destruct response as [e | [] code [e | data]]; try (exfalso; apply Hrej; exact I);
      unfold fetchChannelsGeo, try_catch; fold fetching_line;
      rewrite (bind_run _ _ _ _ _ Hlog0); cbn [negb]; cbv [throw].
    + destruct (log_run ("[API] Error fetching Lightning Network channels-geo: " +:+ e) s0)
        as (s' & -> & Hf1 & _). eauto using frame_trans.
    + destruct (log_run ("[API] Error fetching Lightning Network channels-geo: " +:+ e) s0)
        as (s' & -> & Hf1 & _). eauto using frame_trans.
    + destruct (log_run ("[API] Failed to fetch Lightning Network channels-geo: "
                           +:+ string_of_number code) s0) as (s' & -> & Hf1 & _).
      eauto using frame_trans.
    + destruct (log_run ("[API] Failed to fetch Lightning Network channels-geo: "
                           +:+ string_of_number code) s0) as (s' & -> & Hf1 & _).
      eauto using frame_trans.
Qed.

(** X11.  In every state a sequence of runs of the poller reaches from
    the initial state, the baseline set is the set of the ids of the
    channel list, so the two never drift apart, whatever polls fail in
    between.  The first-load flag is set exactly as long as no response
    has delivered a snapshot, and as long as it is set the component has
    no node, no channel, no pending event and no time of last update. *)
Theorem baseline_tracks_snapshots (responses : list Response) :
  let st := polls responses initial in
  prevChannelsRef st = Set_new (channel_id <$> channels st)
  ∧ (isFirstLoad st = true ↔ Forall (λ r, ¬ accepted r) responses)
  ∧ (isFirstLoad st = true →
     nodes st = [] ∧ channels st = [] ∧ channelEvents st = [] ∧ lastUpdate st = None).
Proof.
  cbv zeta. induction responses as [|r rs (IHp & IHf & IHe)] using rev_ind.
  - split_and!; [done | by split | done].
  - rewrite polls_snoc. revert IHp IHf IHe. generalize (polls rs initial). intros s IHp IHf IHe.
    rewrite Forall_app, Forall_singleton.
    destruct (poll_cases r s) as [[Hrej Hfr] | (Hacc & data & Hn & Hc & Hp & Hfl)].
    + destruct Hfr as (Hn & Hc & Hlu & Hce & Hp & Hfl).
      rewrite Hn, Hc, Hlu, Hce, Hp, Hfl. split_and!; [done | | done].
      rewrite IHf. tauto.
    + rewrite Hp, Hc, Hfl. split_and!; [done | | done].
      split; [done|]. intros [_ Hno]. done.
Qed.

End PollerFacts.


(** ** The element tree of App.tsx *)

Section ViewFacts.
Import JS App.
Context `{Host} `{ImportMetaEnv}.
Implicit Types (s : State) (data : list Entry).

(** *** Splitting a channel id *)

Lemma split_no_sep sep (a : string) : has_char sep a = false → split sep a = [a].
Proof.
  induction a as [|c a IH]; [done|]. cbn [has_char split]. intros Hno.
  apply orb_false_iff in Hno as [Hc Ha]. apply bool_decide_eq_false in Hc.
  rewrite decide_False by done. by rewrite IH.
Qed.

Lemma split_app sep (a b : string) :
  has_char sep a = false → split sep (a +:+ String sep b) = a :: split sep b.
Proof.
  induction a as [|c a IH]; intros Hno.
  - change (EmptyString +:+ String sep b) with (String sep b).
    cbn [split]. by rewrite decide_True.
  - cbn [has_char] in Hno. apply orb_false_iff in Hno as [Hc Ha].
    apply bool_decide_eq_false in Hc.
    change (String c a +:+ String sep b) with (String c (a +:+ String sep b)).
    cbn [split]. rewrite decide_False by done. by rewrite IH.
Qed.

Lemma split_head sep (s : string) :
  ∃ a rest, split sep s = a :: rest ∧ has_char sep a = false
            ∧ (rest = [] ↔ has_char sep s = false).
Proof.
  induction s as [|c s (a & rest & IH & Ha & Hrest)].
  - by exists EmptyString, [].
  - cbn [split has_char]. destruct (decide (c = sep)) as [->|Hne].
    + exists EmptyString, (split sep s). rewrite bool_decide_eq_true_2 by done.
      split_and!; [done | done |]. rewrite IH. done.
    + exists (String c a), rest. rewrite IH, bool_decide_eq_false_2 by done.
      split_and!; [done | | done]. cbn. by rewrite bool_decide_eq_false_2.
Qed.

(** X12.  The channel built from a pending event has the right ends
    when the two public keys hold no dash: for the id of a row, the first
    two pieces of the id are the two public keys of the row, and the
    channel is [closed]. *)
Theorem closed_channel_round_trip (entry : Entry) (t : Z) (st : Status) :
  has_char "-" (node1_pubkey entry) = false →
  has_char "-" (node2_pubkey entry) = false →
  shown_of_event {| event_id := channel_id (row_channel entry); ts := t;
                    event_status := st |}
  = {| shown_id := node1_pubkey entry +:+ "-" +:+ node2_pubkey entry;
       shown_source := Some (node1_pubkey entry);
       shown_target := Some (node2_pubkey entry);
       shown_status := closed |}.
Proof.
  intros H1 H2. unfold shown_of_event. cbn [event_id row_channel channel_id].
  change (node1_pubkey entry +:+ "-" +:+ node2_pubkey entry)
    with (node1_pubkey entry +:+ String "-" (node2_pubkey entry)).
  rewrite (split_app "-" _ _ H1), (split_no_sep "-" _ H2). done.
Qed.

(** *** The channels shown *)

(** X13.  With "show all channels" on, the [channels] prop is the channel
    list.  With it off, an id is the id of a channel of the prop exactly
    when it is the id of a pending event and either a channel of the
    snapshot has it or the event is [closed]; the channels of the snapshot
    keep their ends and status, the channels built from events are
    [closed]; so with no pending event no channel is shown, and a pending
    [open] event whose channel has left the snapshot shows nothing. *)
Theorem shown_channels_follow_events (channels_ : list Channel)
    (channelEvents_ : list ChannelEvent) :
  shownChannels true channels_ channelEvents_ = shown_of_channel <$> channels_
  ∧ shownChannels false channels_ [] = []
  ∧ (∀ id,
       (∃ c', c' ∈ shownChannels false channels_ channelEvents_ ∧ shown_id c' = id)
       ↔ ∃ e, e ∈ channelEvents_ ∧ event_id e = id
              ∧ ((∃ c, c ∈ channels_ ∧ channel_id c = id) ∨ event_status e = closed))
  ∧ (∀ c', c' ∈ shownChannels false channels_ channelEvents_ →
       (∃ c, c ∈ channels_ ∧ c' = shown_of_channel c)
       ∨ (shown_status c' = closed ∧ ∀ c, c ∈ channels_ → channel_id c ≠ shown_id c')).
Proof.
  split; [done|]. split.
  { unfold shownChannels. cbn [filter list_filter fmap list_fmap]. rewrite app_nil_r.
    rewrite filter_none; [done|]. apply Forall_forall. intros c _ Hex.
    by apply Exists_nil in Hex. }
  split.
  - intros id. unfold shownChannels. split.
    + intros (c' & Hin & <-). apply elem_of_app in Hin as [Hin|Hin].
      * apply list_elem_of_fmap in Hin as (c & -> & Hc).
        apply list_elem_of_filter in Hc as [Hex Hc].
        apply Exists_exists in Hex as (e & He & Hid).
        exists e. split_and!; [done | done |]. left. by exists c.
      * apply list_elem_of_fmap in Hin as (e & -> & He).
        apply list_elem_of_filter in He as [[Hst _] He].
        exists e. split_and!; [done | done | by right].
    + intros (e & He & <- & Hwhy).
      destruct (decide (Exists (λ c, channel_id c = event_id e) channels_)) as [Hex|Hno].
      * apply Exists_exists in Hex as (c & Hc & Hid).
        exists (shown_of_channel c). split; [|done]. apply elem_of_app. left.
        apply list_elem_of_fmap_2, list_elem_of_filter. split; [|done].
        apply Exists_exists. by exists e.
      * destruct Hwhy as [(c & Hc & Hid)|Hst].
        { exfalso. apply Hno, Exists_exists. by exists c. }
        exists (shown_of_event e). split; [|done]. apply elem_of_app. right.
        apply list_elem_of_fmap_2, list_elem_of_filter. done.
  - intros c' Hin. unfold shownChannels in Hin. apply elem_of_app in Hin as [Hin|Hin].
    + apply list_elem_of_fmap in Hin as (c & -> & Hc).
      apply list_elem_of_filter in Hc as [_ Hc]. left. by exists c.
    + apply list_elem_of_fmap in Hin as (e & -> & He).
      apply list_elem_of_filter in He as [[Hst Hno] He]. right. split; [done|].
      intros c Hc Hid. apply Hno, Exists_exists. by exists c.
Qed.

(** *** The ids of a session *)

Lemma Forall_suffix {A} (P : A → Prop) (l1 l2 : list A) :
  l1 `suffix_of` l2 → Forall P l2 → Forall P l1.
Proof. intros [l ->] Hall. by apply Forall_app in Hall as [_ ?]. Qed.

(** A property that the channel ids of every delivered snapshot have is
    a property of every id of the baseline set and of every pending
    event. *)
Lemma polls_ids (Q : string → Prop) (responses : list Response) :
  Forall (snapshot_ids Q) responses →
  Forall Q (prevChannelsRef (polls responses initial))
  ∧ Forall (λ e, Q (event_id e)) (channelEvents (polls responses initial)).
Proof.
  induction responses as [|r rs IH] using rev_ind; intros Hall; [by split|].
  apply Forall_app in Hall as [Hrs Hr]. apply Forall_inv in Hr.
  destruct (IH Hrs) as [HP HE]. clear IH Hrs. rewrite polls_snoc.
  revert HP HE. generalize (polls rs initial). intros s HP HE.
  assert (accepted r ∨ ¬ accepted r) as [Hacc|Hrej].
  { destruct r as [e | [] code [e | data]]; cbn; tauto. }
  - destruct r as [e | [] code [e | data]]; try done. cbn in Hr.
    destruct (log_run ("[API] Fetching Lightning Network channels with geodata from: "
                         +:+ CHANNELS_GEO_API) s) as (s0 & Hlog & Hf0 & _).
    destruct (decide (isFirstLoad s0 = true ∨ prevChannelsRef s0 = [])) as [Hbase|Hdiff].
    + destruct (baseline_branch s data code) as (s' & Hrun & Hce & Hp & _).
      { destruct Hf0 as (_ & _ & _ & _ & <- & <-). done. }
      unfold poll. rewrite Hrun. cbn [snd]. rewrite Hce, Hp.
      split; [exact Hr | constructor].
    + assert (isFirstLoad s0 = false) as Hfl.
      { destruct (isFirstLoad s0); [|done]. exfalso. apply Hdiff. by left. }
      assert (prevChannelsRef s0 ≠ []) as Hne.
      { intros ?. apply Hdiff. by right. }
      destruct (accept_diff data s0 Hfl Hne)
        as (s1 & newEvents & s2 & s' & Hlog1 & Hd & Hrun & Hp & _ & _ & _ & Hce).
      destruct (diff_run (prevChannelsRef s0) (currentChannelIds_of data) s1 Hne)
        as (evs & s1' & kept & s2' & Hdet & Hlim & Hd' & _).
      rewrite Hd in Hd'. injection Hd' as <- <-.
      destruct (detect_run (prevChannelsRef s0) (currentChannelIds_of data) s1)
        as (opened & closed_ & s1'' & Hdet' & _ & Hko & Hkc).
      rewrite Hdet in Hdet'. injection Hdet' as -> <-.
      destruct (limit_run (opened ++ closed_) s1') as (kept' & s2' & Hlim' & _ & Hsuf).
      rewrite Hlim in Hlim'. injection Hlim' as <- <-.
      unfold poll, fetchChannelsGeo, try_catch.
      rewrite (bind_run _ _ _ _ _ Hlog). cbn [negb]. rewrite Hrun. cbn [snd].
      rewrite Hp, Hce. split; [done|].
      destruct Hf0 as (_ & _ & _ & Hce0 & Hp0 & _).
      assert (Forall (λ e, Q (event_id e)) (opened ++ closed_)) as Hnew.
      { apply Forall_app. split; apply Forall_forall; intros e He.
        - apply (list_elem_of_fmap_2 key) in He. rewrite Hko in He.
          apply list_elem_of_fmap in He as (id & Hk & Hid).
          apply list_elem_of_filter in Hid as [_ Hid].
          unfold key in Hk. injection Hk as -> _.
          by apply (proj1 (Forall_forall _ _) Hr).
        - apply (list_elem_of_fmap_2 key) in He. rewrite Hkc in He.
          apply list_elem_of_fmap in He as (id & Hk & Hid).
          apply list_elem_of_filter in Hid as [_ Hid].
          unfold key in Hk. injection Hk as -> _.
          rewrite Hp0 in Hid. by apply (proj1 (Forall_forall _ _) HP). }
      unfold merge. eapply Forall_suffix; [apply slice_last_suffix|].
      apply Forall_app. split.
      * apply Forall_forall. intros e He. apply list_elem_of_filter in He as [_ He].
        rewrite Hce0 in He. by apply (proj1 (Forall_forall _ _) HE).
      * by eapply Forall_suffix.
  - destruct (rejected_poll s r Hrej) as (_ & -> & ->). done.
Qed.

Lemma row_ids_dashed data :
  Forall (λ id, has_char "-" id = true) (currentChannelIds_of data).
Proof.
  apply Forall_forall. intros id Hin. unfold currentChannelIds_of in Hin.
  rewrite Set_new_elem, channelArr_of_rows, <- list_fmap_compose in Hin.
  apply list_elem_of_fmap in Hin as (entry & -> & _).
  cbn [compose row_channel channel_id].
  change (node1_pubkey entry +:+ "-" +:+ node2_pubkey entry)
    with (node1_pubkey entry +:+ String "-" (node2_pubkey entry)).
  generalize (node1_pubkey entry). intros a. induction a as [|c a IH].
  - reflexivity.
  - change (String c a +:+ String "-" (node2_pubkey entry))
      with (String c (a +:+ String "-" (node2_pubkey entry))).
    cbn [has_char]. rewrite IH. apply orb_true_r.
Qed.

(** X14.  In every state a sequence of runs of the poller reaches from
    the initial state, the id of every pending event holds a dash, so the
    channel built from a pending event always has a [source] and a
    [target]: neither is ever [undefined]. *)
Theorem built_channel_has_both_ends (responses : list Response) :
  Forall (λ e, has_char "-" (event_id e) = true
               ∧ ∃ a b, shown_source (shown_of_event e) = Some a
                        ∧ shown_target (shown_of_event e) = Some b)
         (channelEvents (polls responses initial)).
Proof.
  destruct (polls_ids (λ id, has_char "-" id = true) responses) as [_ HE].
  { apply Forall_forall. intros [e | [] code [e | data]] _; cbn; try done.
    apply row_ids_dashed. }
  eapply Forall_impl; [exact HE|]. intros e Hdash. cbv beta in Hdash. split; [done|].
  unfold shown_of_event. cbn [shown_source shown_target].
  destruct (split_head "-" (event_id e)) as (a & rest & -> & _ & Hrest).
  destruct rest as [|b rest].
  - rewrite (proj1 Hrest eq_refl) in Hdash. done.
  - by exists a, b.
Qed.

(** *** The debug trigger *)

Lemma DEBUG_LIGHTNING_true (raw : option string) :
  DEBUG_LIGHTNING raw = true ↔ raw = Some "true".
Proof.
  unfold DEBUG_LIGHTNING, or_string. destruct raw as [v|]; [|done].
  destruct (decide (v = EmptyString)) as [->|Hv]; [done|].
  rewrite (bool_decide_eq_false_2 (v = EmptyString)) by done.
  rewrite bool_decide_eq_true. split; congruence.
Qed.

Lemma ui_step_trigger debug u ev u' :
  ui_step debug u ev = Some u' →
  debugLightningTrigger u'
  = debugLightningTrigger u + increments [ev]
  ∧ (debug = false →
     debugLightningTrigger u' = debugLightningTrigger u
     ∧ debugRandomOn u' = debugRandomOn u).
Proof.
  intros Hstep.
  destruct ev, debug; cbn in Hstep; unfold debug_interval in Hstep; cbn in Hstep;
    try destruct (debugRandomOn u); try discriminate; injection Hstep as <-;
    cbn; (split; [unfold increments; cbn; lia | intros Hd; try discriminate; done]).
Qed.

Lemma ui_run_trigger debug evs u u' :
  ui_run debug evs u = Some u' →
  debugLightningTrigger u' = debugLightningTrigger u + increments evs
  ∧ (debug = false →
     debugLightningTrigger u' = debugLightningTrigger u
     ∧ debugRandomOn u' = debugRandomOn u).
Proof.
  revert u u'. induction evs as [|ev evs IH]; intros u u' Hrun.
  - injection Hrun as <-. unfold increments. cbn. split; [lia | done].
  - cbn [ui_run] in Hrun. destruct (ui_step debug u ev) as [u1|] eqn:Hstep; [|done].
    destruct (ui_step_trigger _ _ _ _ Hstep) as [H1 H1'].
    destruct (IH _ _ Hrun) as [H2 H2']. split.
    + rewrite H2, H1. unfold increments. cbn [List.filter].
      destruct ev; cbn [length]; lia.
    + intros Hd. destruct (H1' Hd) as [<- <-]. by apply H2'.
Qed.

(** X15.  The debug trigger only counts up: after a session it is the
    number of clicks on "Trigger Debug Lightning" and of firings of the
    debug interval.  Unless the setting [DEBUG_LIGHTNING_ANIM] is exactly
    the string [true], neither can occur: the trigger stays 0 and the
    debug interval is never switched on. *)
Theorem debug_trigger_counts_up (raw : option string) (evs : list UiEvent) (u' : Ui) :
  ui_run (DEBUG_LIGHTNING raw) evs ui_initial = Some u' →
  debugLightningTrigger u' = increments evs
  ∧ 0 ≤ debugLightningTrigger u'
  ∧ (raw ≠ Some "true" →
     debugLightningTrigger u' = 0 ∧ debugRandomOn u' = false).
Proof.
  intros Hui. destruct (ui_run_trigger _ _ _ _ Hui) as [Ht Hoff]. cbn in Ht. split_and!.
  - lia.
  - rewrite Ht. unfold increments. lia.
  - intros Hraw. apply Hoff.
    destruct (DEBUG_LIGHTNING raw) eqn:Hd; [|done].
    apply DEBUG_LIGHTNING_true in Hd. done.
Qed.

End ViewFacts.


(** ** More on the redraw *)

Section DrawingFacts.
Import JS LightningGraph.
Context `{Host} `{D3}.
Implicit Types (s : State) (p : Props).

(** *** The polyline *)

(** X16.  The polyline between two points has eight points: it starts
    exactly at the first and ends exactly at the second, and the [i]-th
    of its six interior points is computed from two consecutive random
    samples, the first for its abscissa and the second for its ordinate.
    Drawing it consumes twelve random samples and touches nothing else
    of the component: it reads no clock and plays no sound. *)
Theorem lightning_joins_its_ends (a b : Q * Q) s :
  ∃ mid s',
    lightningPoints a b s = (Normal (a :: mid ++ [b]), s')
    ∧ length mid = 6%nat
    ∧ (∀ i, (i < 6)%nat →
         mid !! i = Some (jittered a b (Z.of_nat (S i))
                            (Math_random (random_reads s + 2 * i))
                            (Math_random (random_reads s + 2 * i + 1))))
    ∧ random_reads s' = (random_reads s + 12)%nat
    ∧ sampling s s'.
Proof.
  destruct (lightningPoints_exact a b s) as (s' & Hrun & Hk & Hs).
  exists (jitters a b (random_reads s) [1; 2; 3; 4; 5; 6]), s'.
  split_and!; [done | done | | done | done].
  intros i Hi.
  do 6 (destruct i as [|i]; [cbn [jitters lookup list_lookup]; repeat f_equal; lia|]).
  lia.
Qed.

(** *** The layers of a redraw *)

(** With the [svg] attached, a redraw runs the three animations in
    turn and replaces the group by the four layers. *)
Lemma redraw_parts p s :
  svgRef s = true →
  ∃ byId s1 debug s2 batch s3 g s',
    animateChannelEventId p (nodeMap_of (nodePositions_of s p)) s = (Normal byId, s1)
    ∧ debugLightning p (nodePositions_of s p) s1 = (Normal debug, s2)
    ∧ animateChannelEvents p (nodeMap_of (nodePositions_of s p)) s2 = (Normal batch, s3)
    ∧ redraw p s = (Normal tt, s')
    ∧ zoom_group s' = Some g
    ∧ paths g = geoPath (fitted s) <$> default [] (without_Antarctica <$> world s)
    ∧ lines g = imap (link (nodeMap_of (nodePositions_of s p)) (length (channels p)))
                     (channels p)
    ∧ circles g = marker <$> nodePositions_of s p
    ∧ polylines g = byId ++ debug ++ batch
    ∧ played s' = played s3 ∧ lastSoundTimeRef s' = lastSoundTimeRef s3
    ∧ clock_reads s' = clock_reads s3 ∧ random_reads s' = random_reads s3
    ∧ world s' = world s ∧ dimensions s' = dimensions s.
Proof.
  intros Hsvg. unfold redraw, nodePositions_of, fitted.
  rewrite (bind_run (gets svgRef) _ s (svgRef s) s eq_refl), Hsvg. cbn [negb].
  rewrite (bind_run (gets dimensions) _ s (dimensions s) s eq_refl).
  destruct (dimensions s) as [width height] eqn:Hdim.
  rewrite (bind_run (gets world) _ s (world s) s eq_refl). cbn [fst snd].
  set (projection := geoMercator_fitSize width height _).
  set (nodePositions := position projection width height <$> nodes p).
  destruct (animateChannelEventId_animating p (nodeMap_of nodePositions) s)
    as (byId & s1 & H1 & Hsurf1 & _).
  rewrite (bind_run _ _ _ _ _ H1).
  destruct (debugLightning_animating p nodePositions s1)
    as (debug & s2 & H2 & Hsurf2 & _).
  rewrite (bind_run _ _ _ _ _ H2).
  destruct (animateChannelEvents_sounding p (nodeMap_of nodePositions) s2)
    as (batch & s3 & H3 & Hsurf3 & _).
  rewrite (bind_run _ _ _ _ _ H3).
  assert (surface s s3) as (Hw & Hd & _) by (trans s1; [done|]; by trans s2).
  eexists byId, s1, debug, s2, batch, s3, _, _.
  split_and!; [exact H1 | exact H2 | exact H3 | reflexivity | reflexivity | reflexivity..
              | exact Hw | cbn; congruence ].
Qed.


(** The map from ids to positions holds, for an id, the position of
    the last node that has it. *)
Lemma nodeMap_of_lookup (l : list Positioned) (k : string) :
  nodeMap_of l !! k
  = (λ n, (node_x n, node_y n)) <$> last (filter (λ n, node_id (node n) = k) l).
Proof.
  induction l as [|n l IH] using rev_ind; [done|].
  unfold nodeMap_of in *. rewrite foldl_snoc, filter_app.
  destruct (decide (node_id (node n) = k)) as [Hk|Hk].
  - rewrite Hk, lookup_insert_eq.
    rewrite (filter_cons _ n []), decide_True by done.
    cbn [filter list_filter]. by rewrite last_snoc.
  - rewrite lookup_insert_ne by done.
    rewrite (filter_cons _ n []), decide_False by done.
    cbn [filter list_filter]. by rewrite app_nil_r.
Qed.

Lemma position_of_node s p (n : Node) :
  (node (position (fitted s) (dimensions s).1 (dimensions s).2 n) = n)
  ∧ (node_x (position (fitted s) (dimensions s).1 (dimensions s).2 n),
     node_y (position (fitted s) (dimensions s).1 (dimensions s).2 n))
    = expected_position s n.
Proof.
  unfold position, expected_position, fitted. destruct (dimensions s) as [width height].
  cbn [fst snd]. destruct (geo n) as [g|]; [|done].
  by destruct (default _ _).
Qed.

Lemma nodePositions_of_fitted s p :
  nodePositions_of s p
  = position (fitted s) (dimensions s).1 (dimensions s).2 <$> nodes p.
Proof. unfold nodePositions_of, fitted. by destruct (dimensions s). Qed.

Lemma nodeMap_of_positions s p (k : string) :
  nodeMap_of (nodePositions_of s p) !! k
  = expected_position s <$> last (filter (λ n, node_id n = k) (nodes p)).
Proof.
  rewrite nodeMap_of_lookup, nodePositions_of_fitted.
  induction (nodes p) as [|n l IH] using rev_ind; [done|].
  rewrite fmap_app, !filter_app. cbn [fmap list_fmap].
  rewrite (filter_cons _ n []), (filter_cons _ (position _ _ _ n) []).
  destruct (position_of_node s p n) as [Hn Hxy]. rewrite Hn.
  destruct (decide (node_id n = k)) as [Hk|Hk].
  - cbn [filter list_filter]. rewrite !last_snoc. cbn. by rewrite Hxy.
  - cbn [filter list_filter]. rewrite !app_nil_r. exact IH.
Qed.

(** X17.  For node ids that are not names inherited from
    [Object.prototype]: a redraw draws one line for every channel of the
    prop, in the order of the channels and with the colour of its index;
    an end of the line is at the position of the last node that has the
    id of that end of the channel, and has no coordinates when no node
    has it (the line is drawn all the same). *)
Theorem lines_join_known_nodes p s :
  svgRef s = true →
  Forall own_key (node_id <$> nodes p) →
  ∃ g s',
    redraw p s = (Normal tt, s')
    ∧ zoom_group s' = Some g
    ∧ length (lines g) = length (channels p)
    ∧ ∀ i d, channels p !! i = Some d →
        ∃ l, lines g !! i = Some l
             ∧ line_stroke l = scaleSequential_interpolateCool (length (channels p)) i
             ∧ (x1 l, y1 l) = line_end s p (source d)
             ∧ (x2 l, y2 l) = line_end s p (target d).
Proof.
  intros Hsvg _.
  destruct (redraw_parts p s Hsvg)
    as (byId & s1 & debug & s2 & batch & s3 & g & s' & _ & _ & _ & Hrun & Hg & _ & Hl & _).
  exists g, s'. split_and!; [done | done | by rewrite Hl, length_imap |].
  intros i d Hd. rewrite Hl, list_lookup_imap, Hd. eexists. split; [reflexivity|].
  unfold link, line_end. cbn [line_stroke x1 y1 x2 y2]. rewrite !nodeMap_of_positions.
  split_and!; [done | |].
  - by destruct (last (filter (λ n, node_id n = source d) (nodes p))).
  - by destruct (last (filter (λ n, node_id n = target d) (nodes p))).
Qed.

(** *** The animations *)

Lemma omap_length_le {A B} (f : A → option B) (l : list A) :
  (length (omap f l) ≤ length l)%nat.
Proof.
  induction l as [|x l IH]; [done|]. cbn [omap list_omap].
  destruct (f x); cbn [length]; lia.
Qed.

(** The loop over the pending events draws one polyline for every event
    that resolves, in the order of the events, and consumes twelve
    samples for each. *)
Lemma animateChannelEvents_loop p (nodeMap : gmap string (Q * Q))
    (events : list ChannelEvent) drawn s :
  ∃ more s',
    for_of events (λ drawn event,
      match List.find (λ c, bool_decide (channel_id c = event_id event)) (channels p) with
      | Some channel =>
          match nodeMap !! source channel, nodeMap !! target channel with
          | Some source_, Some target_ =>
              pts ← lightningPoints source_ target_;
              mret (drawn ++ [ {| points := pts;
                                  stroke := stroke_of (event_status event);
                                  duration := animationDuration_or_default p |} ])
          | _, _ => mret drawn
          end
      | None => mret drawn
      end) drawn s
    = (Normal (drawn ++ more), s')
    ∧ sampling s s'
    ∧ Forall2 (effect_of p) more
        (omap (λ event, (event,.) <$> resolved p nodeMap event) events)
    ∧ random_reads s' = (random_reads s + 12 * length more)%nat.
Proof.
  set (body := λ (drawn : list Polyline) (event : ChannelEvent), _).
  revert drawn s. induction events as [|event events IH]; intros drawn s.
  - exists [], s. rewrite app_nil_r. split_and!; [done | done | constructor | cbn; lia].
  - change (for_of (event :: events) body drawn s)
      with ((body drawn event ≫= λ drawn1, for_of events body drawn1) s).
    cbn [omap list_omap].
    destruct (resolved p nodeMap event) as [[a b]|] eqn:Hres.
    + assert (∃ s1, body drawn event s
                = (Normal (drawn ++ [ {| points := a :: jitters a b (random_reads s)
                                                          [1; 2; 3; 4; 5; 6] ++ [b];
                                         stroke := stroke_of (event_status event);
                                         duration := animationDuration_or_default p |} ]),
                   s1)
                ∧ sampling s s1 ∧ random_reads s1 = (random_reads s + 12)%nat)
        as (s1 & Hbody & Hs1 & Hk1).
      { unfold body, resolved in *.
        destruct (List.find _ (channels p)) as [channel|]; [|done].
        destruct (nodeMap !! source channel) as [a'|]; [|done].
        destruct (nodeMap !! target channel) as [b'|]; [|done].
        injection Hres as -> ->.
        destruct (lightningPoints_exact a b s) as (s1 & Hrun & Hk & Hs).
        exists s1. by rewrite (bind_run _ _ _ _ _ Hrun). }
      rewrite (bind_run _ _ _ _ _ Hbody).
      destruct (IH (drawn ++ [ {| points := a :: jitters a b (random_reads s)
                                              [1; 2; 3; 4; 5; 6] ++ [b];
                                  stroke := stroke_of (event_status event);
                                  duration := animationDuration_or_default p |} ]) s1)
        as (more & s' & Hrun & Hs' & Hall & Hk').
      eexists (_ :: more), s'. split_and!.
      * rewrite Hrun, <- (assoc_L (++)). done.
      * by trans s1.
      * cbn [fmap option_fmap option_map]. constructor; [|done].
        unfold effect_of. cbn. split_and!; done.
      * rewrite Hk', Hk1. cbn [length]. lia.
    + assert (body drawn event s = (Normal drawn, s)) as Hbody.
      { unfold body, resolved in *.
        destruct (List.find _ (channels p)) as [channel|]; [|done].
        destruct (nodeMap !! source channel) as [a'|]; [|done].
        destruct (nodeMap !! target channel) as [b'|]; done. }
      rewrite (bind_run _ _ _ _ _ Hbody). cbn [fmap option_fmap option_map]. apply IH.
Qed.

Lemma animateChannelEvents_run p (nodeMap : gmap string (Q * Q)) s :
  ∃ drawn s',
    animateChannelEvents p nodeMap s = (Normal drawn, s')
    ∧ Forall2 (effect_of p) drawn
        (omap (λ event, (event,.) <$> resolved p nodeMap event)
              (slice_last (maxChannelEvents_or_default p) (channelEvents_or_default p)))
    ∧ random_reads s' = (random_reads s + 12 * length drawn)%nat
    ∧ (length drawn ≤ length (channelEvents_or_default p))%nat.
Proof.
  unfold animateChannelEvents.
  destruct (0 <? Z.of_nat (length (channelEvents_or_default p))) eqn:Hany.
  - set (limitedEvents := slice_last _ _).
    assert (∃ s1, (if 0 <? Z.of_nat (length limitedEvents)
                   then playLightningSound else mret tt) s = (Normal tt, s1)
                  ∧ random_reads s1 = random_reads s) as (s1 & Hplay & Hk1).
    { destruct (0 <? Z.of_nat (length limitedEvents)).
      - destruct (playLightningSound_run s) as (s1 & ? & _ & ? & _). eauto.
      - by exists s. }
    rewrite (bind_run _ _ _ _ _ Hplay).
    destruct (animateChannelEvents_loop p nodeMap limitedEvents [] s1)
      as (more & s' & Hrun & _ & Hall & Hk).
    exists more, s'. split_and!; [exact Hrun | done | by rewrite Hk, Hk1 |].
    apply Forall2_length in Hall. rewrite Hall.
    etrans; [apply omap_length_le|]. subst limitedEvents.
    apply suffix_length, slice_last_suffix.
  - apply Z.ltb_ge in Hany.
    assert (channelEvents_or_default p = []) as Hnil.
    { destruct (channelEvents_or_default p); [done | cbn in Hany; lia]. }
    exists [], s. rewrite Hnil.
    assert (slice_last (maxChannelEvents_or_default p) (@nil ChannelEvent) = []) as ->.
    { unfold slice_last, slice. by rewrite drop_nil, take_nil. }
    split_and!; [done | constructor | cbn; lia | cbn; lia].
Qed.

(** X18.  For a positive [maxChannelEvents] and channels whose ends are
    not names inherited from [Object.prototype]: the batch animation
    keeps the last [maxChannelEvents] events (all of them when there are
    fewer) and draws one polyline for every one of these that resolves,
    in the order of the events, and none for the others; the polyline
    runs between the positions of the two ends of the first channel that
    has the id of the event, in the colour of the status of the event
    and with the duration of the prop.  So no more than
    [maxChannelEvents] polylines are drawn.  Twelve random samples are
    consumed for every polyline, the sound is played once at most, and
    without a pending event nothing happens at all. *)
Theorem batch_draws_resolved_events p (nodeMap : gmap string (Q * Q)) s :
  0 < maxChannelEvents_or_default p →
  Forall (λ c, own_key (source c) ∧ own_key (target c)) (channels p) →
  let events := channelEvents_or_default p in
  let kept := drop (length events - Z.to_nat (maxChannelEvents_or_default p)) events in
  ∃ drawn s',
    animateChannelEvents p nodeMap s = (Normal drawn, s')
    ∧ Forall2 (effect_of p) drawn
        (omap (λ event, (event,.) <$> resolved p nodeMap event) kept)
    ∧ Z.of_nat (length drawn) ≤ maxChannelEvents_or_default p
    ∧ random_reads s' = (random_reads s + 12 * length drawn)%nat
    ∧ (length drawn ≤ length events)%nat
    ∧ (played s' = played s ∨ ∃ t, played s' = played s ++ [t])
    ∧ (events = [] → drawn = [] ∧ s' = s).
Proof.
  intros Hcap _ events kept.
  destruct (animateChannelEvents_run p nodeMap s) as (drawn & s' & Hrun & Hall & Hrd & Hlen).
  destruct (animateChannelEvents_sounding p nodeMap s) as (drawn' & s'' & Hrun' & _ & _ & Hpl).
  rewrite Hrun in Hrun'. injection Hrun' as <- <-.
  rewrite slice_last_positive in Hall by done. fold events kept in Hall.
  exists drawn, s'. split_and!; [done | done | | done | done | done |].
  - apply Forall2_length in Hall. rewrite Hall.
    etrans; [apply inj_le, omap_length_le|].
    subst kept. rewrite length_drop. lia.
  - intros Hnil. unfold animateChannelEvents in Hrun. fold events in Hrun.
    rewrite Hnil in Hrun. cbn in Hrun. by injection Hrun as <- <-.
Qed.

(** X19.  For channels whose ends are not names inherited from
    [Object.prototype]: the animation of the [channelEventId] prop draws
    at most one polyline.  It draws one exactly when the id is not empty,
    a channel of the prop has it and both ends of the first such channel
    are nodes of the map; the polyline then runs between the positions of
    these ends, in the colour of the status of the channel, after one
    attempt to play the sound.  Otherwise nothing is drawn and the
    component is left as it is. *)
Theorem channel_event_id_draws_one_effect p (nodeMap : gmap string (Q * Q)) s :
  Forall (λ c, own_key (source c) ∧ own_key (target c)) (channels p) →
  ∃ drawn s',
    animateChannelEventId p nodeMap s = (Normal drawn, s')
    ∧ (length drawn ≤ 1)%nat
    ∧ (drawn = [] → s' = s)
    ∧ (∀ cid c a b,
         channelEventId p = Some cid → cid ≠ EmptyString →
         List.find (λ c, bool_decide (channel_id c = cid)) (channels p) = Some c →
         nodeMap !! source c = Some a → nodeMap !! target c = Some b →
         ∃ pl, drawn = [pl]
               ∧ head (points pl) = Some a ∧ last (points pl) = Some b
               ∧ length (points pl) = 8%nat
               ∧ stroke pl = stroke_of (status c)
               ∧ duration pl = animationDuration_or_default p
               ∧ clock_reads s' = S (clock_reads s)
               ∧ random_reads s' = (random_reads s + 12)%nat)
    ∧ (drawn ≠ [] →
       ∃ cid c, channelEventId p = Some cid ∧ cid ≠ EmptyString
                ∧ List.find (λ c, bool_decide (channel_id c = cid)) (channels p) = Some c
                ∧ is_Some (nodeMap !! source c) ∧ is_Some (nodeMap !! target c)).
Proof.
  intros _. unfold animateChannelEventId.
  destruct (channelEventId p) as [cid|];
    [|exists [], s; split_and!; [done | cbn; lia | done | done | done]].
  unfold truthy. destruct (decide (cid = EmptyString)) as [->|Hcid].
  { exists [], s. split_and!; [done | cbn; lia | done | | done].
    intros cid c a b [= <-] Hne. done. }
  rewrite bool_decide_eq_false_2 by done. cbn [negb].
  destruct (List.find _ (channels p)) as [c|] eqn:Hfind.
  2: { exists [], s. split_and!; [done | cbn; lia | done | | done].
       intros cid' c a b [= <-] _ Hf. congruence. }
  destruct (nodeMap !! source c) as [a|] eqn:Ha.
  2: { exists [], s. split_and!; [done | cbn; lia | done | | done].
       intros cid' c' a b [= <-] _ Hf Ha'. congruence. }
  destruct (nodeMap !! target c) as [b|] eqn:Hb.
  2: { exists [], s. split_and!; [done | cbn; lia | done | | done].
       intros cid' c' a' b [= <-] _ Hf _ Hb'. congruence. }
  destruct (playLightningSound_run s) as (s1 & Hplay & _ & Hrd1 & Hck1 & _).
  destruct (lightningPoints_exact a b s1) as (s' & Hpts & Hrd & Hs).
  eexists [_], s'. split_and!.
  - rewrite (bind_run _ _ _ _ _ Hplay), (bind_run _ _ _ _ _ Hpts). reflexivity.
  - cbn. lia.
  - done.
  - intros cid' c' a' b' [= <-] _ Hf Ha' Hb'.
    rewrite Hfind in Hf. injection Hf as <-.
    rewrite Ha in Ha'. rewrite Hb in Hb'. injection Ha' as <-. injection Hb' as <-.
    eexists. split; [reflexivity|]. cbn [points stroke duration].
    destruct Hs as (_ & _ & _ & Hck). split_and!; try done.
    + congruence.
    + rewrite Hrd, Hrd1. done.
  - intros _. exists cid, c. split_and!; [done | done | done | by rewrite Ha | by rewrite Hb].
Qed.

(** *** A redraw that animates nothing *)

(** X20.  A redraw with props that ask for no animation (no
    channel-event id, or the empty one; no debug trigger, or one that is
    not positive; no pending event) replaces the group by one without
    polylines, plays no sound and reads neither the clock nor the random
    source. *)
Theorem idle_redraw_is_silent p s :
  svgRef s = true →
  idle p →
  ∃ g s',
    redraw p s = (Normal tt, s')
    ∧ zoom_group s' = Some g
    ∧ polylines g = []
    ∧ length (circles g) = length (nodes p)
    ∧ played s' = played s
    ∧ lastSoundTimeRef s' = lastSoundTimeRef s
    ∧ clock_reads s' = clock_reads s
    ∧ random_reads s' = random_reads s.
Proof.
  intros Hsvg (Hid & Htrigger & Hevents).
  destruct (redraw_parts p s Hsvg)
    as (byId & s1 & debug & s2 & batch & s3 & g & s' & H1 & H2 & H3 & Hrun & Hg
        & _ & _ & Hc & Hpl & Hp & Hl & Hck & Hrd & _).
  assert (animateChannelEventId p (nodeMap_of (nodePositions_of s p)) s = (Normal [], s))
    as H1'.
  { unfold animateChannelEventId. by destruct Hid as [-> | ->]. }
  rewrite H1 in H1'. injection H1' as -> ->.
  assert (debugLightning p (nodePositions_of s p) s = (Normal [], s)) as H2'.
  { unfold debugLightning. destruct (triggerDebugLightning p) as [trigger|] eqn:Ht; [|done].
    specialize (Htrigger trigger eq_refl).
    by rewrite (proj2 (Z.ltb_ge 0 trigger)). }
  rewrite H2 in H2'. injection H2' as -> ->.
  assert (animateChannelEvents p (nodeMap_of (nodePositions_of s p)) s = (Normal [], s))
    as H3'.
  { unfold animateChannelEvents. by rewrite Hevents. }
  rewrite H3 in H3'. injection H3' as -> ->.
  exists g, s'. split_and!; try done.
  rewrite Hc, length_fmap, nodePositions_of_fitted, length_fmap. done.
Qed.

(** *** The atlas *)

Lemma without_Antarctica_keeps features f :
  f ∈ without_Antarctica features
  ↔ f ∈ features
    ∧ (properties f = None
       ∨ ∃ pr, properties f = Some pr
               ∧ name pr ≠ Some "Antarctica" ∧ NAME pr ≠ Some "Antarctica"
               ∧ feature_id f ≠ Some "010").
Proof.
  unfold without_Antarctica. rewrite list_elem_of_In, List.filter_In, <- list_elem_of_In.
  apply and_iff_compat_l. unfold is_Antarctica.
  destruct (properties f) as [pr|]; [|by split; [left|]].
  rewrite negb_true_iff, !orb_false_iff, !bool_decide_eq_false. split.
  - intros [[? ?] ?]. right. by exists pr.
  - intros [?|(pr' & [= <-] & ? & ? & ?)]; done.
Qed.

(** X21.  When the atlas arrives, the features kept are those of the
    atlas, in their order, except the ones that have properties and are
    named Antarctica (under [name] or [NAME]) or have the id [010]; a
    feature without properties is kept whatever its id.  The filter of
    the redraw then changes nothing: the map has one path for every
    feature kept, and the projection is fitted to exactly these. *)
Theorem atlas_is_drawn_without_Antarctica (countries : list Feature) p s :
  svgRef s = true →
  ∃ s0 g s',
    onWorldLoaded countries s = (Normal tt, s0)
    ∧ world s0 = Some (without_Antarctica countries)
    ∧ (∀ f, f ∈ without_Antarctica countries
            ↔ f ∈ countries
              ∧ (properties f = None
                 ∨ ∃ pr, properties f = Some pr
                         ∧ name pr ≠ Some "Antarctica" ∧ NAME pr ≠ Some "Antarctica"
                         ∧ feature_id f ≠ Some "010"))
    ∧ without_Antarctica countries `sublist_of` countries
    ∧ redraw p s0 = (Normal tt, s')
    ∧ zoom_group s' = Some g
    ∧ paths g
      = geoPath (geoMercator_fitSize (dimensions s).1 (dimensions s).2
                   (without_Antarctica countries))
          <$> without_Antarctica countries.
Proof.
  intros Hsvg.
  assert (∃ s0, onWorldLoaded countries s = (Normal tt, s0)
                ∧ world s0 = Some (without_Antarctica countries)
                ∧ svgRef s0 = svgRef s ∧ dimensions s0 = dimensions s)
    as (s0 & Hload & Hw & Hsvg0 & Hdim).
  { destruct s. eexists. split; [reflexivity|]. done. }
  destruct (redraw_parts p s0) as (byId & s1 & debug & s2 & batch & s3 & g & s' & _ & _ & _
                                   & Hrun & Hg & Hpaths & _); [congruence|].
  exists s0, g, s'. split_and!; [done | done | apply without_Antarctica_keeps | | done | done |].
  - unfold without_Antarctica. clear. induction countries as [|f l IH]; [done|].
    cbn [List.filter]. destruct (negb _); [by apply sublist_skip | by apply sublist_cons].
  - rewrite Hpaths. unfold fitted. rewrite Hw, Hdim. cbn [fmap option_fmap option_map default].
    by rewrite without_Antarctica_idempotent.
Qed.

(** *** The glow filter *)

Lemma glow_effects_attached (n : nat) :
  Glow.effects (S n) Glow.empty_svg = {| Glow.attached := true; Glow.glow_filters := 1 |}.
Proof.
  induction n as [|n IH]; [done|].
  change (Glow.effects (S (S n)) Glow.empty_svg)
    with (Glow.effect (Glow.effects (S n) Glow.empty_svg)).
  by rewrite IH.
Qed.

Lemma glow_effects_detached (n : nat) (svg : Glow.Svg) :
  Glow.attached svg = false → Glow.effects n svg = svg.
Proof.
  intros Hoff. induction n as [|n IH]; [done|].
  change (Glow.effects (S n) svg) with (Glow.effect (Glow.effects n svg)).
  rewrite IH. unfold Glow.effect. by rewrite Hoff.
Qed.

(** X22.  However often the dimensions change, the glow filter that the
    polylines refer to is defined once: after the effect has run at
    least once on an attached [svg] without the filter there is exactly
    one element with the id [glow], and running the effect again changes
    nothing.  On an [svg] that is not attached the effect does nothing. *)
Theorem glow_filter_is_defined_once (n : nat) :
  Glow.glow_filters (Glow.effects (S n) Glow.empty_svg) = 1%nat
  ∧ Glow.effect (Glow.effects (S n) Glow.empty_svg) = Glow.effects (S n) Glow.empty_svg
  ∧ ∀ filters, Glow.effects n {| Glow.attached := false; Glow.glow_filters := filters |}
               = {| Glow.attached := false; Glow.glow_filters := filters |}.
Proof.
  rewrite glow_effects_attached. split_and!; [done | done |].
  intros filters. by apply glow_effects_detached.
Qed.

(** *** The markers *)

(** X23.  The circle of a node is at the position of the node.  For a
    node without a country (or with the empty one) it is grey and titled
    with the id of the node; for a node with a country it is titled with
    the id and the country, and its colour is the rainbow at a point of
    [[0, 1)] that only depends on the first character of the country. *)
Theorem marker_colour_and_title (d : Positioned) :
  cx (marker d) = node_x d ∧ cy (marker d) = node_y d
  ∧ match geo (node d) ≫= country with
    | Some c =>
        if decide (c = EmptyString)
        then fill (marker d) = "#888" ∧ title (marker d) = node_id (node d)
        else (∃ q, (0 <= q)%Q ∧ (q < 1)%Q
                   ∧ q = (inject_Z (charCodeAt0 c `rem` 24) / 24)%Q
                   ∧ fill (marker d) = interpolateRainbow q)
             ∧ title (marker d) = node_id (node d) +:+ " (" +:+ c +:+ ")"
    | None => fill (marker d) = "#888" ∧ title (marker d) = node_id (node d)
    end.
Proof.
  unfold marker. destruct (geo (node d) ≫= country) as [c|] eqn:Hc; [|done].
  unfold truthy. destruct (decide (c = EmptyString)) as [->|Hne]; [done|].
  rewrite bool_decide_eq_false_2 by done. cbn [negb cx cy fill title].
  split_and!; [done | done | | done].
  eexists. split_and!; [| | reflexivity | reflexivity].
  - assert (0 ≤ charCodeAt0 c `rem` 24) as Hrem.
    { apply Z.rem_nonneg; [lia|]. destruct c; cbn; lia. }
    unfold Qle, Qdiv, Qmult, Qinv. cbn. lia.
  - assert (charCodeAt0 c `rem` 24 < 24) as Hrem.
    { apply Z.rem_bound_pos; [|lia]. destruct c; cbn; lia. }
    unfold Qlt, Qdiv, Qmult, Qinv. cbn. lia.
Qed.

End DrawingFacts.


(** ** The poller and the map together *)

Section SessionFacts.
Import JS.
Context `{Host} `{ImportMetaEnv} `{D3}.

Lemma find_app {A} (f : A → bool) (l1 l2 : list A) :
  List.find f (l1 ++ l2)
  = match List.find f l1 with Some x => Some x | None => List.find f l2 end.
Proof. induction l1 as [|x l1 IH]; [done|]. cbn. by destruct (f x). Qed.

Lemma find_filter {A} (f : A → bool) (P : A → Prop) `{!∀ x, Decision (P x)}
    (l : list A) :
  (∀ x, f x = true → P x) → List.find f (filter P l) = List.find f l.
Proof.
  intros Himp. induction l as [|x l IH]; [done|].
  rewrite filter_cons. cbn [List.find]. destruct (f x) eqn:Hf.
  - rewrite decide_True by auto. cbn. by rewrite Hf.
  - destruct (decide (P x)); [cbn; by rewrite Hf | done].
Qed.

Lemma find_fmap {A B} (f : B → bool) (g : A → B) (l : list A) :
  List.find f (g <$> l) = g <$> List.find (λ x, f (g x)) l.
Proof. induction l as [|x l IH]; [done|]. cbn. by destruct (f (g x)). Qed.

Lemma find_present (cs : list Channel) (id : string) :
  id ∈ channel_id <$> cs →
  ∃ c, List.find (λ c, bool_decide (channel_id c = id)) cs = Some c
       ∧ c ∈ cs ∧ channel_id c = id.
Proof.
  intros Hin. destruct (List.find _ cs) as [c|] eqn:Hfind.
  - apply List.find_some in Hfind as [Hc Hid]. apply bool_decide_eq_true in Hid.
    exists c. by rewrite list_elem_of_In.
  - exfalso. apply list_elem_of_fmap in Hin as (c & -> & Hc).
    apply list_elem_of_In in Hc.
    pose proof (List.find_none _ _ Hfind c Hc) as Hno. cbn in Hno.
    by apply bool_decide_eq_false in Hno.
Qed.

Lemma find_absent (cs : list Channel) (id : string) :
  id ∉ channel_id <$> cs →
  List.find (λ c, bool_decide (channel_id c = id)) cs = None.
Proof.
  intros Hno. destruct (List.find _ cs) as [c|] eqn:Hfind; [|done].
  apply List.find_some in Hfind as [Hc Hid]. apply bool_decide_eq_true in Hid.
  exfalso. apply Hno. rewrite <- Hid. apply list_elem_of_fmap_2. by rewrite list_elem_of_In.
Qed.

Lemma channel_prop_of_channel (c : Channel) :
  View.channel_prop (App.shown_of_channel c) = c.
Proof. by destruct c. Qed.

Lemma channel_prop_of_channels (l : list Channel) :
  View.channel_prop <$> (App.shown_of_channel <$> l) = l.
Proof.
  induction l as [|c l IH]; [done|]. cbn. by rewrite channel_prop_of_channel, IH.
Qed.

(** The first channel of the prop that has the id of a pending event is
    the first channel of the snapshot that has it, when there is one. *)
Lemma find_shown (showAll : bool) (cs : list Channel) (events : list ChannelEvent) e c :
  e ∈ events →
  List.find (λ c, bool_decide (channel_id c = event_id e)) cs = Some c →
  List.find (λ c, bool_decide (channel_id c = event_id e))
    (View.channel_prop <$> App.shownChannels showAll cs events) = Some c.
Proof.
  intros He Hfind.
  assert (∀ l : list Channel,
            View.channel_prop ∘ App.shown_of_channel <$> l = l) as Hid.
  { intros l. induction l as [|c' l IH]; [done|].
    cbn. by rewrite channel_prop_of_channel, IH. }
  unfold App.shownChannels. destruct showAll.
  - by rewrite <- list_fmap_compose, Hid.
  - rewrite fmap_app, find_app, <- list_fmap_compose, Hid.
    rewrite find_filter; [by rewrite Hfind|].
    intros c' Hc'. apply bool_decide_eq_true in Hc'.
    apply Exists_exists. by exists e.
Qed.

Lemma rejected_poll_frame s response :
  ¬ App.accepted response → App.frame s (App.poll response s).
Proof.
  intros Hrej. unfold App.poll.
  destruct (log_run App.fetching_line s) as (s0 & Hlog0 & Hf0 & _).
  destruct response as [e | [] code [e | data]]; try (exfalso; apply Hrej; exact I).
  - destruct (log_run ("[API] Error fetching Lightning Network channels-geo: " +:+ e) s0)
      as (s' & Hlog1 & Hf1 & _).
    unfold App.fetchChannelsGeo, try_catch. fold App.fetching_line.
    rewrite (bind_run _ _ _ _ _ Hlog0). cbv [throw]. rewrite Hlog1.
    eauto using frame_trans.
  - destruct (log_run ("[API] Error fetching Lightning Network channels-geo: " +:+ e) s0)
      as (s' & Hlog1 & Hf1 & _).
    unfold App.fetchChannelsGeo, try_catch. fold App.fetching_line.
    rewrite (bind_run _ _ _ _ _ Hlog0). cbn [negb]. cbv [throw]. rewrite Hlog1.
    eauto using frame_trans.
  - destruct (log_run ("[API] Failed to fetch Lightning Network channels-geo: "
                         +:+ string_of_number code) s0) as (s' & Hlog1 & Hf1 & _).
    unfold App.fetchChannelsGeo, try_catch. fold App.fetching_line.
    rewrite (bind_run _ _ _ _ _ Hlog0). cbn [negb]. rewrite Hlog1.
    eauto using frame_trans.
  - destruct (log_run ("[API] Failed to fetch Lightning Network channels-geo: "
                         +:+ string_of_number code) s0) as (s' & Hlog1 & Hf1 & _).
    unfold App.fetchChannelsGeo, try_catch. fold App.fetching_line.
    rewrite (bind_run _ _ _ _ _ Hlog0). cbn [negb]. rewrite Hlog1.
    eauto using frame_trans.
Qed.

(** In every state the poller reaches, the node and channel lists are
    those of one snapshot (or empty, before the first). *)
Lemma polls_snapshot (responses : list App.Response) :
  ∃ data, App.nodes (App.polls responses App.initial) = App.nodeArr_of data
          ∧ App.channels (App.polls responses App.initial) = App.channelArr_of data.
Proof.
  induction responses as [|r rs (data0 & Hn & Hc)] using rev_ind; [by exists []|].
  rewrite polls_snoc. revert Hn Hc. generalize (App.polls rs App.initial). intros s Hn Hc.
  assert (App.accepted r ∨ ¬ App.accepted r) as [Hacc|Hrej].
  { destruct r as [e | [] code [e | data]]; cbn; tauto. }
  - destruct r as [e | [] code [e | data]]; try done. exists data.
    destruct (log_run ("[API] Fetching Lightning Network channels with geodata from: "
                         +:+ CHANNELS_GEO_API) s) as (s0 & Hlog & Hf0 & _).
    destruct (decide (App.isFirstLoad s0 = true ∨ App.prevChannelsRef s0 = []))
      as [Hbase|Hdiff].
    + destruct (baseline_branch s data code) as (s' & Hrun & _ & _ & Hn' & Hc' & _).
      { destruct Hf0 as (_ & _ & _ & _ & <- & <-). done. }
      unfold App.poll. by rewrite Hrun.
    + destruct (accept_diff data s0)
        as (s1 & evs & s2 & s' & _ & _ & Hrun & _ & Hn' & Hc' & _).
      { destruct (App.isFirstLoad s0); [|done]. exfalso. apply Hdiff. by left. }
      { intros ?. apply Hdiff. by right. }
      unfold App.poll, App.fetchChannelsGeo, try_catch.
      rewrite (bind_run _ _ _ _ _ Hlog). cbn [negb]. by rewrite Hrun.
  - destruct (rejected_poll_frame s r Hrej) as (-> & -> & _). by exists data0.
Qed.

Lemma endpoint_nodes_geo (data : list App.Entry) (n : Node) :
  n ∈ App.endpoint_nodes data → geo n ≫= country = None.
Proof.
  unfold App.endpoint_nodes. rewrite list_elem_of_bind. intros (entry & Hn & _).
  unfold App.row_nodes in Hn. apply elem_of_cons in Hn as [->|Hn]; [done|].
  by apply list_elem_of_singleton in Hn as ->.
Qed.

(** X24.  The map never uses the rainbow: the poller gives no node a
    country, so (for snapshots whose public keys are not names inherited
    from [Object.prototype]) in every state the poller reaches and for
    every state of the map, a redraw draws one circle for every node of
    the snapshot, in the order of the nodes, grey, titled with the id of
    the node and at the position of the node. *)
Theorem poller_nodes_are_grey (responses : list App.Response) (u : App.Ui)
    (s : LightningGraph.State) :
  LightningGraph.svgRef s = true →
  Forall (App.snapshot_endpoints own_key) responses →
  ∃ g s',
    LightningGraph.redraw (View.props u (App.polls responses App.initial)) s
    = (Normal tt, s')
    ∧ LightningGraph.zoom_group s' = Some g
    ∧ Forall2 (λ n c, LightningGraph.fill c = "#888"
                      ∧ LightningGraph.title c = node_id n
                      ∧ (LightningGraph.cx c, LightningGraph.cy c)
                        = LightningGraph.expected_position s n)
        (App.nodes (App.polls responses App.initial)) (LightningGraph.circles g).
Proof.
  intros Hsvg _.
  destruct (redraw_parts (View.props u (App.polls responses App.initial)) s Hsvg)
    as (byId & s1 & debug & s2 & batch & s3 & g & s' & _ & _ & _ & Hrun & Hg & _ & _ & Hc & _).
  exists g, s'. split_and!; [done | done |].
  rewrite Hc, nodePositions_of_fitted. cbn [View.props LightningGraph.nodes].
  destruct (polls_snapshot responses) as (data & Hn & _). rewrite Hn.
  rewrite <- list_fmap_compose. apply Forall2_fmap_r, Forall_Forall2_diag, Forall_forall.
  intros n Hin. apply nodeArr_of_first in Hin as (i & Hi & _).
  apply list_elem_of_lookup_2, endpoint_nodes_geo in Hi.
  destruct (position_of_node s (View.props u (App.polls responses App.initial)) n)
    as [Hnode Hxy].
  cbn [compose]. unfold LightningGraph.marker. rewrite Hnode, Hi. done.
Qed.

Lemma last_with_id (l : list Node) (k : string) :
  k ∈ node_id <$> l →
  ∃ a, last (filter (λ n, node_id n = k) l) = Some a ∧ a ∈ l ∧ node_id a = k.
Proof.
  intros Hin. apply list_elem_of_fmap in Hin as (n & -> & Hn).
  destruct (last (filter (λ n', node_id n' = node_id n) l)) as [a|] eqn:Hlast.
  - exists a. split; [done|]. apply last_Some_elem_of, list_elem_of_filter in Hlast.
    destruct Hlast. done.
  - apply last_None in Hlast.
    assert (n ∈ filter (λ n', node_id n' = node_id n) l) as Hn'.
    { by apply list_elem_of_filter. }
    rewrite Hlast in Hn'. by apply elem_of_nil in Hn'.
Qed.

Lemma channel_ends_are_nodes (data : list App.Entry) (c : Channel) :
  c ∈ App.channelArr_of data →
  source c ∈ node_id <$> App.nodeArr_of data
  ∧ target c ∈ node_id <$> App.nodeArr_of data.
Proof.
  rewrite channelArr_of_rows, nodeArr_of_ids, list_elem_of_fmap.
  intros (entry & -> & Hin). cbn. rewrite !Set_new_elem. by apply row_endpoints.
Qed.

(** X25.  For a positive cap, snapshots whose public keys hold no dash
    and are not names inherited from [Object.prototype], and a debug
    trigger that is not positive: in every state the poller reaches, a
    redraw draws exactly
    one polyline for every pending event that resolves, in the order of
    the events.  A pending event whose id is the id of a channel of the
    snapshot always resolves, to the positions of two nodes of the
    snapshot that are the ends of such a channel.  With "show all
    channels" on, a pending event whose id is not the id of a channel of
    the snapshot (a channel that has just closed) never resolves: it is
    not animated. *)
Theorem pending_events_are_animated (responses : list App.Response) (u : App.Ui)
    (s : LightningGraph.State) :
  LightningGraph.svgRef s = true →
  0 < MAX_CHANNEL_EVENTS →
  App.debugLightningTrigger u ≤ 0 →
  Forall (App.snapshot_endpoints (λ k, own_key k ∧ has_char "-" k = false)) responses →
  let st := App.polls responses App.initial in
  let p := View.props u st in
  let nodeMap := LightningGraph.nodeMap_of (LightningGraph.nodePositions_of s p) in
  ∃ g s',
    LightningGraph.redraw p s = (Normal tt, s')
    ∧ LightningGraph.zoom_group s' = Some g
    ∧ Forall2 (LightningGraph.effect_of p) (LightningGraph.polylines g)
        (omap (λ e, (e,.) <$> LightningGraph.resolved p nodeMap e) (App.channelEvents st))
    ∧ Forall (λ e,
        (event_id e ∈ channel_id <$> App.channels st →
         ∃ c a b,
           c ∈ App.channels st ∧ channel_id c = event_id e
           ∧ a ∈ App.nodes st ∧ node_id a = source c
           ∧ b ∈ App.nodes st ∧ node_id b = target c
           ∧ LightningGraph.resolved p nodeMap e
             = Some (LightningGraph.expected_position s a,
                     LightningGraph.expected_position s b))
        ∧ (App.showAllChannels u = true →
           event_id e ∉ channel_id <$> App.channels st →
           LightningGraph.resolved p nodeMap e = None))
        (App.channelEvents st).
Proof.
  intros Hsvg Hcap Htrigger _ st p nodeMap.
  destruct (redraw_parts p s Hsvg)
    as (byId & s1 & debug & s2 & batch & s3 & g & s' & Hr1 & Hr2 & Hr3 & Hrun & Hg
        & _ & _ & _ & Hpl & _).
  fold nodeMap in Hr1, Hr3.
  assert (LightningGraph.animateChannelEventId p nodeMap s = (Normal [], s)) as Hr1' by done.
  rewrite Hr1 in Hr1'. injection Hr1' as -> ->.
  assert (LightningGraph.debugLightning p (LightningGraph.nodePositions_of s p) s
          = (Normal [], s)) as H2'.
  { unfold LightningGraph.debugLightning. cbn [p View.props LightningGraph.triggerDebugLightning].
    by rewrite (proj2 (Z.ltb_ge 0 (App.debugLightningTrigger u))). }
  rewrite Hr2 in H2'. injection H2' as -> ->.
  destruct (animateChannelEvents_run p nodeMap s) as (drawn & s3' & H3' & Hall & _).
  rewrite Hr3 in H3'. injection H3' as <- <-.
  exists g, s'. split_and!; [done | done | |].
  - rewrite Hpl. cbn [app].
    replace (App.channelEvents st)
      with (slice_last (LightningGraph.maxChannelEvents_or_default p)
              (LightningGraph.channelEvents_or_default p)); [done|].
    cbn. apply slice_last_fits. by apply polls_within_cap.
  - destruct (polls_snapshot responses) as (data & Hn & Hc). fold st in Hn, Hc.
    apply Forall_forall. intros e He. split.
    + intros Hid. destruct (find_present _ _ Hid) as (c & Hfind & Hcin & Hcid).
      pose proof (find_shown (App.showAllChannels u) _ _ e c He Hfind) as Hshown.
      rewrite Hc in Hcin. destruct (channel_ends_are_nodes data c Hcin) as [Hsrc Htgt].
      rewrite <- Hn in Hsrc, Htgt.
      destruct (last_with_id _ _ Hsrc) as (a & Hla & Ha & Haid).
      destruct (last_with_id _ _ Htgt) as (b & Hlb & Hb & Hbid).
      exists c, a, b. rewrite Hc. split_and!; try done.
      unfold LightningGraph.resolved. cbn [p View.props LightningGraph.channels].
      rewrite Hshown. unfold nodeMap. rewrite !nodeMap_of_positions.
      cbn [p View.props LightningGraph.nodes]. by rewrite Hla, Hlb.
    + intros Hall_ Hno. unfold LightningGraph.resolved.
      cbn [p View.props LightningGraph.channels]. rewrite Hall_.
      unfold App.shownChannels. rewrite channel_prop_of_channels.
      by rewrite (find_absent _ _ Hno).
Qed.

(** X26.  Unless the setting [DEBUG_LIGHTNING_ANIM] is exactly the
    string [true], the debug animation never draws: after every session
    of clicks, for every state of the poller and of the map and for every
    list of node positions, it returns no polyline and leaves the map as
    it is (no sound, no random sample). *)
Theorem no_debug_effect_without_debug_build (raw : option string)
    (evs : list App.UiEvent) (u' : App.Ui) (st : App.State)
    (nodePositions : list LightningGraph.Positioned) (s : LightningGraph.State) :
  App.ui_run (App.DEBUG_LIGHTNING raw) evs App.ui_initial = Some u' →
  raw ≠ Some "true" →
  LightningGraph.debugLightning (View.props u' st) nodePositions s = (Normal [], s).
Proof.
  intros Hui Hraw. destruct (ui_run_trigger _ _ _ _ Hui) as [_ Hoff].
  destruct Hoff as [Ht _].
  { destruct (App.DEBUG_LIGHTNING raw) eqn:Hd; [|done].
    apply DEBUG_LIGHTNING_true in Hd. done. }
  unfold LightningGraph.debugLightning. cbn [View.props LightningGraph.triggerDebugLightning].
  rewrite Ht. done.
Qed.

End SessionFacts.


(** ** The properties on the examples *)

Section OnExamples.
Import JS Examples.

#[local] Existing Instance host.
#[local] Existing Instance d3.
#[local] Existing Instance default_env.

(** Snapshot A holds the channel n1-n2 and snapshot B the channels n1-n2
    and n2-n3: the diff of A and B is one [open] event for n2-n3. *)
Lemma diff_emits_membership_changes_example :
  ∃ evs s1,
    App.detect ["n1-n2"] ["n1-n2"; "n2-n3"] App.initial = (Normal evs, s1)
    ∧ App.occurrences "n2-n3" open evs = 1%nat
    ∧ App.occurrences "n2-n3" closed evs = 0%nat.
Proof.
  destruct (diff_emits_membership_changes ["n1-n2"] ["n1-n2"; "n2-n3"] App.initial)
    as (evs & s1 & Hd & _ & Hocc).
  - apply (bool_decide_unpack _). vm_compute. exact I.
  - apply (bool_decide_unpack _). vm_compute. exact I.
  - discriminate.
  - exists evs, s1. split; [exact Hd|].
    destruct (Hocc "n2-n3") as (Hopen & _ & _). apply Hopen.
    + apply (bool_decide_unpack _). vm_compute. exact I.
    + apply (bool_decide_unpack _). vm_compute. exact I.
Defined.

(** C3.  With [MAX_CHANNEL_EVENTS=0], the poll of snapshot A (the channel
    n1-n2) and then of snapshot B (n1-n2 and n2-n3) leaves the [open] event
    of n2-n3 in the pending collection: one event under a cap of 0. *)
Lemma admission_exceeds_zero_cap :
  let s := @App.polls host zero_env
             [snapshot [entry "n1" "n2"]; snapshot [entry "n1" "n2"; entry "n2" "n3"]]
             App.initial in
  @MAX_CHANNEL_EVENTS zero_env = 0
  ∧ key_of_events (App.channelEvents s) = [("n2-n3", open)]
  ∧ ¬ (Z.of_nat (length (App.channelEvents s)) ≤ @MAX_CHANNEL_EVENTS zero_env).
Proof. vm_compute. split; [reflexivity|]. split; [reflexivity|]. intros Hle. by apply Hle. Qed.

(** C6.  With [MAX_CHANNEL_EVENTS=0], a pass from the set of n1-n2 to the
    set of n1-n2 and n2-n3 detects one event, more than the cap: the
    warning announces a limit of 0 and the event is returned all the same. *)
Lemma burst_not_truncated_at_zero_cap :
  ∃ kept s2,
    @App.diff host zero_env ["n1-n2"] ["n1-n2"; "n2-n3"] App.initial = (Normal kept, s2)
    ∧ key_of_events kept = [("n2-n3", open)]
    ∧ last (App.console s2)
      = Some "[WARNING] Too many channel events detected (1), limiting to 0".
Proof. eexists _, _. split; [vm_compute; reflexivity|]. split; vm_compute; reflexivity. Qed.

(** After an outage, the first snapshot only sets the baseline. *)
Lemma first_snapshot_is_baseline_example :
  ∃ s',
    App.fetchChannelsGeo (snapshot [entry "n1" "n2"]) (App.polls outage App.initial)
    = (Normal tt, s')
    ∧ App.channelEvents s' = []
    ∧ App.prevChannelsRef s' = ["n1-n2"].
Proof.
  destruct (first_snapshot_is_baseline outage [entry "n1" "n2"] 200)
    as (s' & Hrun & Hce & Hprev & _).
  - unfold outage. repeat constructor; cbn; tauto.
  - exists s'. split; [exact Hrun|]. split; [exact Hce|]. rewrite Hprev. reflexivity.
Defined.

(** With the default cap of 30, a sequence of polls leaves at most 30
    pending events. *)
Lemma admission_window_and_cap_example :
  0 < MAX_CHANNEL_EVENTS
  ∧ Z.of_nat (length (App.channelEvents
        (App.polls
           [snapshot [entry "n1" "n2"]; snapshot [entry "n2" "n3"; entry "n3" "n4"]]
           App.initial))) ≤ MAX_CHANNEL_EVENTS.
Proof.
  assert (0 < MAX_CHANNEL_EVENTS) as Hcap by reflexivity.
  split; [exact Hcap|].
  apply (proj2 (admission_window_and_cap Hcap)).
Defined.

(** With a cap of two, a pass that detects four events keeps the last
    two. *)
Lemma burst_is_truncated_with_warning_example :
  ∃ kept s2,
    @App.diff host small_env ["a-b"] ["c-d"; "e-f"; "g-h"] App.initial = (Normal kept, s2)
    ∧ event_id <$> kept = ["g-h"; "a-b"].
Proof.
  destruct (App.detect ["a-b"] ["c-d"; "e-f"; "g-h"] App.initial) as [[evs|e] s1] eqn:Hd;
    [|vm_compute in Hd; discriminate].
  destruct (@burst_is_truncated_with_warning host small_env
              ["a-b"] ["c-d"; "e-f"; "g-h"] App.initial evs s1)
    as [(kept & s2 & Hdiff & Hkept & _) _].
  - reflexivity.
  - discriminate.
  - exact Hd.
  - vm_compute in Hd. injection Hd as <- _. reflexivity.
  - exists kept, s2. split; [exact Hdiff|]. rewrite Hkept.
    vm_compute in Hd. injection Hd as <- _. reflexivity.
Defined.

(** After a snapshot without channels and an outage, the next snapshot
    only sets the baseline. *)
Lemma empty_snapshot_resets_baseline_example :
  ∃ s',
    App.fetchChannelsGeo (snapshot [entry "n1" "n2"])
      (App.polls outage
         (App.poll (snapshot []) (App.poll (snapshot [entry "n1" "n2"]) App.initial)))
    = (Normal tt, s')
    ∧ App.channelEvents s' = []
    ∧ App.prevChannelsRef s' = ["n1-n2"].
Proof.
  destruct (empty_snapshot_resets_baseline
              (App.poll (snapshot [entry "n1" "n2"]) App.initial)
              200 outage [entry "n1" "n2"] 200)
    as (_ & s' & Hrun & Hce & Hprev & _).
  - unfold outage. repeat constructor; cbn; tauto.
  - exists s'. split; [exact Hrun|]. split; [exact Hce|]. rewrite Hprev. reflexivity.
Defined.



(** The debug animation is drawn again by a redraw that another
    dependency causes while the trigger keeps its positive value: one
    trigger value plays it twice. *)
Lemma debug_trigger_redrawn_example :
  let s1 := LightningGraph.step (LightningGraph.mount 800 600)
              (LightningGraph.Redraw (debug_props three_nodes 1)) in
  let s2 := (LightningGraph.render (Some (Some 1)) true (debug_props three_nodes 1) s1).2 in
  (length <$> (LightningGraph.polylines <$> LightningGraph.zoom_group s1) = Some 1%nat)
  ∧ (length <$> (LightningGraph.polylines <$> LightningGraph.zoom_group s2) = Some 1%nat)
  ∧ LightningGraph.random_reads s1 = 14%nat
  ∧ LightningGraph.random_reads s2 = 28%nat.
Proof. vm_compute. repeat split. Qed.

(** Two redraws of the same nodes on the same canvas, the second after
    a busy redraw and with other props, draw the same circles. *)
Lemma projection_is_deterministic_example :
  ∃ g1 g2 s1' s2',
    LightningGraph.redraw (debug_props three_nodes 0) (LightningGraph.mount 800 600)
    = (Normal tt, s1')
    ∧ LightningGraph.zoom_group s1' = Some g1
    ∧ LightningGraph.redraw (batch_props three_nodes burst)
        (LightningGraph.run [LightningGraph.Redraw (batch_props three_nodes burst)]
           (LightningGraph.mount 800 600))
      = (Normal tt, s2')
    ∧ LightningGraph.zoom_group s2' = Some g2
    ∧ LightningGraph.circles g1 = LightningGraph.circles g2.
Proof.
  destruct (projection_is_deterministic host host
              (debug_props three_nodes 0) (batch_props three_nodes burst)
              (LightningGraph.mount 800 600)
              (LightningGraph.run [LightningGraph.Redraw (batch_props three_nodes burst)]
                 (LightningGraph.mount 800 600)))
    as (g1 & g2 & s1' & s2' & Hr1 & Hg1 & Hr2 & Hg2 & Hc & _).
  - reflexivity.
  - vm_compute. reflexivity.
  - vm_compute. reflexivity.
  - vm_compute. reflexivity.
  - reflexivity.
  - exists g1, g2, s1', s2'. repeat split; assumption.
Defined.

(** The three nodes of two channels, in the order of first mention. *)
Lemma nodes_are_distinct_endpoints_example :
  node_id <$> App.nodeArr_of two_channels = ["n1"; "n2"; "n3"].
Proof.
  destruct (nodes_are_distinct_endpoints two_channels) as (Hids & _).
  - apply (bool_decide_unpack _). vm_compute. exact I.
  - rewrite Hids. reflexivity.
Defined.

(** The node n1 keeps the position of the first row that mentions it. *)
Lemma first_geodata_wins_example :
  node_at "n1" 2 48 ∈ App.nodeArr_of moved_node
  ∧ node_at "n1" 13 52 ∉ App.nodeArr_of moved_node.
Proof.
  assert (Forall own_key (App.endpoints moved_node)) as Hkeys.
  { apply (bool_decide_unpack _). vm_compute. exact I. }
  destruct (first_geodata_wins moved_node Hkeys) as [Hfirst_ _].
  split.
  - apply Hfirst_.
    exists 0%nat. split; [reflexivity|]. intros j n' Hj. lia.
  - intros Hin. apply Hfirst_ in Hin as (i & Hi & Hfirst).
    destruct i as [|[|[|[|i]]]]; try discriminate.
    by apply (Hfirst 0%nat (node_at "n1" 2 48)); [lia | reflexivity |].
Defined.

(** Both ends of the two channels are nodes of the node list. *)
Lemma channels_link_known_nodes_example :
  Forall (λ c, source c ∈ node_id <$> App.nodeArr_of two_channels
               ∧ target c ∈ node_id <$> App.nodeArr_of two_channels)
         (App.channelArr_of two_channels).
Proof.
  apply (channels_link_known_nodes two_channels).
  apply (bool_decide_unpack _). vm_compute. exact I.
Defined.

(** After the baseline of two channels, the same two channels in the
    other order: nothing is detected. *)
Lemma unchanged_snapshot_detects_nothing_example :
  ∃ s', App.accept two_channels_reordered (App.poll (snapshot two_channels) App.initial)
        = (Normal tt, s')
        ∧ App.channelEvents s' = []
        ∧ App.prevChannelsRef s' = ["n2-n3"; "n1-n2"].
Proof.
  destruct (unchanged_snapshot_detects_nothing two_channels_reordered
              (App.poll (snapshot two_channels) App.initial))
    as (s' & k & Hrun & _ & _ & Hce & Hp).
  - reflexivity.
  - discriminate.
  - reflexivity.
  - intros id.
    change (App.currentChannelIds_of two_channels_reordered) with ["n2-n3"; "n1-n2"].
    change (App.prevChannelsRef (App.poll (snapshot two_channels) App.initial))
      with ["n1-n2"; "n2-n3"].
    rewrite !elem_of_cons, !elem_of_nil. tauto.
  - exists s'. split; [exact Hrun|]. split; [|rewrite Hp; reflexivity].
    rewrite Hce. reflexivity.
Defined.

(** The id n1-n2 splits into n1 and n2. *)
Lemma closed_channel_round_trip_example :
  App.shown_of_event {| event_id := "n1-n2"; ts := 0; event_status := closed |}
  = {| App.shown_id := "n1-n2"; App.shown_source := Some "n1";
       App.shown_target := Some "n2"; App.shown_status := closed |}.
Proof.
  apply (closed_channel_round_trip (entry "n1" "n2") 0 closed); reflexivity.
Defined.

(** In a debug build, a click on the trigger and a firing of the
    interval bring the trigger to 2. *)
Lemma debug_trigger_counts_up_example :
  let u' := {| App.showLogs := false; App.showAllChannels := false;
               App.debugLightningTrigger := 2; App.debugRandomOn := true |} in
  App.ui_run (App.DEBUG_LIGHTNING (Some "true")) debug_session App.ui_initial = Some u'
  ∧ App.debugLightningTrigger u' = App.increments debug_session.
Proof.
  intros u'. split; [reflexivity|].
  apply (debug_trigger_counts_up (Some "true") debug_session u'). reflexivity.
Defined.

(** One channel, one line. *)
Lemma lines_join_known_nodes_example :
  ∃ g s',
    LightningGraph.redraw (batch_props three_nodes burst) (LightningGraph.mount 800 600)
    = (Normal tt, s')
    ∧ LightningGraph.zoom_group s' = Some g
    ∧ length (LightningGraph.lines g) = 1%nat.
Proof.
  destruct (lines_join_known_nodes (batch_props three_nodes burst)
              (LightningGraph.mount 800 600)) as (g & s' & Hrun & Hg & Hlen & _).
  - reflexivity.
  - apply (bool_decide_unpack _). vm_compute. exact I.
  - exists g, s'. split; [exact Hrun|]. split; [exact Hg|]. rewrite Hlen. reflexivity.
Defined.

(** A batch of three events on the one channel of the props. *)
Lemma batch_draws_resolved_events_example :
  ∃ drawn s',
    LightningGraph.animateChannelEvents (batch_props three_nodes burst)
      (LightningGraph.nodeMap_of (positions three_nodes)) (LightningGraph.mount 800 600)
    = (Normal drawn, s')
    ∧ LightningGraph.random_reads s' = (12 * length drawn)%nat
    ∧ (length drawn ≤ 3)%nat.
Proof.
  destruct (batch_draws_resolved_events (batch_props three_nodes burst)
              (LightningGraph.nodeMap_of (positions three_nodes))
              (LightningGraph.mount 800 600)) as (drawn & s' & Hrun & _ & _ & Hrd & Hlen & _).
  - reflexivity.
  - apply (bool_decide_unpack _). vm_compute. exact I.
  - exists drawn, s'. split; [exact Hrun|]. split; [exact Hrd | exact Hlen].
Defined.

(** The channel-event id n1-n2 of the props draws one polyline at
    most. *)
Lemma channel_event_id_draws_one_effect_example :
  ∃ drawn s',
    LightningGraph.animateChannelEventId (batch_props three_nodes burst)
      (LightningGraph.nodeMap_of (positions three_nodes)) (LightningGraph.mount 800 600)
    = (Normal drawn, s')
    ∧ (length drawn ≤ 1)%nat.
Proof.
  destruct (channel_event_id_draws_one_effect (batch_props three_nodes burst)
              (LightningGraph.nodeMap_of (positions three_nodes))
              (LightningGraph.mount 800 600)) as (drawn & s' & Hrun & Hlen & _).
  - apply (bool_decide_unpack _). vm_compute. exact I.
  - exists drawn, s'. split; [exact Hrun | exact Hlen].
Defined.

(** A redraw with a trigger of 0 and no pending event. *)
Lemma idle_redraw_is_silent_example :
  ∃ g s',
    LightningGraph.redraw (debug_props three_nodes 0) (LightningGraph.mount 800 600)
    = (Normal tt, s')
    ∧ LightningGraph.zoom_group s' = Some g
    ∧ LightningGraph.polylines g = []
    ∧ LightningGraph.played s' = [].
Proof.
  destruct (idle_redraw_is_silent (debug_props three_nodes 0) (LightningGraph.mount 800 600))
    as (g & s' & Hrun & Hg & Hpl & _ & Hplayed & _).
  - reflexivity.
  - split; [by left|]. split; [|reflexivity].
    intros trigger [= <-]. lia.
  - exists g, s'. split; [exact Hrun|]. split; [exact Hg|]. split; [exact Hpl|].
    rewrite Hplayed. reflexivity.
Defined.

(** Of the atlas of three features, the country and the feature
    without properties are kept. *)
Lemma atlas_is_drawn_without_Antarctica_example :
  ∃ s0 g s',
    LightningGraph.onWorldLoaded atlas (LightningGraph.mount 800 600) = (Normal tt, s0)
    ∧ LightningGraph.world s0 = Some [ country_feature "250" "France"; bare_feature "010" ]
    ∧ LightningGraph.redraw (debug_props three_nodes 0) s0 = (Normal tt, s')
    ∧ LightningGraph.zoom_group s' = Some g
    ∧ length (LightningGraph.paths g) = 2%nat.
Proof.
  destruct (atlas_is_drawn_without_Antarctica atlas (debug_props three_nodes 0)
              (LightningGraph.mount 800 600))
    as (s0 & g & s' & Hload & Hw & _ & _ & Hrun & Hg & Hpaths).
  - reflexivity.
  - exists s0, g, s'. split; [exact Hload|]. split; [rewrite Hw; reflexivity|].
    split; [exact Hrun|]. split; [exact Hg|]. rewrite Hpaths. reflexivity.
Defined.

(** The two nodes of a first snapshot are drawn grey. *)
Lemma poller_nodes_are_grey_example :
  ∃ g s',
    LightningGraph.redraw
      (View.props App.ui_initial (App.polls [snapshot [entry "n1" "n2"]] App.initial))
      (LightningGraph.mount 800 600)
    = (Normal tt, s')
    ∧ LightningGraph.zoom_group s' = Some g
    ∧ LightningGraph.fill <$> LightningGraph.circles g = ["#888"; "#888"].
Proof.
  destruct (poller_nodes_are_grey [snapshot [entry "n1" "n2"]] App.ui_initial
              (LightningGraph.mount 800 600)) as (g & s' & Hrun & Hg & Hall).
  - reflexivity.
  - repeat constructor; cbn; apply (bool_decide_unpack _); vm_compute; exact I.
  - exists g, s'. split; [exact Hrun|]. split; [exact Hg|].
    change (App.nodes (App.polls [snapshot [entry "n1" "n2"]] App.initial))
      with [node_at "n1" 2 48; node_at "n2" 13 52] in Hall.
    apply Forall2_cons_inv_l in Hall as (c1 & l1 & (Hf1 & _) & Hall & ->).
    apply Forall2_cons_inv_l in Hall as (c2 & l2 & (Hf2 & _) & Hall & ->).
    apply Forall2_nil_inv_l in Hall as ->. cbn. by rewrite Hf1, Hf2.
Defined.

(** After the baseline of one channel and a snapshot that adds a
    second one, the pending [open] event is drawn. *)
Lemma pending_events_are_animated_example :
  ∃ g s',
    LightningGraph.redraw
      (View.props App.ui_initial
         (App.polls [snapshot [entry "n1" "n2"]; snapshot two_channels] App.initial))
      (LightningGraph.mount 800 600)
    = (Normal tt, s')
    ∧ LightningGraph.zoom_group s' = Some g
    ∧ length (LightningGraph.polylines g) = 1%nat.
Proof.
  destruct (pending_events_are_animated
              [snapshot [entry "n1" "n2"]; snapshot two_channels] App.ui_initial
              (LightningGraph.mount 800 600)) as (g & s' & Hrun & Hg & Hall & _).
  - reflexivity.
  - reflexivity.
  - cbn. lia.
  - repeat constructor; cbn; apply (bool_decide_unpack _); vm_compute; exact I.
  - exists g, s'. split; [exact Hrun|]. split; [exact Hg|].
    apply Forall2_length in Hall. rewrite Hall. vm_compute. reflexivity.
Defined.

(** Without the setting, the debug animation draws nothing. *)
Lemma no_debug_effect_without_debug_build_example :
  LightningGraph.debugLightning
    (View.props {| App.showLogs := true; App.showAllChannels := false;
                   App.debugLightningTrigger := 0; App.debugRandomOn := false |}
                App.initial)
    (positions three_nodes) (LightningGraph.mount 800 600)
  = (Normal [], LightningGraph.mount 800 600).
Proof.
  apply (no_debug_effect_without_debug_build None [App.ClickLogs]).
  - reflexivity.
  - discriminate.
Defined.

End OnExamples.
